(** * multicastv6: sequenced frames over IPv6 multicast

    A shallow embedding of the four programs of the repository

    - [Receiver]        src/receiver.cpp, the receiver with stream ids
                        (12-byte header),
    - [LegacyReceiver]  the single-stream receiver (8-byte header),
    - [Sender]          the sender with stream ids (12-byte header),
    - [LegacySender]    src/sender.cpp, the single-stream sender
                        (8-byte header),

    and the properties of reassembly, demultiplexing, completion and
    chunking that are stated about them.

    Conventions.  A [uint32_t] is a [Z] in [0, 2^32) and every increment
    is written with its wrap-around ([u32_succ]).  A datagram is a
    [list byte].  [std::map] is a [gmap], [std::set] a [gset].  What the
    programs print on stderr is a list of structured messages, what they
    write on stdout a list of byte chunks; both are returned by each step
    next to the new state.  What the environment decides (the datagram
    that [recv] returns, the reading of the steady clock, whether a path
    can be opened for writing, whether a signal was raised, whether
    [sendto] fails) is an input of the model. *)

From Stdlib Require Import ZArith List Lia.
From Stdlib Require Import Strings.Byte.
From stdpp Require Import base option list sorting gmap strings pretty fin_maps fin_sets.

Local Open Scope Z_scope.

(** ** Machine integers and the wire encoding *)

Module Wire.

Definition u32_modulus : Z := 2 ^ 32.
Definition u32_max : Z := u32_modulus - 1.

Definition is_u32 (z : Z) : Prop := 0 ≤ z < u32_modulus.

(** [++x] on a [uint32_t]. *)
Definition u32_succ (z : Z) : Z := (z + 1) mod u32_modulus.

Definition byte_val (b : byte) : Z := Z.of_N (Byte.to_N b).

Definition byte_of_Z (z : Z) : byte :=
  match Byte.of_N (Z.to_N (z mod 256)) with
  | Some b => b
  | None => x00
  end.

(** [memcpy(&w, buf + off, 4); ntohl(w)]: the four bytes at [off], most
    significant first. *)
Definition load_be32 (buf : list byte) (off : nat) : Z :=
  byte_val (nth off buf x00) * 2 ^ 24
  + byte_val (nth (off + 1) buf x00) * 2 ^ 16
  + byte_val (nth (off + 2) buf x00) * 2 ^ 8
  + byte_val (nth (off + 3) buf x00).

(** [w = htonl(v); memcpy(buf, &w, 4)]. *)
Definition store_be32 (v : Z) : list byte :=
  [ byte_of_Z (v / 2 ^ 24); byte_of_Z (v / 2 ^ 16);
    byte_of_Z (v / 2 ^ 8); byte_of_Z v ].

Definition PAYLOAD_SIZE : nat := 1200.
Definition FLAG_FINAL : Z := 1.

(** [flags & FLAG_FINAL] used as a condition. *)
Definition has_final (flags : Z) : bool :=
  negb (Z.land flags FLAG_FINAL =? 0).

End Wire.

Import Wire.

(** ** The output file stream of a stream state

    [std::ofstream] as far as the receiver uses it: whether a file is
    attached, whether [failbit] or [badbit] is set, and the bytes written
    through it so far.  Writes to an attached file are taken to succeed. *)

Module Ofstream.

Record t : Type := mk {
  is_open : bool;
  failed : bool;
  written : list byte
}.

Definition closed : t := mk false false [].

(** [f.open(name, std::ios::binary)]; [ok] says whether the path can be
    opened for writing.  Opening a stream that has a file attached
    fails. *)
Definition open (ok : bool) (f : t) : t :=
  if is_open f then mk true true (written f)
  else if ok then mk true false (written f)
  else mk false true (written f).

(** [f.write(data, size)]. *)
Definition write (bs : list byte) (f : t) : t :=
  if failed f then f
  else if is_open f then mk true false (written f ++ bs)
  else match bs with
       | [] => f
       | _ :: _ => mk false true (written f)
       end.

(** [f.close()]. *)
Definition close (f : t) : t :=
  if is_open f then mk false (failed f) (written f)
  else mk false true (written f).

End Ofstream.

(** ** What the loop receives and what it prints *)

(** One return of [recv]: a datagram, a receive timeout ([EWOULDBLOCK],
    [EAGAIN] or [EINTR]) or any other error.  [now] is the reading of the
    steady clock during that iteration, in nanoseconds. *)
Inductive event : Type :=
  | EvDatagram (now : Z) (dgram : list byte)
  | EvTimeout (now : Z)
  | EvError.

Inductive ctl : Type := Continue | Break.

(** Seconds elapsed between two clock readings:
    [duration_cast<seconds>(now - at).count()]. *)
Definition elapsed_seconds (now at_ : Z) : Z := Z.quot (now - at_) 1000000000.

(** ** The receiver with stream ids (src/receiver.cpp) *)

Module Receiver.

Definition HDR_LEN : nat := 12.
Definition MAX_PKT : nat := HDR_LEN + PAYLOAD_SIZE.

Record StreamState : Type := mkStream {
  expected : Z;
  buffer : gmap Z (list byte);
  final_seen : bool;
  final_seq : Z;
  final_at : Z;
  fout : Ofstream.t;
  has_file : bool
}.

(** The default member initialisers of [struct StreamState]. *)
Definition new_stream : StreamState :=
  mkStream 1 ∅ false 0 0 Ofstream.closed false.

Definition set_expected (e : Z) (st : StreamState) : StreamState :=
  mkStream e (buffer st) (final_seen st) (final_seq st) (final_at st)
    (fout st) (has_file st).
Definition set_buffer (b : gmap Z (list byte)) (st : StreamState) : StreamState :=
  mkStream (expected st) b (final_seen st) (final_seq st) (final_at st)
    (fout st) (has_file st).
Definition set_final_seen (b : bool) (st : StreamState) : StreamState :=
  mkStream (expected st) (buffer st) b (final_seq st) (final_at st)
    (fout st) (has_file st).
Definition set_final (seq now : Z) (st : StreamState) : StreamState :=
  mkStream (expected st) (buffer st) true seq now (fout st) (has_file st).
Definition set_fout (f : Ofstream.t) (st : StreamState) : StreamState :=
  mkStream (expected st) (buffer st) (final_seen st) (final_seq st)
    (final_at st) f (has_file st).
Definition set_has_file (b : bool) (st : StreamState) : StreamState :=
  mkStream (expected st) (buffer st) (final_seen st) (final_seq st)
    (final_at st) (fout st) b.

(** The lines the receiver prints on stderr. *)
Inductive message : Type :=
  | MsgTimeout (sid : Z)
  | MsgOpenError (fname : string) (sid : Z)
  | MsgOpened (fname : string) (sid : Z)
  | MsgStdout (sid : Z)
  | MsgFinalSeen (sid seq : Z)
  | MsgFinished (sid expected_ final_ : Z)
  | MsgRecvError.

Inductive output : Type :=
  | Cerr (m : message)
  | Cout (bs : list byte).

(** The command line, after parsing: [-s all] or the set of [-s],
    the pattern of [-o] and the seconds of [-t]. *)
Record config : Type := mkConfig {
  subscribe_all : bool;
  subs : gset Z;
  out_pattern : string;
  timeout : Z
}.

Definition single_to_stdout (cfg : config) : bool :=
  negb (subscribe_all cfg) && (size (subs cfg) =? 1)%nat
    && bool_decide (out_pattern cfg = "-"%string).

(** [fname.replace(fname.find("{id}"), 4, std::to_string(sid))]. *)
Definition file_name (pattern : string) (sid : Z) : string :=
  match String.index 0 "{id}" pattern with
  | Some pos =>
      String.substring 0 pos pattern +:+ pretty sid
        +:+ String.substring (pos + 4) (String.length pattern - (pos + 4)) pattern
  | None => pattern
  end.

(** [(size_t)n < HDR_LEN] fails; the three header words and the payload
    [rxbuf[HDR_LEN .. n)]. *)
Record frame : Type := mkFrame {
  stream_id : Z;
  sequence : Z;
  flags : Z;
  payload : list byte
}.

(** What [recv] leaves in [rxbuf], a buffer of [MAX_PKT] bytes: a longer
    datagram is cut. *)
Definition recv (dgram : list byte) : list byte := take MAX_PKT dgram.

Definition decode (rx : list byte) : option frame :=
  if (length rx <? HDR_LEN)%nat then None
  else Some (mkFrame (load_be32 rx 0) (load_be32 rx 4) (load_be32 rx 8)
               (drop HDR_LEN rx)).

Section Loop.

Variable cfg : config.
(** Whether a path can be opened for writing; the file system is taken
    to be stable while the receiver runs. *)
Variable can_open : string → bool.

Definition subscribed (sid : Z) : bool :=
  subscribe_all cfg || bool_decide (sid ∈ subs cfg).

(** [if (!st.has_file) { ... }]: the stream's file is opened when the
    stream has none. *)
Definition open_sink (sid : Z) (st : StreamState) : StreamState * list output :=
  if has_file st then (st, [])
  else if single_to_stdout cfg then
    (set_has_file false st, [Cerr (MsgStdout sid)])
  else
    let fname := file_name (out_pattern cfg) sid in
    let f := Ofstream.open (can_open fname) (fout st) in
    if Ofstream.failed f
    then (set_fout f st, [Cerr (MsgOpenError fname sid)])
    else (set_has_file true (set_fout f st), [Cerr (MsgOpened fname sid)]).

(** One write of the loop body: to stdout, to the stream's file, or
    nowhere.  [to_stdout] is [single_to_stdout && streams.size() == 1]. *)
Definition emit (to_stdout : bool) (bs : list byte) (st : StreamState)
  : StreamState * list output :=
  if to_stdout && negb (has_file st) then (st, [Cout bs])
  else if has_file st then (set_fout (Ofstream.write bs (fout st)) st, [])
  else (st, []).

Definition emit_nonempty (to_stdout : bool) (bs : list byte) (st : StreamState)
  : StreamState * list output :=
  match bs with
  | [] => (st, [])
  | _ :: _ => emit to_stdout bs st
  end.

(** The [while (true)] that flushes the buffered frames from
    [expected] on.  Every iteration erases an entry, so it is run with
    the size of the buffer as fuel ([ReceiverInv.drain_exits]). *)
Fixpoint drain (fuel : nat) (to_stdout : bool) (st : StreamState)
  : StreamState * list output :=
  match fuel with
  | O => (st, [])
  | S fuel' =>
      match buffer st !! expected st with
      | None => (st, [])
      | Some bs =>
          let '(st1, o1) := emit_nonempty to_stdout bs st in
          let st2 :=
            set_expected (u32_succ (expected st1))
              (set_buffer (delete (expected st1) (buffer st1)) st1) in
          let '(st3, o3) := drain fuel' to_stdout st2 in
          (st3, o1 ++ o3)
      end
  end.

(** The branches [seq == st.expected] and [seq > st.expected]. *)
Definition reassemble (to_stdout : bool) (seq : Z) (bs : list byte)
    (st : StreamState) : StreamState * list output :=
  if seq =? expected st then
    let '(st1, o1) := emit_nonempty to_stdout bs st in
    let st2 := set_expected (u32_succ (expected st1)) st1 in
    let '(st3, o3) := drain (size (buffer st2)) to_stdout st2 in
    (st3, o1 ++ o3)
  else
    match buffer st !! seq with
    | None => (set_buffer (<[seq := bs]> (buffer st)) st, [])
    | Some _ => (st, [])
    end.

(** [if (flags & FLAG_FINAL) { ... }]. *)
Definition mark_final (sid seq flags_ now : Z) (st : StreamState)
  : StreamState * list output :=
  if has_final flags_
  then (set_final seq now st, [Cerr (MsgFinalSeen sid seq)])
  else (st, []).

(** [st.final_seen && st.expected > st.final_seq]. *)
Definition stream_done (st : StreamState) : bool :=
  final_seen st && (final_seq st <? expected st).

Definition close_file (st : StreamState) : StreamState :=
  if has_file st && Ofstream.is_open (fout st)
  then set_fout (Ofstream.close (fout st)) st
  else st.

(** From the sequence comparison to the completion test of one stream.
    The boolean tells whether the completion test was reached and
    held. *)
Definition ingest (to_stdout : bool) (sid seq flags_ now : Z)
    (bs : list byte) (st : StreamState) : StreamState * list output * bool :=
  if seq <? expected st then (st, [], false)
  else
    let '(st1, o1) := reassemble to_stdout seq bs st in
    let '(st2, o2) := mark_final sid seq flags_ now st1 in
    if stream_done st2
    then (close_file st2,
          o1 ++ o2 ++ [Cerr (MsgFinished sid (expected st2) (final_seq st2))],
          true)
    else (st2, o1 ++ o2, false).

(** The loop over [subs] that computes [all_done]. *)
Definition all_done (streams : gmap Z StreamState) : bool :=
  forallb
    (λ sid, match streams !! sid with
            | None => false
            | Some st => stream_done st
            end)
    (elements (subs cfg)).

Definition stream_at (streams : gmap Z StreamState) (sid : Z) : StreamState :=
  default new_stream (streams !! sid).

(** The loop body from the subscription test on, for the frame read
    from [rxbuf]. *)
Definition on_frame (now : Z) (fr : frame) (streams : gmap Z StreamState)
  : gmap Z StreamState * list output * ctl :=
  let sid := stream_id fr in
  if negb (subscribed sid) then (streams, [], Continue)
  else
    let '(st1, o1) := open_sink sid (stream_at streams sid) in
    let to_stdout :=
      single_to_stdout cfg && (size (<[sid := st1]> streams) =? 1)%nat in
    let '(st2, o2, fin) :=
      ingest to_stdout sid (sequence fr) (flags fr) now (payload fr) st1 in
    let streams' := <[sid := st2]> streams in
    (streams', o1 ++ o2,
     if fin && negb (subscribe_all cfg) && all_done streams'
     then Break else Continue).

(** An iteration in which [recv] returned a datagram. *)
Definition on_datagram (now : Z) (dgram : list byte)
    (streams : gmap Z StreamState) : gmap Z StreamState * list output * ctl :=
  match decode (recv dgram) with
  | None => (streams, [], Continue)
  | Some fr => on_frame now fr streams
  end.

Definition timed_out (now : Z) (st : StreamState) : bool :=
  final_seen st && (timeout cfg <? elapsed_seconds now (final_at st)).

Definition expire (now : Z) (st : StreamState) : StreamState :=
  if timed_out now st then set_final_seen false st else st.

(** An iteration in which [recv] timed out. *)
Definition on_timeout (now : Z) (streams : gmap Z StreamState)
  : gmap Z StreamState * list output * ctl :=
  let msgs :=
    omap (λ sid, st ← streams !! sid;
                 if timed_out now st then Some (Cerr (MsgTimeout sid)) else None)
         (merge_sort Z.le (elements (dom streams))) in
  let streams' := expire now <$> streams in
  (streams', msgs,
   if negb (subscribe_all cfg) && all_done streams' then Break else Continue).

Definition step (streams : gmap Z StreamState) (ev : event)
  : gmap Z StreamState * list output * ctl :=
  match ev with
  | EvDatagram now dgram => on_datagram now dgram streams
  | EvTimeout now => on_timeout now streams
  | EvError => (streams, [Cerr MsgRecvError], Break)
  end.

(** The [while (true)] of [main] over the returns of [recv]; the
    boolean tells whether the loop was left. *)
Fixpoint run_loop (evs : list event) (streams : gmap Z StreamState)
  : gmap Z StreamState * list output * bool :=
  match evs with
  | [] => (streams, [], false)
  | ev :: evs' =>
      let '(s1, o1, c) := step streams ev in
      match c with
      | Break => (s1, o1, true)
      | Continue =>
          let '(s2, o2, exited) := run_loop evs' s1 in
          (s2, o1 ++ o2, exited)
      end
  end.

(** The flush after the loop: written to the stream's file only. *)
Fixpoint flush_rest (fuel : nat) (st : StreamState) : StreamState :=
  match fuel with
  | O => st
  | S fuel' =>
      match buffer st !! expected st with
      | None => st
      | Some bs =>
          let st1 :=
            if has_file st then set_fout (Ofstream.write bs (fout st)) st
            else st in
          flush_rest fuel'
            (set_expected (u32_succ (expected st1))
               (set_buffer (delete (expected st1) (buffer st1)) st1))
      end
  end.

Definition shutdown_stream (st : StreamState) : StreamState :=
  close_file (flush_rest (size (buffer st)) st).

Definition shutdown (streams : gmap Z StreamState) : gmap Z StreamState :=
  shutdown_stream <$> streams.

(** [main] from the first [recv] on.  When the events end before the
    loop is left the process is still waiting in [recv]. *)
Definition run (evs : list event) : gmap Z StreamState * list output * bool :=
  let '(s, o, exited) := run_loop evs ∅ in
  if exited then (shutdown s, o, true) else (s, o, false).

Definition stdout_bytes (o : list output) : list byte :=
  concat (omap (λ x, match x with Cout bs => Some bs | Cerr _ => None end) o).

(** The bytes that reached the sink of stream [sid]. *)
Definition sink_bytes (sid : Z) (res : gmap Z StreamState * list output * bool)
  : list byte :=
  if single_to_stdout cfg then stdout_bytes res.1.2
  else Ofstream.written (fout (stream_at res.1.1 sid)).

End Loop.

End Receiver.

(** ** The single-stream receiver (8-byte header) *)

Module LegacyReceiver.

Definition HDR_LEN : nat := 8.
Definition MAX_PKT : nat := HDR_LEN + PAYLOAD_SIZE.

(** The locals of [main] that the loop updates; [sink] is what was
    written through [outptr], [closed] whether [fout.close()] ran. *)
Record state : Type := mkState {
  expected : Z;
  buffer : gmap Z (list byte);
  final_seen : bool;
  final_seq : Z;
  final_at : Z;
  sink : list byte;
  closed : bool
}.

Definition init : state := mkState 1 ∅ false 0 0 [] false.

Inductive message : Type :=
  | MsgTimeout (expected_ final_ buffered : Z)
  | MsgFinalSeen (seq : Z)
  | MsgFinishing
  | MsgRecvError.

Definition recv (dgram : list byte) : list byte := take MAX_PKT dgram.

Definition write (bs : list byte) (st : state) : state :=
  mkState (expected st) (buffer st) (final_seen st) (final_seq st)
    (final_at st) (sink st ++ bs) (closed st).

Definition advance (st : state) : state :=
  mkState (u32_succ (expected st)) (delete (expected st) (buffer st))
    (final_seen st) (final_seq st) (final_at st) (sink st) (closed st).

(** The flush of the buffered frames from [expected] on, in the loop and
    after it; run with the size of the buffer as fuel. *)
Fixpoint drain (fuel : nat) (st : state) : state :=
  match fuel with
  | O => st
  | S fuel' =>
      match buffer st !! expected st with
      | None => st
      | Some bs => drain fuel' (advance (write bs st))
      end
  end.

Definition reassemble (seq : Z) (bs : list byte) (st : state) : state :=
  if seq =? expected st then
    let st1 := write bs st in
    let st2 :=
      mkState (u32_succ (expected st1)) (buffer st1) (final_seen st1)
        (final_seq st1) (final_at st1) (sink st1) (closed st1) in
    drain (size (buffer st2)) st2
  else
    match buffer st !! seq with
    | None =>
        mkState (expected st) (<[seq := bs]> (buffer st)) (final_seen st)
          (final_seq st) (final_at st) (sink st) (closed st)
    | Some _ => st
    end.

Definition mark_final (seq flags_ now : Z) (st : state) : state * list message :=
  if has_final flags_
  then (mkState (expected st) (buffer st) true seq now (sink st) (closed st),
        [MsgFinalSeen seq])
  else (st, []).

Definition on_datagram (now : Z) (dgram : list byte) (st : state)
  : state * list message * ctl :=
  let rx := recv dgram in
  if (length rx <? HDR_LEN)%nat then (st, [], Continue)
  else
    let seq := load_be32 rx 0 in
    let flags_ := load_be32 rx 4 in
    let bs := drop HDR_LEN rx in
    if seq <? expected st then (st, [], Continue)
    else
      let st1 := reassemble seq bs st in
      let '(st2, o2) := mark_final seq flags_ now st1 in
      if final_seen st2 && (final_seq st2 <? expected st2)
      then (st2, o2 ++ [MsgFinishing], Break)
      else (st2, o2, Continue).

Definition on_timeout (timeout now : Z) (st : state) : state * list message * ctl :=
  if final_seen st && (timeout <? elapsed_seconds now (final_at st))
  then (st, [MsgTimeout (expected st) (final_seq st) (Z.of_nat (size (buffer st)))],
        Break)
  else (st, [], Continue).

Definition step (timeout : Z) (st : state) (ev : event) : state * list message * ctl :=
  match ev with
  | EvDatagram now dgram => on_datagram now dgram st
  | EvTimeout now => on_timeout timeout now st
  | EvError => (st, [MsgRecvError], Break)
  end.

Fixpoint run_loop (timeout : Z) (evs : list event) (st : state)
  : state * list message * bool :=
  match evs with
  | [] => (st, [], false)
  | ev :: evs' =>
      let '(s1, o1, c) := step timeout st ev in
      match c with
      | Break => (s1, o1, true)
      | Continue =>
          let '(s2, o2, exited) := run_loop timeout evs' s1 in
          (s2, o1 ++ o2, exited)
      end
  end.

Definition shutdown (st : state) : state :=
  let st1 := drain (size (buffer st)) st in
  mkState (expected st1) (buffer st1) (final_seen st1) (final_seq st1)
    (final_at st1) (sink st1) true.

Definition run (timeout : Z) (evs : list event) : state * list message * bool :=
  let '(s, o, exited) := run_loop timeout evs init in
  if exited then (shutdown s, o, true) else (s, o, false).

End LegacyReceiver.

(** ** The input file stream of the senders

    [std::ifstream] as far as the senders use it: the bytes not yet read
    and the [eofbit] and [failbit] flags. *)

Module Istream.

Record t : Type := mk {
  rest : list byte;
  eof : bool;
  fail : bool
}.

Definition of_file (content : list byte) : t := mk content false false.

(** [f.read(buf, n)], with the bytes it extracted ([f.gcount()] is
    their number).  Reaching the end before [n] bytes sets both flags;
    a stream that is not good extracts nothing. *)
Definition read (n : nat) (f : t) : t * list byte :=
  if eof f || fail f then (mk (rest f) (eof f) true, [])
  else
    let chunk := take n (rest f) in
    let short := (length chunk <? n)%nat in
    (mk (drop n (rest f)) short short, chunk).

End Istream.

(** What a sender does, in order. *)
Inductive sent_message : Type :=
  | MsgSendtoError
  | MsgSentFinal (seq : Z)
  | MsgInterrupted (seq : Z).

Inductive effect : Type :=
  | Sendto (dgram : list byte)
  | Pace
  | Sleep (ms : Z)
  | Stderr (m : sent_message).

(** The datagrams handed to [sendto], in order. *)
Definition datagrams (tr : list effect) : list (list byte) :=
  omap (λ e, match e with Sendto d => Some d | _ => None end) tr.

(** ** The sender with stream ids (12-byte header) *)

Module Sender.

Definition HDR_LEN : nat := 12.

Definition header (sid seq flags_ : Z) : list byte :=
  store_be32 sid ++ store_be32 seq ++ store_be32 flags_.

(** The [for (int i = 0; i < 3; ++i)] after the loop. *)
Definition retransmit (marker : list byte) : list effect :=
  mjoin (replicate 3 [Sendto marker; Sleep 200]).

Section Run.

(** [-S] and [-r]. *)
Variable stream_id : Z.
Variable pps : Z.
(** The value of [g_interrupted] at its [i]-th read, and whether the
    [sendto] of the [i]-th iteration succeeds. *)
Variable interrupted : nat → bool.
Variable send_ok : nat → bool.

Definition pacing : list effect := if 0 <? pps then [Pace] else [].

(** The [while (!g_interrupted)] loop from its [i]-th iteration on:
    the number of reads of [g_interrupted] made, the value of [seq]
    and the effects.  [None] when the fuel runs out. *)
Fixpoint send_loop (fuel : nat) (i : nat) (infile : Istream.t) (seq : Z)
  : option (nat * Z * list effect) :=
  match fuel with
  | O => None
  | S fuel' =>
      if interrupted i then Some (S i, seq, [])
      else
        let '(infile1, chunk) := Istream.read PAYLOAD_SIZE infile in
        match chunk with
        | [] => Some (S i, seq, [])
        | _ :: _ =>
            let is_final :=
              (length chunk <? PAYLOAD_SIZE)%nat || Istream.eof infile1 in
            let dgram :=
              header stream_id seq (if is_final then FLAG_FINAL else 0)
                ++ chunk in
            if negb (send_ok i) then
              Some (S i, seq, pacing ++ [Sendto dgram; Stderr MsgSendtoError])
            else if is_final then
              Some (S i, u32_succ seq,
                    pacing ++ [Sendto dgram; Stderr (MsgSentFinal seq)])
            else
              '(k, seq', tr) ← send_loop fuel' (S i) infile1 (u32_succ seq);
              Some (k, seq', pacing ++ [Sendto dgram] ++ tr)
        end
  end.

(** What follows the loop: the marker of an interruption and the
    three retransmissions. *)
Definition epilogue (k : nat) (seq : Z) : list effect :=
  let marker := header stream_id seq FLAG_FINAL in
  (if interrupted k then [Sendto marker; Stderr (MsgInterrupted seq)] else [])
    ++ retransmit marker.

(** [main] from the loop on, for a file of content [src]. *)
Definition run (src : list byte) : option (list effect) :=
  '(k, seq, tr) ← send_loop (S (length src)) 0 (Istream.of_file src) 1;
  Some (tr ++ epilogue k seq).

End Run.

End Sender.

(** ** The single-stream sender (src/sender.cpp, 8-byte header) *)

Module LegacySender.

Definition HDR_LEN : nat := 8.

Definition header (seq flags_ : Z) : list byte :=
  store_be32 seq ++ store_be32 flags_.

Definition retransmit (marker : list byte) : list effect :=
  mjoin (replicate 3 [Sendto marker; Sleep 200]).

Section Run.

Variable pps : Z.
Variable interrupted : nat → bool.
Variable send_ok : nat → bool.

Definition pacing : list effect := if 0 <? pps then [Pace] else [].

(** The [while (!infile.eof() && !g_interrupted)] loop. *)
Fixpoint send_loop (fuel : nat) (i : nat) (infile : Istream.t) (seq : Z)
  : option (nat * Z * list effect) :=
  match fuel with
  | O => None
  | S fuel' =>
      if Istream.eof infile then Some (i, seq, [])
      else if interrupted i then Some (S i, seq, [])
      else
        let '(infile1, chunk) := Istream.read PAYLOAD_SIZE infile in
        let is_final := Istream.eof infile1 in
        let dgram :=
          header seq (if is_final then FLAG_FINAL else 0) ++ chunk in
        if negb (send_ok i) then
          Some (S i, seq, pacing ++ [Sendto dgram; Stderr MsgSendtoError])
        else if is_final then
          Some (S i, seq, pacing ++ [Sendto dgram; Stderr (MsgSentFinal seq)])
        else
          '(k, seq', tr) ← send_loop fuel' (S i) infile1 (u32_succ seq);
          Some (k, seq', pacing ++ [Sendto dgram] ++ tr)
  end.

Definition epilogue (k : nat) (seq : Z) : list effect :=
  let marker := header seq FLAG_FINAL in
  (if interrupted k then [Sendto marker; Stderr (MsgInterrupted seq)] else [])
    ++ retransmit marker.

Definition run (src : list byte) : option (list effect) :=
  '(k, seq, tr) ← send_loop (S (length src)) 0 (Istream.of_file src) 1;
  Some (tr ++ epilogue k seq).

End Run.

End LegacySender.

(** * Properties *)

(** ** The wire encoding *)

Section WireFacts.

Lemma byte_val_range (b : byte) : 0 ≤ byte_val b < 256.
Proof.
  unfold byte_val. pose proof (Byte.to_N_bounded b) as H.
  split; [apply N2Z.is_nonneg|]. apply N.le_lteq in H. lia.
Qed.

Lemma byte_val_of_Z (z : Z) : byte_val (byte_of_Z z) = z mod 256.
Proof.
  unfold byte_val, byte_of_Z.
  assert (Hr : 0 ≤ z mod 256 < 256) by (apply Z.mod_pos_bound; lia).
  destruct (Byte.of_N (Z.to_N (z mod 256))) as [b|] eqn:E.
  - apply Byte.to_of_N in E. rewrite E. rewrite Z2N.id; lia.
  - apply Byte.of_N_None_iff in E. lia.
Qed.

Lemma load_be32_range (buf : list byte) (off : nat) : is_u32 (load_be32 buf off).
Proof.
  unfold is_u32, load_be32, u32_modulus.
  pose proof (byte_val_range (nth off buf x00)).
  pose proof (byte_val_range (nth (off + 1) buf x00)).
  pose proof (byte_val_range (nth (off + 2) buf x00)).
  pose proof (byte_val_range (nth (off + 3) buf x00)).
  lia.
Qed.

Lemma be32_value (v : Z) :
  is_u32 v →
  (v / 2 ^ 24) mod 256 * 2 ^ 24 + (v / 2 ^ 16) mod 256 * 2 ^ 16
    + (v / 2 ^ 8) mod 256 * 2 ^ 8 + v mod 256 = v.
Proof.
  unfold is_u32, u32_modulus. intros Hv.
  change (2 ^ 24) with 16777216. change (2 ^ 16) with 65536.
  change (2 ^ 8) with 256. change (2 ^ 32) with 4294967296 in Hv.
  Z.div_mod_to_equations. lia.
Qed.

(** Reading back a word written by [store_be32], whatever follows. *)
Lemma load_store_be32 (v : Z) (tl : list byte) :
  is_u32 v → load_be32 (store_be32 v ++ tl) 0 = v.
Proof.
  intros Hv. unfold load_be32, store_be32. cbn [nth app Nat.add].
  rewrite !byte_val_of_Z. by apply be32_value.
Qed.

Lemma length_store_be32 (v : Z) : length (store_be32 v) = 4%nat.
Proof. reflexivity. Qed.

Lemma has_final_testbit (f : Z) : has_final f = Z.testbit f 0.
Proof.
  unfold has_final, FLAG_FINAL.
  change 1 with (Z.ones 1). rewrite Z.land_ones by lia.
  rewrite <- Z.bit0_mod. by destruct (Z.testbit f 0).
Qed.

End WireFacts.

(** ** Decoding a datagram *)

Module DecodeFacts.

Import Receiver.

Lemma load_be32_app (pre l : list byte) (off : nat) :
  load_be32 (pre ++ l) (length pre + off) = load_be32 l off.
Proof.
  unfold load_be32.
  rewrite <- !Nat.add_assoc, !app_nth2_plus. reflexivity.
Qed.

Lemma nth_take_lt (l : list byte) (n i : nat) :
  (i < n)%nat → nth i (take n l) x00 = nth i l x00.
Proof.
  revert n i. induction l as [|b l IH]; intros n i Hi.
  - by rewrite take_nil.
  - destruct n as [|n]; [lia|]. destruct i as [|i]; [done|].
    cbn. apply IH. lia.
Qed.

Lemma load_be32_take (l : list byte) (n off : nat) :
  (off + 3 < n)%nat → load_be32 (take n l) off = load_be32 l off.
Proof.
  intros H. unfold load_be32. rewrite !nth_take_lt by lia. reflexivity.
Qed.

Lemma length_recv (dgram : list byte) :
  length (recv dgram) = (length dgram `min` MAX_PKT)%nat.
Proof. unfold recv. rewrite length_take. lia. Qed.

(** The frame read from a datagram of at least twelve bytes: the three
    words of the header and, as payload, what the receive buffer holds
    behind them. *)
Lemma decode_recv_long (dgram : list byte) :
  (HDR_LEN ≤ length dgram)%nat →
  decode (recv dgram)
  = Some (mkFrame (load_be32 dgram 0) (load_be32 dgram 4) (load_be32 dgram 8)
            (take PAYLOAD_SIZE (drop HDR_LEN dgram))).
Proof.
  intros Hlen. unfold decode.
  assert (Hmin : (length (recv dgram) <? HDR_LEN)%nat = false).
  { apply Nat.ltb_ge. rewrite length_recv. unfold MAX_PKT, HDR_LEN in *. lia. }
  rewrite Hmin. unfold recv.
  rewrite !load_be32_take by (unfold MAX_PKT, HDR_LEN, PAYLOAD_SIZE; lia).
  do 2 f_equal. unfold MAX_PKT. symmetry. apply take_drop_commute.
Qed.

Lemma decode_recv_short (dgram : list byte) :
  (length dgram < HDR_LEN)%nat → decode (recv dgram) = None.
Proof.
  intros Hlen. unfold decode.
  assert (Hmin : (length (recv dgram) <? HDR_LEN)%nat = true).
  { apply Nat.ltb_lt. rewrite length_recv. lia. }
  by rewrite Hmin.
Qed.

(** A frame built by the sender, with a payload that fits, is read back
    as it was written. *)
Lemma decode_header (sid seq fl : Z) (bs : list byte) :
  is_u32 sid → is_u32 seq → is_u32 fl → (length bs ≤ PAYLOAD_SIZE)%nat →
  decode (recv (Sender.header sid seq fl ++ bs)) = Some (mkFrame sid seq fl bs).
Proof.
  intros Hsid Hseq Hfl Hlen.
  rewrite decode_recv_long
    by (rewrite length_app; unfold Sender.header, HDR_LEN;
        rewrite !length_app, !length_store_be32; lia).
  unfold Sender.header. rewrite <- !app_assoc.
  f_equal. f_equal.
  - by apply load_store_be32.
  - change 4%nat with (length (store_be32 sid) + 0)%nat.
    rewrite load_be32_app. by apply load_store_be32.
  - change 8%nat with (length (store_be32 sid) + (length (store_be32 seq) + 0))%nat.
    rewrite !load_be32_app. by apply load_store_be32.
  - rewrite !app_assoc.
    rewrite drop_app_length'
      by (rewrite !length_app, !length_store_be32; reflexivity).
    by apply take_ge.
Qed.

End DecodeFacts.

(** ** The header codec of the receiver *)

Module CodecProofs.

Import Receiver DecodeFacts.

(** C9, as the code has it.  Decoding fails exactly on the datagrams
    shorter than the 12-byte header, and those leave the state of the
    loop untouched.  Every longer datagram decodes: the stream id, the
    sequence number and the flags are the big-endian words at offsets
    0, 4 and 8, and the payload is what follows the header within the
    receive buffer of [MAX_PKT] = 1212 bytes, that is the first
    [PAYLOAD_SIZE] bytes behind the header; a datagram that fits the
    buffer keeps all its remaining bytes. *)
Theorem decode_recv_spec (dgram : list byte) :
  (decode (recv dgram) = None ↔ (length dgram < HDR_LEN)%nat)
  ∧ (∀ cfg can_open now streams,
       (length dgram < HDR_LEN)%nat →
       on_datagram cfg can_open now dgram streams = (streams, [], Continue))
  ∧ ((HDR_LEN ≤ length dgram)%nat →
     decode (recv dgram)
     = Some (mkFrame (load_be32 dgram 0) (load_be32 dgram 4) (load_be32 dgram 8)
               (take PAYLOAD_SIZE (drop HDR_LEN dgram))))
  ∧ ((HDR_LEN ≤ length dgram ≤ MAX_PKT)%nat →
     payload <$> decode (recv dgram) = Some (drop HDR_LEN dgram)).
Proof.
  repeat split.
  - intros Hnone. destruct (Nat.lt_ge_cases (length dgram) HDR_LEN) as [|Hge]; [done|].
    rewrite decode_recv_long in Hnone by done. discriminate.
  - apply decode_recv_short.
  - intros cfg can_open now streams Hlt. unfold on_datagram.
    by rewrite decode_recv_short.
  - apply decode_recv_long.
  - intros [Hlo Hhi]. rewrite decode_recv_long by done.
    change (Some (take PAYLOAD_SIZE (drop HDR_LEN dgram))
            = Some (drop HDR_LEN dgram)).
    f_equal. apply take_ge. rewrite length_drop.
    unfold MAX_PKT in Hhi. lia.
Qed.

Lemma decode_recv_spec_witness :
  (HDR_LEN ≤ length (Sender.header 42 1 1 ++ [x07]) ≤ MAX_PKT)%nat
  ∧ payload <$> decode (recv (Sender.header 42 1 1 ++ [x07]))
    = Some (drop HDR_LEN (Sender.header 42 1 1 ++ [x07])).
Proof.
  assert (H : (HDR_LEN ≤ length (Sender.header 42 1 1 ++ [x07]) ≤ MAX_PKT)%nat)
    by (vm_compute; split; [by apply Nat.leb_le | by apply Nat.leb_le]).
  split; [exact H|].
  exact (proj2 (proj2 (proj2 (decode_recv_spec (Sender.header 42 1 1 ++ [x07])))) H).
Defined.

(** C9 as stated fails on a datagram of 1213 bytes: it decodes, but its
    payload is not all the bytes behind the header. *)
Lemma oversized_datagram_is_cut :
  (HDR_LEN ≤ length (replicate 1213 x00))%nat
  ∧ payload <$> decode (recv (replicate 1213 x00))
    ≠ Some (drop HDR_LEN (replicate 1213 x00)).
Proof.
  split.
  - rewrite length_replicate. unfold HDR_LEN. lia.
  - intros H. apply (f_equal (fmap (M := option) length)) in H.
    vm_compute in H. discriminate.
Qed.

(** The loop body reads the flags of a frame through [has_final] only. *)
Lemma on_frame_flags cfg can_open now (fr1 fr2 : frame) streams :
  stream_id fr1 = stream_id fr2 →
  sequence fr1 = sequence fr2 →
  payload fr1 = payload fr2 →
  has_final (flags fr1) = has_final (flags fr2) →
  on_frame cfg can_open now fr1 streams = on_frame cfg can_open now fr2 streams.
Proof.
  intros Hsid Hseq Hpl Hfl. unfold on_frame, ingest, mark_final.
  by rewrite Hsid, Hseq, Hpl, Hfl.
Qed.

Lemma load_be32_prefix (pre tl : list byte) (off : nat) :
  (off + 3 < length pre)%nat → load_be32 (pre ++ tl) off = load_be32 pre off.
Proof.
  intros H. unfold load_be32. rewrite !app_nth1 by lia. reflexivity.
Qed.

(** C10.  Two datagrams that differ in the flags word only, and there
    in bits 1 to 31 only, are processed alike: the same stream states,
    the same output and the same decision to stay in the loop. *)
Theorem reserved_flag_bits_ignored cfg can_open now streams
    (pre fw1 fw2 body : list byte) :
  length pre = 8%nat → length fw1 = 4%nat → length fw2 = 4%nat →
  Z.testbit (load_be32 fw1 0) 0 = Z.testbit (load_be32 fw2 0) 0 →
  on_datagram cfg can_open now (pre ++ fw1 ++ body) streams
  = on_datagram cfg can_open now (pre ++ fw2 ++ body) streams.
Proof.
  intros Hpre Hfw1 Hfw2 Hbit. unfold on_datagram.
  rewrite !decode_recv_long
    by (rewrite !length_app; unfold HDR_LEN; lia).
  apply on_frame_flags; cbn.
  - by rewrite !load_be32_prefix by lia.
  - by rewrite !load_be32_prefix by lia.
  - rewrite !(app_assoc pre).
    by rewrite !drop_app_length' by (rewrite length_app; unfold HDR_LEN; lia).
  - rewrite !has_final_testbit.
    change 8%nat with (8 + 0)%nat. rewrite <- Hpre.
    rewrite !load_be32_app, !load_be32_prefix by lia. done.
Qed.

Lemma reserved_flag_bits_ignored_witness :
  Z.testbit (load_be32 (store_be32 1) 0) 0
  = Z.testbit (load_be32 (store_be32 4294967295) 0) 0
  ∧ on_datagram (mkConfig true ∅ "s_{id}" 10) (λ _, true) 0
      ((store_be32 42 ++ store_be32 1) ++ store_be32 1 ++ [x07]) ∅
    = on_datagram (mkConfig true ∅ "s_{id}" 10) (λ _, true) 0
        ((store_be32 42 ++ store_be32 1) ++ store_be32 4294967295 ++ [x07]) ∅.
Proof.
  split; [reflexivity|].
  apply reserved_flag_bits_ignored; reflexivity.
Defined.

End CodecProofs.

(** ** Invariants of the receive loop *)

Module ReceiverInv.

Import Receiver.

Lemma u32_succ_range (z : Z) : is_u32 (u32_succ z).
Proof. unfold is_u32, u32_succ, u32_modulus. apply Z.mod_pos_bound. lia. Qed.

Lemma u32_succ_small (z : Z) : is_u32 z → z < u32_max → u32_succ z = z + 1.
Proof.
  unfold is_u32, u32_succ, u32_max, u32_modulus. intros H1 H2.
  apply Z.mod_small. lia.
Qed.

Lemma u32_succ_max : u32_succ u32_max = 0.
Proof. reflexivity. Qed.

Lemma set_fout_same (st : StreamState) : set_fout (fout st) st = st.
Proof. by destruct st. Qed.

Lemma set_has_file_same (st : StreamState) : set_has_file (has_file st) st = st.
Proof. by destruct st. Qed.

(** Reduce the projections of an updated stream state, and nothing else. *)
Ltac fields :=
  cbn [expected buffer final_seen final_seq final_at fout has_file
       set_expected set_buffer set_final_seen set_final set_fout set_has_file].
Tactic Notation "fields" "in" hyp(H) :=
  cbn [expected buffer final_seen final_seq final_at fout has_file
       set_expected set_buffer set_final_seen set_final set_fout set_has_file] in H.

Section Inv.

Variable cfg : config.
Variable can_open : string → bool.

(** A write of the loop body changes the file stream only, and only
    of a stream that has a file. *)
Lemma emit_nonempty_shape ts bs st :
  ∃ f, (emit_nonempty ts bs st).1 = set_fout f st
       ∧ (has_file st = false → f = fout st).
Proof.
  unfold emit_nonempty, emit. destruct bs as [|b bs].
  { exists (fout st). by rewrite set_fout_same. }
  destruct (ts && negb (has_file st)).
  { exists (fout st). by rewrite set_fout_same. }
  destruct (has_file st) eqn:Hf.
  - eexists. split; [reflexivity | done].
  - exists (fout st). by rewrite set_fout_same.
Qed.

(** All keys of the buffer are [uint32_t] values from [lo] on;
    [keys_above] takes [lo] just above [expected]. *)
Definition keys_from (lo : Z) (st : StreamState) : Prop :=
  ∀ k, is_Some (buffer st !! k) → lo ≤ k < u32_modulus.

Definition keys_above (st : StreamState) : Prop :=
  is_u32 (expected st) ∧ keys_from (expected st + 1) st.

Lemma drain_keys fuel ts st :
  (size (buffer st) ≤ fuel)%nat →
  is_u32 (expected st) → keys_from (expected st) st →
  keys_above (drain fuel ts st).1.
Proof.
  revert st. induction fuel as [|fuel IH]; intros st Hsz He Hk.
  - cbn. split; [done|]. intros k [bs Hbs].
    assert (buffer st = ∅) as Hemp by (apply map_size_empty_inv; lia).
    rewrite Hemp, lookup_empty in Hbs. discriminate.
  - cbn [drain]. destruct (buffer st !! expected st) as [bs|] eqn:Hlk.
    + destruct (emit_nonempty_shape ts bs st) as (f & Hshape & _).
      destruct (emit_nonempty ts bs st) as [st1 o1]. cbn in Hshape. subst st1.
      cbn [expected buffer set_fout set_buffer set_expected].
      match goal with
      | |- context [drain fuel ts ?s] =>
          specialize (IH s); destruct (drain fuel ts s) as [st3 o3]
      end.
      cbn in IH |- *. apply IH.
      * rewrite map_size_delete, Hlk. lia.
      * apply u32_succ_range.
      * intros k Hsome. cbn in Hsome.
        destruct (decide (k = expected st)) as [->|Hne].
        { rewrite lookup_delete_eq in Hsome. by destruct Hsome. }
        rewrite lookup_delete_ne in Hsome by done.
        specialize (Hk k Hsome).
        destruct (decide (expected st < u32_max)) as [Hlt|Hge].
        { rewrite u32_succ_small by done. lia. }
        unfold u32_max in Hge. lia.
    + cbn. split; [done|]. intros k Hsome.
      specialize (Hk k Hsome).
      destruct (decide (k = expected st)) as [->|Hne]; [|lia].
      rewrite Hlk in Hsome. by destruct Hsome.
Qed.

(** The flush leaves the final marker, the clock and [has_file]
    alone. *)
Lemma drain_fields fuel ts st :
  let st' := (drain fuel ts st).1 in
  final_seen st' = final_seen st ∧ final_seq st' = final_seq st
  ∧ final_at st' = final_at st ∧ has_file st' = has_file st
  ∧ (has_file st = false → fout st' = fout st).
Proof.
  revert st. induction fuel as [|fuel IH]; intros st; [done|].
  cbn [drain]. destruct (buffer st !! expected st) as [bs|] eqn:Hlk; [|done].
  destruct (emit_nonempty_shape ts bs st) as (f & Hshape & Hf).
  destruct (emit_nonempty ts bs st) as [st1 o1]. cbn in Hshape. subst st1.
  match goal with
  | |- context [drain fuel ts ?s] =>
      specialize (IH s); destruct (drain fuel ts s) as [st3 o3]
  end.
  cbn in IH |- *. destruct IH as (H1 & H2 & H3 & H4 & H5).
  repeat split; try done.
  intros Hnf. rewrite H5 by done. by apply Hf.
Qed.

(** The size of the buffer is fuel enough: the flush stops because no
    entry is left at [expected], in the loop and after it. *)
Lemma drain_exits fuel ts st :
  (size (buffer st) ≤ fuel)%nat →
  buffer (drain fuel ts st).1 !! expected (drain fuel ts st).1 = None.
Proof.
  revert st. induction fuel as [|fuel IH]; intros st Hsz.
  - cbn. assert (buffer st = ∅) as -> by (apply map_size_empty_inv; lia).
    apply lookup_empty.
  - cbn [drain]. destruct (buffer st !! expected st) as [bs|] eqn:Hlk; [|done].
    destruct (emit_nonempty_shape ts bs st) as (f & Hshape & _).
    destruct (emit_nonempty ts bs st) as [st1 o1]. cbn [fst] in Hshape. subst st1.
    fields.
    match goal with
    | |- context [drain fuel ts ?s] =>
        specialize (IH s); destruct (drain fuel ts s) as [st3 o3]
    end.
    cbn [fst] in IH |- *. apply IH. fields.
    rewrite map_size_delete, Hlk. lia.
Qed.

Lemma flush_rest_exits fuel st :
  (size (buffer st) ≤ fuel)%nat →
  buffer (flush_rest fuel st) !! expected (flush_rest fuel st) = None.
Proof.
  revert st. induction fuel as [|fuel IH]; intros st Hsz.
  - cbn. assert (buffer st = ∅) as -> by (apply map_size_empty_inv; lia).
    apply lookup_empty.
  - cbn [flush_rest]. destruct (buffer st !! expected st) as [bs|] eqn:Hlk; [|done].
    apply IH. destruct (has_file st); fields; rewrite map_size_delete, Hlk; lia.
Qed.

Lemma reassemble_fields ts seq bs st :
  let st' := (reassemble ts seq bs st).1 in
  final_seen st' = final_seen st ∧ final_seq st' = final_seq st
  ∧ final_at st' = final_at st ∧ has_file st' = has_file st
  ∧ (has_file st = false → fout st' = fout st).
Proof.
  unfold reassemble. destruct (seq =? expected st).
  - destruct (emit_nonempty_shape ts bs st) as (f & Hshape & Hf).
    destruct (emit_nonempty ts bs st) as [st1 o1]. cbn in Hshape. subst st1.
    match goal with
    | |- context [drain ?n ts ?s] =>
        pose proof (drain_fields n ts s) as Hd;
        destruct (drain n ts s) as [st3 o3]
    end.
    cbn in Hd |- *. destruct Hd as (H1 & H2 & H3 & H4 & H5).
    repeat split; try done.
    intros Hnf. rewrite H5 by done. by apply Hf.
  - by destruct (buffer st !! seq).
Qed.

Lemma reassemble_keys ts seq bs st :
  keys_above st → is_u32 seq → expected st ≤ seq →
  keys_above (reassemble ts seq bs st).1.
Proof.
  intros [He Hk] Hseq Hle. unfold reassemble.
  destruct (seq =? expected st) eqn:Heq.
  - destruct (emit_nonempty_shape ts bs st) as (f & Hshape & _).
    destruct (emit_nonempty ts bs st) as [st1 o1]. cbn in Hshape. subst st1.
    match goal with
    | |- context [drain ?n ts ?s] =>
        pose proof (drain_keys n ts s) as Hd;
        destruct (drain n ts s) as [st3 o3]
    end.
    cbn in Hd |- *. apply Hd; [done | apply u32_succ_range |].
    intros k Hsome. cbn in Hsome. specialize (Hk k Hsome).
    destruct (decide (expected st < u32_max)) as [Hlt|Hge].
    + rewrite u32_succ_small by done. lia.
    + unfold u32_max in Hge. lia.
  - apply Z.eqb_neq in Heq.
    destruct (buffer st !! seq) eqn:Hlk; [done|].
    split; [done|]. intros k Hsome. cbn in Hsome |- *.
    destruct (decide (k = seq)) as [->|Hne].
    + unfold is_u32 in Hseq. lia.
    + rewrite lookup_insert_ne in Hsome by done. by apply Hk.
Qed.

(** The file of a stream is open, or stdout is the sink, or the file
    could not be opened and cannot be. *)
Definition sink_settled (sid : Z) (st : StreamState) : Prop :=
  has_file st = true
  ∨ (single_to_stdout cfg = true ∧ has_file st = false)
  ∨ (can_open (file_name (out_pattern cfg) sid) = false
     ∧ has_file st = false
     ∧ Ofstream.is_open (fout st) = false
     ∧ Ofstream.failed (fout st) = true).

(** The file of a finished stream has been closed. *)
Definition closed_when_done (st : StreamState) : Prop :=
  stream_done st = true → has_file st && Ofstream.is_open (fout st) = false.

Definition stream_ok (sid : Z) (st : StreamState) : Prop :=
  keys_above st ∧ sink_settled sid st ∧ closed_when_done st.

Lemma sink_settled_keep sid st st' :
  sink_settled sid st →
  has_file st' = has_file st →
  (has_file st = false → fout st' = fout st) →
  sink_settled sid st'.
Proof.
  intros [H|[[H1 H2]|(H1 & H2 & H3 & H4)]] Hf Hfo.
  - left. congruence.
  - right; left. split; congruence.
  - right; right. rewrite Hf, Hfo by done. done.
Qed.

Lemma close_file_done st : closed_when_done (close_file st).
Proof.
  intros _. unfold close_file.
  destruct (has_file st && Ofstream.is_open (fout st)) eqn:E; [|done].
  cbn. unfold Ofstream.close.
  apply andb_true_iff in E as [-> E]. by rewrite E.
Qed.

Lemma open_sink_settled sid st :
  sink_settled sid st → open_sink cfg can_open sid st = (st, (open_sink cfg can_open sid st).2).
Proof.
  unfold open_sink.
  intros [H|[[H1 H2]|(H1 & H2 & H3 & H4)]].
  - by rewrite H.
  - rewrite H2, H1. cbn. by rewrite <- H2, set_has_file_same.
  - rewrite H2. destruct (single_to_stdout cfg).
    { cbn. by rewrite <- H2, set_has_file_same. }
    rewrite H1. unfold Ofstream.open. rewrite H3. cbn.
    f_equal. destruct st as [e b fs fq fa [op fl wr] hf].
    cbn in *. by subst.
Qed.

Lemma open_sink_new sid :
  stream_ok sid (open_sink cfg can_open sid new_stream).1
  ∧ stream_done (open_sink cfg can_open sid new_stream).1 = false.
Proof.
  assert (Hk : ∀ st, expected st = 1 → buffer st = ∅ → keys_above st).
  { intros st He Hb. split; [by rewrite He|].
    intros k [x Hx]. rewrite Hb, lookup_empty in Hx. discriminate. }
  unfold open_sink. cbn.
  destruct (single_to_stdout cfg) eqn:Hs; cbn.
  { split; [|done]. split; [by apply Hk|]. split; [|done]. right; left. done. }
  destruct (can_open (file_name (out_pattern cfg) sid)) eqn:Ho; cbn.
  - split; [|done]. split; [by apply Hk|]. split; [by left | done].
  - split; [|done]. split; [by apply Hk|]. split; [|done].
    right; right. done.
Qed.

Lemma ingest_ok ts sid seq fl now bs st :
  stream_ok sid st → is_u32 seq →
  let '(st', o, fin) := ingest ts sid seq fl now bs st in
  stream_ok sid st' ∧ (fin = false → st' = st ∨ stream_done st' = false).
Proof.
  intros (Hk & Hs & Hc) Hseq. unfold ingest.
  destruct (seq <? expected st) eqn:Hlt; [split; [exact (conj Hk (conj Hs Hc)) | by left]|].
  apply Z.ltb_ge in Hlt.
  pose proof (reassemble_fields ts seq bs st) as Hf.
  pose proof (reassemble_keys ts seq bs st Hk Hseq Hlt) as Hk1.
  destruct (reassemble ts seq bs st) as [st1 o1].
  cbn in Hf, Hk1. destruct Hf as (F1 & F2 & F3 & F4 & F5).
  assert (Hs1 : sink_settled sid st1) by by eapply sink_settled_keep.
  assert (∃ st2 o2, mark_final sid seq fl now st1 = (st2, o2)
            ∧ keys_above st2 ∧ sink_settled sid st2) as (st2 & o2 & -> & Hk2 & Hs2).
  { unfold mark_final. destruct (has_final fl); eexists _, _; (split; [done|]).
    - split; [done|]. by eapply sink_settled_keep.
    - done. }
  destruct (stream_done st2) eqn:Hd.
  - split; [|done]. split; [|split].
    + unfold close_file. by destruct (_ && _).
    + eapply sink_settled_keep; [exact Hs2 | |].
      * unfold close_file. by destruct (_ && _).
      * intros Hnf. unfold close_file. by rewrite Hnf.
    + apply close_file_done.
  - split; [|by right]. split; [done|]. split; [done|].
    intros Hd'. congruence.
Qed.

(** Every stream of the map is in order and subscribed. *)
Definition streams_ok (s : gmap Z StreamState) : Prop :=
  ∀ sid st, s !! sid = Some st → stream_ok sid st ∧ subscribed cfg sid = true.

(** While the loop runs, the test [all_done] fails (or cannot break
    the loop). *)
Definition still_waiting (s : gmap Z StreamState) : Prop :=
  subscribe_all cfg = true ∨ all_done cfg s = false ∨ subs cfg = ∅.

Lemma subscribed_elem sid :
  subscribe_all cfg = false → subscribed cfg sid = true → sid ∈ subs cfg.
Proof.
  unfold subscribed. intros -> H. cbn in H. by apply bool_decide_eq_true in H.
Qed.

Lemma all_done_false (s : gmap Z StreamState) sid st :
  sid ∈ subs cfg → s !! sid = Some st → stream_done st = false →
  all_done cfg s = false.
Proof.
  intros Hin Hlk Hd. unfold all_done.
  destruct (forallb _ _) eqn:E; [|done].
  rewrite forallb_forall in E. specialize (E sid).
  rewrite Hlk, Hd in E. symmetry. apply E.
  apply list_elem_of_In, elem_of_elements, Hin.
Qed.

Lemma streams_ok_empty : streams_ok ∅.
Proof. intros sid st H. by rewrite lookup_empty in H. Qed.

Lemma still_waiting_empty : still_waiting ∅.
Proof.
  unfold still_waiting, all_done.
  destruct (elements (subs cfg)) as [|x l] eqn:E.
  - right; right. by apply elements_empty_inv in E; apply leibniz_equiv in E.
  - right; left. cbn. by rewrite lookup_empty.
Qed.

Lemma streams_ok_insert (s : gmap Z StreamState) sid st :
  streams_ok s → stream_ok sid st → subscribed cfg sid = true →
  streams_ok (<[sid := st]> s).
Proof.
  intros Hs Hst Hsub sid' st' Hlk.
  destruct (decide (sid = sid')) as [<-|Hne].
  - rewrite lookup_insert_eq in Hlk. by inversion Hlk; subst.
  - rewrite lookup_insert_ne in Hlk by done. by apply Hs.
Qed.

(** Routing a frame to its stream: the stream state that is looked up
    or created, with its sink opened. *)
Lemma open_sink_stream_at (s : gmap Z StreamState) sid :
  streams_ok s →
  let st1 := (open_sink cfg can_open sid (stream_at s sid)).1 in
  stream_ok sid st1
  ∧ (match s !! sid with
     | Some st => st1 = st
     | None => stream_done st1 = false
     end).
Proof.
  intros Hs. unfold stream_at.
  destruct (s !! sid) as [st|] eqn:Hlk; cbn.
  - destruct (Hs sid st Hlk) as [Hok _].
    rewrite open_sink_settled by apply Hok. done.
  - apply open_sink_new.
Qed.

Lemma on_frame_ok now fr (s : gmap Z StreamState) :
  streams_ok s → still_waiting s → is_u32 (sequence fr) →
  let '(s', o, c) := on_frame cfg can_open now fr s in
  streams_ok s' ∧ (c = Continue → still_waiting s').
Proof.
  intros Hs Hw Hseq. unfold on_frame.
  destruct (subscribed cfg (stream_id fr)) eqn:Hsub; cbn [negb]; [|done].
  pose proof (open_sink_stream_at s (stream_id fr) Hs) as [Hok1 Hcase].
  destruct (open_sink cfg can_open (stream_id fr) (stream_at s (stream_id fr)))
    as [st1 o1]. cbn in Hok1, Hcase.
  match goal with
  | |- context [ingest ?ts ?a ?b ?c ?d ?e ?f] =>
      pose proof (ingest_ok ts a b c d e f Hok1 Hseq) as Hin;
      destruct (ingest ts a b c d e f) as [[st2 o2] fin]
  end.
  destruct Hin as [Hok2 Hfin].
  split; [by apply streams_ok_insert|].
  destruct (subscribe_all cfg) eqn:Hall; [by left|]. intros Hc.
  pose proof (subscribed_elem _ Hall Hsub) as Hmem.
  destruct fin.
  - cbn in Hc. right; left. by destruct (all_done cfg _).
  - destruct (Hfin eq_refl) as [->|Hnd].
    + destruct (s !! stream_id fr) as [st|] eqn:Hlk.
      * subst st1. by rewrite insert_id.
      * right; left. eapply all_done_false; [done | apply lookup_insert_eq | done].
    + right; left. eapply all_done_false; [done | apply lookup_insert_eq | done].
Qed.

Lemma decode_u32 rx fr : decode rx = Some fr → is_u32 (sequence fr).
Proof.
  unfold decode. destruct (_ <? _)%nat; [done|].
  intros [= <-]. apply load_be32_range.
Qed.

Lemma expire_ok now sid st : stream_ok sid st → stream_ok sid (expire cfg now st).
Proof.
  intros (Hk & Hs & Hc). unfold expire. destruct (timed_out cfg now st); [|done].
  split; [done|]. split; [done|]. intros Hd. discriminate.
Qed.

Lemma on_timeout_ok now (s : gmap Z StreamState) :
  streams_ok s →
  let '(s', o, c) := on_timeout cfg now s in
  streams_ok s' ∧ (c = Continue → still_waiting s').
Proof.
  intros Hs. unfold on_timeout. split.
  - intros sid st Hlk. rewrite lookup_fmap in Hlk.
    destruct (s !! sid) as [st0|] eqn:Hlk0; [|done].
    cbn in Hlk. inversion Hlk; subst.
    destruct (Hs sid st0 Hlk0). split; [by apply expire_ok | done].
  - unfold still_waiting.
    destruct (subscribe_all cfg); [by left|]. cbn.
    destruct (all_done cfg _); [done|]. by right; left.
Qed.

Lemma step_ok (s : gmap Z StreamState) ev :
  streams_ok s → still_waiting s →
  let '(s', o, c) := step cfg can_open s ev in
  streams_ok s' ∧ (c = Continue → still_waiting s').
Proof.
  intros Hs Hw. destruct ev as [now dgram|now|]; cbn [step].
  - unfold on_datagram. destruct (decode (recv dgram)) as [fr|] eqn:Hd; [|done].
    apply on_frame_ok; [done..|]. by eapply decode_u32.
  - by apply on_timeout_ok.
  - done.
Qed.

(** What holds of every state that the loop reaches. *)
Lemma run_loop_ok evs (s : gmap Z StreamState) :
  streams_ok s → still_waiting s →
  let '(s', o, exited) := run_loop cfg can_open evs s in
  streams_ok s' ∧ (exited = false → still_waiting s').
Proof.
  revert s. induction evs as [|ev evs IH]; intros s Hs Hw; [done|].
  cbn [run_loop]. pose proof (step_ok s ev Hs Hw) as Hstep.
  destruct (step cfg can_open s ev) as [[s1 o1] c].
  destruct Hstep as [Hs1 Hw1]. destruct c.
  - specialize (IH s1 Hs1 (Hw1 eq_refl)).
    by destruct (run_loop cfg can_open evs s1) as [[s2 o2] ex].
  - done.
Qed.

End Inv.

End ReceiverInv.

(** ** Stale frames, loop exit and the finalization timeout *)

Module ReceiverProofs.

Import Receiver ReceiverInv.

Lemma run_loop_app cfg can_open l1 l2 (s : gmap Z StreamState) :
  run_loop cfg can_open (l1 ++ l2) s
  = let '(s1, o1, exited) := run_loop cfg can_open l1 s in
    if exited then (s1, o1, true)
    else let '(s2, o2, exited2) := run_loop cfg can_open l2 s1 in
         (s2, o1 ++ o2, exited2).
Proof.
  revert s. induction l1 as [|ev l1 IH]; intros s.
  - cbn. by destruct (run_loop cfg can_open l2 s) as [[s2 o2] e2].
  - cbn [app run_loop]. destruct (step cfg can_open s ev) as [[s1 o1] c].
    destruct c; [|done]. rewrite IH.
    destruct (run_loop cfg can_open l1 s1) as [[s2 o2] e2].
    destruct e2; [done|].
    destruct (run_loop cfg can_open l2 s2) as [[s3 o3] e3].
    by rewrite app_assoc.
Qed.

Lemma stream_at_some (s : gmap Z StreamState) sid st :
  s !! sid = Some st → stream_at s sid = st.
Proof. unfold stream_at. by intros ->. Qed.

Lemma stream_at_none (s : gmap Z StreamState) sid :
  s !! sid = None → stream_at s sid = new_stream.
Proof. unfold stream_at. by intros ->. Qed.

Lemma stdout_bytes_app o1 o2 :
  stdout_bytes (o1 ++ o2) = stdout_bytes o1 ++ stdout_bytes o2.
Proof. unfold stdout_bytes. by rewrite omap_app, concat_app. Qed.

Lemma open_sink_silent cfg can_open sid st :
  stdout_bytes (open_sink cfg can_open sid st).2 = [].
Proof.
  unfold open_sink.
  destruct (has_file st); [done|].
  destruct (single_to_stdout cfg); [done|].
  by destruct (Ofstream.failed _).
Qed.

(** The states that the loop reaches from the start of [main]. *)
Lemma reachable_ok cfg can_open evs (s : gmap Z StreamState) o :
  run_loop cfg can_open evs ∅ = (s, o, false) →
  streams_ok cfg can_open s ∧ still_waiting cfg s.
Proof.
  intros Hrun.
  pose proof (run_loop_ok cfg can_open evs ∅
                (streams_ok_empty cfg can_open) (still_waiting_empty cfg)) as H.
  rewrite Hrun in H. destruct H as [H1 H2]. auto.
Qed.

(** C8.  Ingesting a frame whose sequence number is below [expected]
    changes nothing: the stream state is returned as it is (buffer,
    [expected], final marker, file stream), nothing is written, and the
    tests that follow are skipped.  For a stream that the loop already
    holds, the whole iteration leaves all stream states as they are,
    writes no byte and stays in the loop. *)
Theorem stale_frame_dropped cfg can_open :
  (∀ to_stdout sid seq fl now bs st,
     seq < expected st →
     ingest to_stdout sid seq fl now bs st = (st, [], false))
  ∧ (∀ evs s o now dgram fr st,
       run_loop cfg can_open evs ∅ = (s, o, false) →
       decode (recv dgram) = Some fr →
       s !! stream_id fr = Some st →
       sequence fr < expected st →
       ∃ o', on_datagram cfg can_open now dgram s = (s, o', Continue)
             ∧ stdout_bytes o' = []).
Proof.
  split.
  - intros ts sid seq fl now bs st Hlt. unfold ingest.
    apply Z.ltb_lt in Hlt. by rewrite Hlt.
  - intros evs s o now dgram fr st Hrun Hdec Hlk Hlt.
    destruct (reachable_ok _ _ _ _ _ Hrun) as [Hs _].
    destruct (Hs _ _ Hlk) as [(_ & Hsettled & _) Hsub].
    unfold on_datagram, on_frame. rewrite Hdec, Hsub. cbn [negb].
    rewrite (stream_at_some _ _ _ Hlk).
    pose proof (open_sink_silent cfg can_open (stream_id fr) st) as Hsil.
    pose proof (open_sink_settled cfg can_open _ _ Hsettled) as Hos.
    destruct (open_sink cfg can_open (stream_id fr) st) as [st1 o1].
    cbn [fst snd] in Hsil, Hos. injection Hos as ->.
    unfold ingest. apply Z.ltb_lt in Hlt. rewrite Hlt.
    rewrite insert_id by done. cbn [andb].
    eexists. split; [reflexivity|]. by rewrite app_nil_r.
Qed.

(** A receiver subscribed to stream 42 that writes to [out_42.bin], and
    the frames of the examples. *)
Definition cfg_one : config := mkConfig false {[42]} "out_{id}.bin" 10.
Definition any_path : string → bool := λ _, true.
Definition data (sid seq : Z) (bs : list byte) : event :=
  EvDatagram 0 (Sender.header sid seq 0 ++ bs).
Definition final (sid seq : Z) (bs : list byte) : event :=
  EvDatagram 0 (Sender.header sid seq FLAG_FINAL ++ bs).

Lemma stale_frame_dropped_witness :
  let s := (run_loop cfg_one any_path [data 42 1 [x01]] ∅).1.1 in
  ∃ o', on_datagram cfg_one any_path 5 (Sender.header 42 1 0 ++ [x09]) s
        = (s, o', Continue)
        ∧ stdout_bytes o' = [].
Proof.
  intros s.
  eapply (proj2 (stale_frame_dropped cfg_one any_path)
            [data 42 1 [x01]] s _ 5 (Sender.header 42 1 0 ++ [x09])).
  - vm_compute. reflexivity.
  - vm_compute. reflexivity.
  - vm_compute. reflexivity.
  - vm_compute. reflexivity.
Defined.

(** *** Leaving the loop *)

Lemma flush_rest_none fuel st :
  buffer st !! expected st = None → flush_rest fuel st = st.
Proof. intros H. destruct fuel; cbn; [done|]. by rewrite H. Qed.

Lemma keys_above_none st : keys_above st → buffer st !! expected st = None.
Proof.
  intros [_ Hk]. destruct (buffer st !! expected st) eqn:E; [|done].
  specialize (Hk (expected st)). rewrite E in Hk.
  specialize (Hk (ex_intro _ _ eq_refl)). lia.
Qed.

(** C6, as the code has it.  When the loop is left, whatever the
    reason, no stream holds a buffered entry at [expected]: the flush
    inside the loop has written them all.  The flush after the loop
    therefore writes nothing; the final state is the state at the exit
    with the file of each stream closed, the buffered entries that
    remain stay unwritten in the buffer, and nothing is printed after
    the loop. *)
Theorem loop_exit_flush cfg can_open evs (s : gmap Z StreamState) o :
  run_loop cfg can_open evs ∅ = (s, o, true) →
  run cfg can_open evs = (close_file <$> s, o, true)
  ∧ ∀ sid st, s !! sid = Some st →
      buffer st !! expected st = None
      ∧ buffer (close_file st) = buffer st
      ∧ expected (close_file st) = expected st
      ∧ Ofstream.written (fout (close_file st)) = Ofstream.written (fout st)
      ∧ (has_file st = true → Ofstream.is_open (fout (close_file st)) = false).
Proof.
  intros Hrun.
  pose proof (run_loop_ok cfg can_open evs ∅
                (streams_ok_empty cfg can_open) (still_waiting_empty cfg)) as H.
  rewrite Hrun in H. destruct H as [Hs _].
  assert (Hnone : ∀ sid st, s !! sid = Some st → buffer st !! expected st = None).
  { intros sid st Hlk. apply keys_above_none. by destruct (Hs _ _ Hlk) as [[? _] _]. }
  split.
  - unfold run. rewrite Hrun. f_equal. f_equal. unfold shutdown.
    apply map_fmap_ext. intros sid st Hlk. unfold shutdown_stream.
    by rewrite flush_rest_none by eauto.
  - intros sid st Hlk. split; [by eauto|].
    unfold close_file.
    destruct (has_file st) eqn:Hf; cbn; [|done].
    destruct (Ofstream.is_open (fout st)) eqn:Ho; cbn.
    + unfold Ofstream.close. rewrite Ho. cbn. done.
    + done.
Qed.

Lemma loop_exit_flush_witness :
  run cfg_one any_path [data 42 2 [x07]; EvError]
  = (close_file <$> {[ 42 := mkStream 1 {[ 2 := [x07] ]} false 0 0
                                (Ofstream.mk true false []) true ]},
     [Cerr (MsgOpened "out_42.bin" 42); Cerr MsgRecvError], true).
Proof.
  refine (proj1 (loop_exit_flush cfg_one any_path [data 42 2 [x07]; EvError] _ _ _)).
  vm_compute. reflexivity.
Defined.

(** C6 as stated fails when the loop is left on a transport error with
    frame 2 buffered and frame 1 missing: the byte of frame 2 is not
    written, it stays in the buffer, and the two lines printed in the
    whole run are the opening of the file and the error of [recv]. *)
Lemma orphan_not_reported :
  run cfg_one any_path [data 42 2 [x07]; EvError]
  = ({[ 42 := mkStream 1 {[ 2 := [x07] ]} false 0 0
                (Ofstream.mk false false []) true ]},
     [Cerr (MsgOpened "out_42.bin" 42); Cerr MsgRecvError], true).
Proof. vm_compute. reflexivity. Qed.

(** *** The finalization timeout *)

(** Frames 1, 2 and the final frame 4 arrive, frame 3 never does, and
    [recv] times out eleven seconds after the final marker. *)
Definition evs_gap : list event :=
  [data 42 1 [x01]; data 42 2 [x02]; final 42 4 [x04]; EvTimeout 11000000000].

Definition gap_state : gmap Z StreamState :=
  {[ 42 := mkStream 3 {[ 4 := [x04] ]} false 4 0
             (Ofstream.mk true false [x01; x02]) true ]}.

(** C3 at the failing input.  After the timeout the file holds the
    bytes of frames 1 and 2, but it is still open, the stream is not
    complete ([final_seen] was cleared), frame 4 stays buffered, the
    loop goes on, and the only line printed for the timeout names the
    stream: neither [expected = 3] nor the final sequence 4 nor the one
    orphaned entry is reported. *)
Theorem timeout_reports_no_gap :
  run cfg_one any_path evs_gap
  = (gap_state,
     [Cerr (MsgOpened "out_42.bin" 42); Cerr (MsgFinalSeen 42 4);
      Cerr (MsgTimeout 42)],
     false).
Proof. vm_compute. reflexivity. Qed.

Lemma timeout_tick_gap_state now :
  on_timeout cfg_one now gap_state = (gap_state, [], Continue).
Proof. reflexivity. Qed.

Lemma timeouts_gap_state ticks :
  run_loop cfg_one any_path (EvTimeout <$> ticks) gap_state = (gap_state, [], false).
Proof.
  induction ticks as [|now ticks IH]; [done|].
  cbn [fmap list_fmap run_loop step]. rewrite timeout_tick_gap_state.
  fold (fmap (M := list) EvTimeout ticks). by rewrite IH.
Qed.

(** C2 at the failing input.  The only subscribed stream has run into
    its finalization timeout; however many further timeouts follow, the
    loop is not left. *)
Theorem timed_out_stream_never_done ticks :
  (run cfg_one any_path (evs_gap ++ (EvTimeout <$> ticks))).2 = false.
Proof.
  unfold run. rewrite run_loop_app.
  assert (H : run_loop cfg_one any_path evs_gap ∅
              = (gap_state,
                 [Cerr (MsgOpened "out_42.bin" 42); Cerr (MsgFinalSeen 42 4);
                  Cerr (MsgTimeout 42)], false))
    by (vm_compute; reflexivity).
  rewrite H, timeouts_gap_state. reflexivity.
Qed.

(** A stream that completes by itself ends the loop of a receiver
    subscribed to it alone. *)
Lemma natural_completion_exits :
  run cfg_one any_path [final 42 2 [x02]; data 42 1 [x01]]
  = ({[ 42 := mkStream 3 ∅ true 2 0 (Ofstream.mk false false [x01; x02]) true ]},
     [Cerr (MsgOpened "out_42.bin" 42); Cerr (MsgFinalSeen 42 2);
      Cerr (MsgFinished 42 3 2)],
     true).
Proof. vm_compute. reflexivity. Qed.

(** With [-s all] only an error of [recv] ends the loop. *)
Lemma accept_all_never_done cfg can_open (s : gmap Z StreamState) ev s' o :
  subscribe_all cfg = true →
  step cfg can_open s ev = (s', o, Break) → ev = EvError.
Proof.
  intros Hall. destruct ev as [now dgram|now|]; cbn [step]; [| |done].
  - unfold on_datagram, on_frame. destruct (decode _); [|done].
    destruct (negb _); [done|].
    destruct (open_sink _ _ _ _) as [st1 o1].
    destruct (ingest _ _ _ _ _ _ _) as [[st2 o2] fin].
    rewrite Hall, andb_false_r. done.
  - unfold on_timeout. by rewrite Hall.
Qed.

End ReceiverProofs.

(** ** Reassembly of one stream in sequence order *)

Module Reassembly.

Import Receiver ReceiverInv DecodeFacts ReceiverProofs.

(** The datagram of frame [k] of a stream [sid] of [N] frames with
    payloads [pl]: frame [N] carries the final flag. *)
Definition frame_of (sid N : Z) (pl : Z → list byte) (k : Z) : list byte :=
  Sender.header sid k (if k =? N then FLAG_FINAL else 0) ++ pl k.

(** A delivery: the clock reading and the sequence number of the frame
    that [recv] returns. *)
Definition deliver (sid N : Z) (pl : Z → list byte) (d : Z * Z) : event :=
  EvDatagram d.1 (frame_of sid N pl d.2).

(** The payloads of the frames before [e], in sequence order. *)
Definition prefix_bytes (pl : Z → list byte) (e : Z) : list byte :=
  concat (pl <$> seqZ 1 (e - 1)).

Lemma prefix_bytes_succ pl e :
  1 ≤ e → prefix_bytes pl (e + 1) = prefix_bytes pl e ++ pl e.
Proof.
  intros He. unfold prefix_bytes.
  replace (e + 1 - 1) with ((e - 1) + 1) by lia.
  rewrite seqZ_app by lia. replace (1 + (e - 1)) with e by lia.
  rewrite (seqZ_cons e 1) by lia. rewrite (seqZ_nil _ (Z.pred 1)) by lia.
  rewrite fmap_app, concat_app. cbn. by rewrite app_nil_r.
Qed.

Lemma drain_none fuel ts st :
  buffer st !! expected st = None → drain fuel ts st = (st, []).
Proof. intros H. destruct fuel; cbn; [done|]. by rewrite H. Qed.

Section Stream.

Variable cfg : config.
Variable can_open : string → bool.
Variable sid : Z.
Variable N : Z.
Variable pl : Z → list byte.

Hypothesis sid_u32 : is_u32 sid.
Hypothesis N_range : 1 ≤ N ≤ u32_max.
Hypothesis pl_fits : ∀ k, (length (pl k) ≤ PAYLOAD_SIZE)%nat.
Hypothesis sid_subscribed : subscribed cfg sid = true.
Hypothesis sink_opens :
  single_to_stdout cfg = true ∨ can_open (file_name (out_pattern cfg) sid) = true.

(** Which sink the stream has, whether it can be written, and what has
    been written to it when [so] are the bytes written to stdout. *)
Definition sink_kind (st : StreamState) : Prop :=
  if single_to_stdout cfg then has_file st = false else has_file st = true.

Definition writable (st : StreamState) : Prop :=
  sink_kind st
  ∧ (single_to_stdout cfg = false →
     Ofstream.is_open (fout st) = true ∧ Ofstream.failed (fout st) = false).

Definition cur_sink (so : list byte) (st : StreamState) : list byte :=
  if single_to_stdout cfg then so else Ofstream.written (fout st).

(** The stream after the deliveries [D], while frames are missing: the
    frames below [expected] are written, the delivered frames from
    [expected] on are buffered. *)
Record active (D : list Z) (st : StreamState) (so : list byte) : Prop := {
  act_range : 1 ≤ expected st ≤ N;
  act_keys : ∀ k, is_Some (buffer st !! k) ↔ (k ∈ D ∧ expected st ≤ k);
  act_vals : ∀ k bs, buffer st !! k = Some bs → bs = pl k;
  act_sink : cur_sink so st = prefix_bytes pl (expected st);
  act_writable : writable st;
  act_final : final_seen st = true → final_seq st = N
}.

(** The stream once frame [N] is written. *)
Record finished (st : StreamState) (so : list byte) : Prop := {
  fin_sink : cur_sink so st = prefix_bytes pl (N + 1);
  fin_range : ¬ (1 ≤ expected st ≤ N);
  fin_none : buffer st !! expected st = None;
  fin_kind : sink_kind st
}.

Definition good (D : list Z) (st : StreamState) (so : list byte) : Prop :=
  (active D st so ∧ expected st ∉ D) ∨ finished st so.

Lemma emit_writable bs st so :
  writable st →
  ∃ f o, emit_nonempty (single_to_stdout cfg) bs st = (set_fout f st, o)
         ∧ cur_sink (so ++ stdout_bytes o) (set_fout f st) = cur_sink so st ++ bs
         ∧ writable (set_fout f st).
Proof.
  intros [Hkind Hopen]. unfold emit_nonempty, emit, writable, sink_kind, cur_sink in *.
  destruct bs as [|b bs].
  { exists (fout st), []. rewrite set_fout_same, !app_nil_r. done. }
  destruct (single_to_stdout cfg) eqn:Hs.
  - rewrite Hkind. cbn [andb negb].
    exists (fout st), [Cout (b :: bs)]. rewrite set_fout_same.
    split; [done|]. split; [|done]. unfold stdout_bytes. cbn. by rewrite app_nil_r.
  - rewrite Hkind. cbn [andb].
    destruct (Hopen eq_refl) as [Ho Hf].
    eexists _, []. split; [reflexivity|].
    unfold Ofstream.write. rewrite Hf, Ho. cbn. done.
Qed.

Lemma u32_succ_below e : 1 ≤ e → e < N → u32_succ e = e + 1.
Proof.
  intros H1 H2. apply u32_succ_small; unfold is_u32, u32_max, u32_modulus in *; lia.
Qed.

Lemma u32_succ_last : ¬ (1 ≤ u32_succ N ≤ N).
Proof.
  destruct (decide (N < u32_max)) as [Hlt|Hge].
  - rewrite u32_succ_small; [lia | | done].
    unfold is_u32, u32_max, u32_modulus in *. lia.
  - assert (N = u32_max) as -> by lia. rewrite u32_succ_max. lia.
Qed.

Lemma cur_sink_fout so st st' : fout st = fout st' → cur_sink so st = cur_sink so st'.
Proof. unfold cur_sink. by intros ->. Qed.

Lemma finished_keep st st' so so' :
  finished st so →
  expected st' = expected st → buffer st' !! expected st = None →
  has_file st' = has_file st → cur_sink so' st' = cur_sink so st →
  finished st' so'.
Proof.
  intros [H1 H2 H3 H4] He Hb Hf Hs. split.
  - by rewrite Hs.
  - by rewrite He.
  - by rewrite He.
  - unfold sink_kind in *. by rewrite Hf.
Qed.

(** The flush of the loop body, started with the delivered frames from
    [expected] on in the buffer: it writes them up to the first missing
    one, or up to frame [N]. *)
Lemma drain_active D fuel st so :
  (∀ k, k ∈ D → 1 ≤ k ≤ N) →
  (size (buffer st) ≤ fuel)%nat →
  active D st so →
  ∃ st' o, drain fuel (single_to_stdout cfg) st = (st', o)
           ∧ good D st' (so ++ stdout_bytes o).
Proof.
  intros HD. revert st so. induction fuel as [|fuel IH]; intros st so Hsz Hact.
  - exists st, []. split; [done|]. rewrite app_nil_r. left. split; [done|].
    intros Hin.
    destruct (proj2 (act_keys _ _ _ Hact (expected st))) as [bs Hbs]; [split; [done|lia]|].
    assert (buffer st = ∅) as Hemp by (apply map_size_empty_inv; lia).
    rewrite Hemp, lookup_empty in Hbs. discriminate.
  - cbn [drain]. destruct (buffer st !! expected st) as [bs|] eqn:Hlk; cycle 1.
    { exists st, []. split; [done|]. rewrite app_nil_r. left. split; [done|].
      intros Hin.
      destruct (proj2 (act_keys _ _ _ Hact (expected st))) as [bs Hbs]; [split; [done|lia]|].
      congruence. }
    pose proof (act_vals _ _ _ Hact _ _ Hlk) as ->.
    destruct (emit_writable (pl (expected st)) st so (act_writable _ _ _ Hact))
      as (f & o1 & Hemit & Hsink & Hw).
    rewrite Hemit. cbn [expected buffer set_fout].
    set (st2 := set_expected _ _).
    pose proof (act_range _ _ _ Hact) as Hr.
    destruct (decide (expected st < N)) as [Hlt|Hge].
    + assert (Hact2 : active D st2 (so ++ stdout_bytes o1)).
      { subst st2. split; fields; rewrite ?u32_succ_below by lia.
        - lia.
        - intros k. destruct (decide (k = expected st)) as [->|Hne].
          + rewrite lookup_delete_eq. split; [by intros [? ?]|]. intros [_ ?]. lia.
          + rewrite lookup_delete_ne by done.
            rewrite (act_keys _ _ _ Hact k). split; intros [? ?]; (split; [done|lia]).
        - intros k bs Hk. destruct (decide (k = expected st)) as [->|Hne].
          + by rewrite lookup_delete_eq in Hk.
          + rewrite lookup_delete_ne in Hk by done. by eapply act_vals.
        - rewrite (cur_sink_fout _ _ (set_fout f st)) by done. rewrite Hsink.
          rewrite (act_sink _ _ _ Hact). by rewrite prefix_bytes_succ by lia.
        - done.
        - apply (act_final _ _ _ Hact). }
      destruct (IH st2 (so ++ stdout_bytes o1)) as (st3 & o3 & Hdr & Hgood); [|done|].
      { subst st2. fields. rewrite map_size_delete, Hlk. lia. }
      rewrite Hdr. exists st3, (o1 ++ o3). split; [done|].
      by rewrite stdout_bytes_app, app_assoc.
    + assert (expected st = N) as HeN by lia.
      assert (Hfin : finished st2 (so ++ stdout_bytes o1)).
      { subst st2. split; fields; rewrite ?HeN.
        - rewrite (cur_sink_fout _ _ (set_fout f st)) by done. rewrite Hsink.
          rewrite (act_sink _ _ _ Hact), HeN. by rewrite prefix_bytes_succ by lia.
        - apply u32_succ_last.
        - pose proof u32_succ_last as Hl.
          destruct (delete N (buffer st) !! u32_succ N) as [bs|] eqn:Hd; [|done].
          apply lookup_delete_Some in Hd as [_ Hd].
          destruct (proj1 (act_keys _ _ _ Hact (u32_succ N)) (ex_intro _ _ Hd)) as [Hin _].
          apply HD in Hin. done.
        - apply Hw. }
      rewrite drain_none by apply Hfin.
      exists st2, (o1 ++ []). split; [done|]. rewrite app_nil_r. by right.
Qed.

Lemma stale_good D st so k :
  good D st so → k < expected st → good (D ++ [k]) st so.
Proof.
  intros [[Hact Hnin]|Hfin] Hlt; [|by right]. left. split.
  - destruct Hact as [H1 H2 H3 H4 H5 H6]. split; try done.
    intros k'. rewrite H2, elem_of_app, list_elem_of_singleton.
    split; [intros [? ?]; split; [by left | done]|].
    intros [[?| ->] ?]; [done|lia].
  - rewrite elem_of_app, list_elem_of_singleton. intros [?|E]; [done|lia].
Qed.

Lemma reassemble_good D st so k :
  (∀ k, k ∈ D → 1 ≤ k ≤ N) → 1 ≤ k ≤ N →
  good D st so → expected st ≤ k →
  ∃ st1 o1, reassemble (single_to_stdout cfg) k (pl k) st = (st1, o1)
            ∧ good (D ++ [k]) st1 (so ++ stdout_bytes o1).
Proof.
  intros HD Hk Hgood Hle.
  assert (HD' : ∀ k', k' ∈ D ++ [k] → 1 ≤ k' ≤ N).
  { intros k'. rewrite elem_of_app, list_elem_of_singleton. intros [?| ->]; auto. }
  unfold reassemble. destruct Hgood as [[Hact Hnin]|Hfin].
  - destruct (k =? expected st) eqn:Heq.
    + apply Z.eqb_eq in Heq. subst k.
      destruct (emit_writable (pl (expected st)) st so (act_writable _ _ _ Hact))
        as (f & o1 & Hemit & Hsink & Hw).
      rewrite Hemit. set (st2 := set_expected _ _).
      pose proof (act_range _ _ _ Hact) as Hr.
      destruct (decide (expected st < N)) as [Hlt|Hge].
      * assert (Hact2 : active (D ++ [expected st]) st2 (so ++ stdout_bytes o1)).
        { subst st2. split; fields; rewrite ?u32_succ_below by lia.
          - lia.
          - intros k. rewrite (act_keys _ _ _ Hact k), elem_of_app, list_elem_of_singleton.
            split.
            + intros [Hin ?]. split; [by left|].
              destruct (decide (k = expected st)) as [->|?]; [done|lia].
            + intros [[?| ->] ?]; [|lia]. split; [done|lia].
          - apply (act_vals _ _ _ Hact).
          - rewrite (cur_sink_fout _ _ (set_fout f st)) by done. rewrite Hsink.
            rewrite (act_sink _ _ _ Hact). by rewrite prefix_bytes_succ by lia.
          - done.
          - apply (act_final _ _ _ Hact). }
        destruct (drain_active _ (size (buffer st2)) st2 _ HD' (le_n _) Hact2)
          as (st3 & o3 & Hdr & Hgood).
        rewrite Hdr. exists st3, (o1 ++ o3). split; [done|].
        by rewrite stdout_bytes_app, app_assoc.
      * assert (expected st = N) as HeN by lia.
        assert (Hfin : finished st2 (so ++ stdout_bytes o1)).
        { subst st2. split; fields; rewrite ?HeN.
          - rewrite (cur_sink_fout _ _ (set_fout f st)) by done. rewrite Hsink.
            rewrite (act_sink _ _ _ Hact), HeN. by rewrite prefix_bytes_succ by lia.
          - apply u32_succ_last.
          - pose proof u32_succ_last as Hl.
            destruct (buffer st !! u32_succ N) as [bs|] eqn:Hd; [|done].
            destruct (proj1 (act_keys _ _ _ Hact (u32_succ N)) (ex_intro _ _ Hd)) as [Hin _].
            apply HD in Hin. done.
          - apply Hw. }
        rewrite drain_none by apply Hfin.
        exists st2, (o1 ++ []). split; [done|]. rewrite app_nil_r. by right.
    + apply Z.eqb_neq in Heq.
      assert (Hnin' : expected st ∉ D ++ [k]).
      { rewrite elem_of_app, list_elem_of_singleton. intros [?| ?]; [done|lia]. }
      destruct (buffer st !! k) as [bs|] eqn:Hlk.
      * exists st, []. split; [done|]. rewrite app_nil_r. left. split; [|done].
        destruct Hact as [H1 H2 H3 H4 H5 H6]. split; try done.
        intros k'. rewrite H2, elem_of_app, list_elem_of_singleton.
        split; [intros [? ?]; split; [by left | done]|].
        intros [[?| ->] ?]; [done|]. by apply H2.
      * eexists _, []. split; [done|]. rewrite app_nil_r. left. split; [|done].
        destruct Hact as [H1 H2 H3 H4 H5 H6]. split; fields; try done.
        -- intros k'. rewrite elem_of_app, list_elem_of_singleton.
           destruct (decide (k' = k)) as [->|Hne].
           ++ rewrite lookup_insert_eq. split; [intros _; split; [by right | lia]|done].
           ++ rewrite lookup_insert_ne by done. rewrite H2.
              split; [intros [? ?]; split; [by left | done]|].
              intros [[?| ?] ?]; done.
        -- intros k' bs. destruct (decide (k' = k)) as [->|Hne].
           ++ rewrite lookup_insert_eq. by intros [= <-].
           ++ rewrite lookup_insert_ne by done. apply H3.
  - assert (k ≠ expected st) as Hne by (intros ->; by apply (fin_range _ _ Hfin)).
    apply Z.eqb_neq in Hne as Hneb. rewrite Hneb.
    destruct (buffer st !! k) as [bs|] eqn:Hlk.
    + exists st, []. split; [done|]. rewrite app_nil_r. by right.
    + eexists _, []. split; [done|]. rewrite app_nil_r. right.
      eapply finished_keep; [exact Hfin|reflexivity| |reflexivity|reflexivity].
      fields. rewrite lookup_insert_ne by done. apply Hfin.
Qed.

Lemma flag_final k :
  has_final (if k =? N then FLAG_FINAL else 0) = (k =? N).
Proof. by destruct (k =? N). Qed.

Lemma mark_final_good D st so k now :
  good D st so →
  ∃ st2 o2, mark_final sid k (if k =? N then FLAG_FINAL else 0) now st = (st2, o2)
            ∧ stdout_bytes o2 = [] ∧ good D st2 so.
Proof.
  intros Hgood. unfold mark_final. rewrite flag_final.
  destruct (k =? N) eqn:Heq; [|by exists st, []].
  apply Z.eqb_eq in Heq. subst k.
  eexists _, _. split; [done|]. split; [done|].
  destruct Hgood as [[Hact Hnin]|Hfin].
  - left. split; [|done]. destruct Hact as [H1 H2 H3 H4 H5 H6].
    split; fields; done.
  - right. eapply finished_keep; [exact Hfin|reflexivity| |reflexivity|reflexivity]. apply Hfin.
Qed.

Lemma done_finished D st so :
  good D st so → stream_done st = true → finished (close_file st) so.
Proof.
  intros [[Hact Hnin]|Hfin] Hd.
  - unfold stream_done in Hd. apply andb_true_iff in Hd as [Hs Hlt].
    apply Z.ltb_lt in Hlt. rewrite (act_final _ _ _ Hact Hs) in Hlt.
    pose proof (act_range _ _ _ Hact). lia.
  - unfold close_file. destruct (_ && _); [|done].
    eapply finished_keep; [exact Hfin|reflexivity| |reflexivity|].
    + apply Hfin.
    + unfold cur_sink, Ofstream.close. fields.
      by destruct (Ofstream.is_open (fout st)).
Qed.

(** One frame of the stream through [ingest]. *)
Lemma ingest_good D st so k now :
  (∀ k, k ∈ D → 1 ≤ k ≤ N) → 1 ≤ k ≤ N → good D st so →
  ∃ st' o fin,
    ingest (single_to_stdout cfg) sid k (if k =? N then FLAG_FINAL else 0) now (pl k) st
    = (st', o, fin)
    ∧ good (D ++ [k]) st' (so ++ stdout_bytes o)
    ∧ (fin = true → finished st' (so ++ stdout_bytes o)).
Proof.
  intros HD Hk Hgood. unfold ingest.
  destruct (k <? expected st) eqn:Hlt.
  { apply Z.ltb_lt in Hlt. exists st, [], false. rewrite app_nil_r.
    split; [done|]. split; [by apply stale_good | done]. }
  apply Z.ltb_ge in Hlt.
  destruct (reassemble_good D st so k HD Hk Hgood Hlt) as (st1 & o1 & -> & Hg1).
  destruct (mark_final_good _ st1 _ k now Hg1) as (st2 & o2 & -> & Ho2 & Hg2).
  destruct (stream_done st2) eqn:Hd.
  - eexists _, _, _. split; [done|].
    rewrite !stdout_bytes_app, Ho2. cbn. rewrite !app_nil_r.
    pose proof (done_finished _ _ _ Hg2 Hd) as Hf. split; [by right | done].
  - eexists _, _, _. split; [done|].
    rewrite !stdout_bytes_app, Ho2, !app_nil_r. split; [done | done].
Qed.

(** The receiver holds no stream yet, or the one stream. *)
Definition loop_inv (D : list Z) (s : gmap Z StreamState) (so : list byte) : Prop :=
  (s = ∅ ∧ D = [] ∧ so = []) ∨ ∃ st, s = {[ sid := st ]} ∧ good D st so.

Lemma open_first :
  ∃ st1 o1, open_sink cfg can_open sid new_stream = (st1, o1)
            ∧ stdout_bytes o1 = [] ∧ good [] st1 [].
Proof.
  assert (Hact : ∀ st, expected st = 1 → buffer st = ∅ → final_seen st = false →
                       Ofstream.written (fout st) = [] → writable st → good [] st []).
  { intros st He Hb Hf Hwr Hw. left. split; [|by apply not_elem_of_nil].
    split; rewrite ?He, ?Hb; try done.
    - lia.
    - intros k. rewrite lookup_empty. split; [by intros [? ?]|].
      intros [Hin _]. by apply not_elem_of_nil in Hin.
    - unfold cur_sink. rewrite Hwr. by destruct (single_to_stdout cfg).
    - by rewrite Hf. }
  unfold open_sink, writable, sink_kind in *. cbn [has_file new_stream].
  destruct (single_to_stdout cfg) eqn:Hs.
  - eexists _, _. split; [done|]. split; [done|]. apply Hact; try done.
  - destruct sink_opens as [?|Ho]; [congruence|]. rewrite Ho. cbn.
    eexists _, _. split; [done|]. split; [done|]. by apply Hact.
Qed.

Lemma good_kind D st so : good D st so → sink_kind st.
Proof. intros [[Hact _]|Hfin]; [apply (act_writable _ _ _ Hact) | apply Hfin]. Qed.

Lemma open_again D st so :
  good D st so →
  ∃ o1, open_sink cfg can_open sid st = (st, o1) ∧ stdout_bytes o1 = [].
Proof.
  intros Hk%good_kind. unfold open_sink, sink_kind in *.
  destruct (single_to_stdout cfg) eqn:Hs; rewrite Hk.
  - eexists. rewrite <- Hk at 1. rewrite set_has_file_same. done.
  - by eexists.
Qed.

Lemma frame_of_decode k :
  1 ≤ k ≤ N →
  decode (recv (frame_of sid N pl k))
  = Some (mkFrame sid k (if k =? N then FLAG_FINAL else 0) (pl k)).
Proof.
  intros Hk. unfold frame_of. apply decode_header; try done.
  - unfold is_u32, u32_max, u32_modulus in *. lia.
  - unfold is_u32, u32_modulus, FLAG_FINAL. destruct (k =? N); lia.
Qed.

(** One delivery through the loop body. *)
Lemma on_datagram_good D s so k now :
  (∀ k, k ∈ D → 1 ≤ k ≤ N) → 1 ≤ k ≤ N → loop_inv D s so →
  ∃ st' o c,
    on_datagram cfg can_open now (frame_of sid N pl k) s = ({[ sid := st' ]}, o, c)
    ∧ good (D ++ [k]) st' (so ++ stdout_bytes o)
    ∧ (c = Break → finished st' (so ++ stdout_bytes o)).
Proof.
  intros HD Hk Hinv. unfold on_datagram. rewrite frame_of_decode by done.
  unfold on_frame. cbn [stream_id sequence flags payload].
  rewrite sid_subscribed. cbn [negb].
  assert (∃ st1 o1, open_sink cfg can_open sid (stream_at s sid) = (st1, o1)
            ∧ stdout_bytes o1 = [] ∧ good D st1 so
            ∧ ∀ st', <[sid := st']> s = {[ sid := st' ]})
    as (st1 & o1 & -> & Ho1 & Hg1 & Hins).
  { destruct Hinv as [(-> & -> & ->)|(st & -> & Hg)].
    - rewrite stream_at_none by apply lookup_empty.
      destruct open_first as (st1 & o1 & H1 & H2 & H3).
      exists st1, o1. split; [done|]. split; [done|]. split; [done|].
      intros st'. apply insert_empty.
    - rewrite (stream_at_some _ _ st) by apply lookup_singleton_eq.
      destruct (open_again _ _ _ Hg) as (o1 & H1 & H2).
      exists st, o1. split; [done|]. split; [done|]. split; [done|].
      intros st'. apply insert_singleton_eq. }
  rewrite !Hins, map_size_singleton. cbn [Nat.eqb]. rewrite andb_true_r.
  destruct (ingest_good D st1 so k now HD Hk Hg1) as (st' & o & fin & -> & Hg & Hf).
  rewrite !Hins.
  eexists st', _, _. split; [reflexivity|].
  rewrite stdout_bytes_app, Ho1. cbn [app]. split; [done|].
  intros Hc. apply Hf. by destruct fin.
Qed.

Lemma run_loop_good ds : ∀ D s so,
  (∀ k, k ∈ D → 1 ≤ k ≤ N) → (∀ k, k ∈ ds.*2 → 1 ≤ k ≤ N) → loop_inv D s so →
  ∃ s' o exited,
    run_loop cfg can_open (deliver sid N pl <$> ds) s = (s', o, exited)
    ∧ if exited
      then ∃ st, s' = {[ sid := st ]} ∧ finished st (so ++ stdout_bytes o)
      else loop_inv (D ++ ds.*2) s' (so ++ stdout_bytes o).
Proof.
  induction ds as [|[now k] ds IH]; intros D s so HD Hds Hinv.
  - exists s, [], false. split; [done|]. cbn. by rewrite !app_nil_r.
  - cbn [fmap list_fmap run_loop step deliver fst snd].
    assert (Hk : 1 ≤ k ≤ N) by (apply Hds; cbn; left).
    destruct (on_datagram_good D s so k now HD Hk Hinv) as (st' & o & c & -> & Hg & Hc).
    destruct c.
    + destruct (IH (D ++ [k]) {[ sid := st' ]} (so ++ stdout_bytes o))
        as (s2 & o2 & ex & Hrun & Hres).
      * intros k'. rewrite elem_of_app, list_elem_of_singleton. intros [?| ->]; auto.
      * intros k' Hin. apply Hds. cbn. by right.
      * right. by exists st'.
      * fold (fmap (M := list) (deliver sid N pl) ds). rewrite Hrun.
        exists s2, (o ++ o2), ex. split; [done|].
        rewrite stdout_bytes_app, app_assoc.
        cbn [fmap list_fmap fst snd].
        rewrite <- (app_assoc D [k]) in Hres. exact Hres.
    + exists {[ sid := st' ]}, o, true. split; [done|]. exists st'. auto.
Qed.

(** All of the frames 1 to [N] delivered, in any order and any number of
    times: the sink holds the payloads in sequence order. *)
Lemma reassembly (ds : list (Z * Z)) :
  (∀ k, k ∈ ds.*2 ↔ 1 ≤ k ≤ N) →
  sink_bytes cfg sid (run cfg can_open (deliver sid N pl <$> ds))
  = concat (pl <$> seqZ 1 N).
Proof.
  intros Hds.
  destruct (run_loop_good ds [] ∅ []) as (s' & o & ex & Hrun & Hres).
  { intros k Hin. by apply not_elem_of_nil in Hin. }
  { intros k Hin. by apply Hds. }
  { by left. }
  unfold run. rewrite Hrun. cbn [app] in Hres.
  assert (Hfull : prefix_bytes pl (N + 1) = concat (pl <$> seqZ 1 N)).
  { unfold prefix_bytes. by replace (N + 1 - 1) with N by lia. }
  destruct ex.
  - destruct Hres as (st & -> & Hfin).
    unfold sink_bytes. cbn [fst snd]. unfold shutdown.
    rewrite map_fmap_singleton.
    rewrite (stream_at_some _ _ (shutdown_stream st)) by apply lookup_singleton_eq.
    rewrite <- Hfull, <- (fin_sink _ _ Hfin). unfold cur_sink, shutdown_stream.
    rewrite flush_rest_none by apply Hfin.
    unfold close_file. destruct (_ && _); [|done].
    unfold Ofstream.close. fields. by destruct (Ofstream.is_open (fout st)).
  - destruct Hres as [(_ & Hnil & _)|(st & -> & Hg)].
    + exfalso. assert (1 ∈ ds.*2) as Hin by (apply Hds; lia).
      rewrite Hnil in Hin. by apply not_elem_of_nil in Hin.
    + unfold sink_bytes. cbn [fst snd].
      rewrite (stream_at_some _ _ st) by apply lookup_singleton_eq.
      destruct Hg as [[Hact Hnin]|Hfin].
      * exfalso. apply Hnin. apply Hds. apply (act_range _ _ _ Hact).
      * rewrite <- Hfull, <- (fin_sink _ _ Hfin). done.
Qed.

(** *** Receive timeouts between the deliveries *)

Lemma expire_good D st so now : good D st so → good D (expire cfg now st) so.
Proof.
  unfold expire. destruct (timed_out cfg now st); [|done].
  intros [[Hact Hnin]|Hfin].
  - left. split; [|done]. destruct Hact as [H1 H2 H3 H4 H5 H6].
    split; fields; done.
  - right. eapply finished_keep; [exact Hfin|reflexivity| |reflexivity|reflexivity].
    apply Hfin.
Qed.

Lemma good_done D st so : good D st so → stream_done st = true → finished st so.
Proof.
  intros [[Hact Hnin]|Hfin] Hd; [|done].
  unfold stream_done in Hd. apply andb_true_iff in Hd as [Hs Hlt].
  apply Z.ltb_lt in Hlt. rewrite (act_final _ _ _ Hact Hs) in Hlt.
  pose proof (act_range _ _ _ Hact). lia.
Qed.

Lemma timeout_silent now (s : gmap Z StreamState) :
  stdout_bytes (on_timeout cfg now s).1.2 = [].
Proof.
  unfold on_timeout. cbn [fst snd].
  induction (merge_sort Z.le (elements (dom s))) as [|x l IH]; [done|].
  cbn [omap list_omap]. destruct (s !! x) as [st|]; cbn; [|done].
  by destruct (timed_out cfg now st).
Qed.

(** An iteration in which [recv] timed out: the stream is as it was,
    but for [final_seen]; the loop is left only when the stream is
    complete. *)
Lemma on_timeout_good D s so now :
  loop_inv D s so →
  ∃ s' o c, on_timeout cfg now s = (s', o, c) ∧ stdout_bytes o = []
            ∧ loop_inv D s' so
            ∧ (c = Break → ∃ st, s' = {[ sid := st ]} ∧ finished st so).
Proof.
  intros Hinv. pose proof (timeout_silent now s) as Hsil.
  unfold on_timeout in *. cbn [fst snd] in Hsil.
  eexists _, _, _. split; [reflexivity|]. split; [exact Hsil|].
  assert (Hmem : subscribe_all cfg = false → In sid (elements (subs cfg))).
  { intros Hall. apply list_elem_of_In, elem_of_elements.
    by apply subscribed_elem. }
  destruct Hinv as [(-> & -> & ->)|(st & -> & Hg)].
  - rewrite fmap_empty. split; [by left|]. intros Hc. exfalso.
    destruct (subscribe_all cfg); [done|]. cbn [negb andb] in Hc.
    destruct (all_done cfg ∅) eqn:E; [|done].
    unfold all_done in E. rewrite forallb_forall in E.
    specialize (E sid (Hmem eq_refl)). by rewrite lookup_empty in E.
  - rewrite map_fmap_singleton. split.
    + right. exists (expire cfg now st). split; [done|]. by apply expire_good.
    + intros Hc. exists (expire cfg now st). split; [done|].
      apply (good_done D); [by apply expire_good|].
      destruct (subscribe_all cfg); [done|]. cbn [negb andb] in Hc.
      destruct (all_done cfg _) eqn:E; [|done].
      unfold all_done in E. rewrite forallb_forall in E.
      specialize (E sid (Hmem eq_refl)). by rewrite lookup_singleton_eq in E.
Qed.

(** What [recv] returns when frames of the stream arrive and nothing
    else: one of the frames 1 to [N], or a timeout. *)
Definition stream_event (ev : event) : Prop :=
  match ev with
  | EvDatagram _ dgram => ∃ k, 1 ≤ k ≤ N ∧ dgram = frame_of sid N pl k
  | EvTimeout _ => True
  | EvError => False
  end.

(** The sequence numbers of the frames that arrive. *)
Definition arrivals (evs : list event) : list Z :=
  omap (λ ev, match ev with
              | EvDatagram _ dgram => sequence <$> decode (recv dgram)
              | _ => None
              end) evs.

Lemma arrivals_range evs k :
  Forall stream_event evs → k ∈ arrivals evs → 1 ≤ k ≤ N.
Proof.
  intros Hevs Hin. unfold arrivals in Hin.
  apply list_elem_of_omap in Hin as (ev & Hev & Hk).
  rewrite Forall_forall in Hevs. specialize (Hevs ev Hev).
  destruct ev as [now dgram|now|]; [|done..].
  destruct Hevs as (k' & Hk' & ->). rewrite frame_of_decode in Hk by done.
  cbn in Hk. by injection Hk as <-.
Qed.

Lemma run_loop_events evs : ∀ D s so,
  (∀ k, k ∈ D → 1 ≤ k ≤ N) → Forall stream_event evs → loop_inv D s so →
  ∃ s' o exited,
    run_loop cfg can_open evs s = (s', o, exited)
    ∧ if exited
      then ∃ st, s' = {[ sid := st ]} ∧ finished st (so ++ stdout_bytes o)
      else loop_inv (D ++ arrivals evs) s' (so ++ stdout_bytes o).
Proof.
  induction evs as [|ev evs IH]; intros D s so HD Hevs Hinv.
  - exists s, [], false. split; [done|]. cbn. by rewrite !app_nil_r.
  - apply Forall_cons in Hevs as [Hev Hevs]. cbn [run_loop].
    destruct ev as [now dgram|now|]; [| |done]; cbn [step].
    + destruct Hev as (k & Hk & ->).
      destruct (on_datagram_good D s so k now HD Hk Hinv) as (st' & o & c & -> & Hg & Hc).
      destruct c.
      * destruct (IH (D ++ [k]) {[ sid := st' ]} (so ++ stdout_bytes o))
          as (s2 & o2 & ex & Hrun & Hres); [|done|by right; exists st'|].
        { intros k'. rewrite elem_of_app, list_elem_of_singleton. intros [?| ->]; auto. }
        rewrite Hrun. exists s2, (o ++ o2), ex. split; [done|].
        rewrite stdout_bytes_app, app_assoc.
        unfold arrivals. cbn [omap list_omap]. rewrite frame_of_decode by done.
        cbn [fmap option_fmap option_map sequence]. fold (arrivals evs).
        rewrite <- (app_assoc D [k]) in Hres. exact Hres.
      * exists {[ sid := st' ]}, o, true. split; [done|]. exists st'. auto.
    + destruct (on_timeout_good D s so now Hinv) as (s1 & o & c & -> & Ho & Hi & Hc).
      destruct c.
      * destruct (IH D s1 so HD Hevs Hi) as (s2 & o2 & ex & Hrun & Hres).
        rewrite Hrun. exists s2, (o ++ o2), ex. split; [done|].
        rewrite stdout_bytes_app, Ho. exact Hres.
      * exists s1, o, true. split; [done|]. rewrite Ho, app_nil_r. by apply Hc.
Qed.

(** All of the frames 1 to [N] arrive, in any order, any number of
    times and with any timeouts of [recv] in between: the sink holds
    the payloads in sequence order. *)
Lemma reassembly_events evs :
  Forall stream_event evs → (∀ k, 1 ≤ k ≤ N → k ∈ arrivals evs) →
  sink_bytes cfg sid (run cfg can_open evs) = concat (pl <$> seqZ 1 N).
Proof.
  intros Hevs Hall.
  destruct (run_loop_events evs [] ∅ []) as (s' & o & ex & Hrun & Hres);
    [|done|by left|].
  { intros k Hin. by apply not_elem_of_nil in Hin. }
  unfold run. rewrite Hrun. cbn [app] in Hres.
  assert (Hfull : prefix_bytes pl (N + 1) = concat (pl <$> seqZ 1 N)).
  { unfold prefix_bytes. by replace (N + 1 - 1) with N by lia. }
  destruct ex.
  - destruct Hres as (st & -> & Hfin).
    unfold sink_bytes. cbn [fst snd]. unfold shutdown.
    rewrite map_fmap_singleton.
    rewrite (stream_at_some _ _ (shutdown_stream st)) by apply lookup_singleton_eq.
    rewrite <- Hfull, <- (fin_sink _ _ Hfin). unfold cur_sink, shutdown_stream.
    rewrite flush_rest_none by apply Hfin.
    unfold close_file. destruct (_ && _); [|done].
    unfold Ofstream.close. fields. by destruct (Ofstream.is_open (fout st)).
  - destruct Hres as [(_ & Hnil & _)|(st & -> & Hg)].
    + exfalso. assert (1 ∈ arrivals evs) as Hin by (apply Hall; lia).
      rewrite Hnil in Hin. by apply not_elem_of_nil in Hin.
    + unfold sink_bytes. cbn [fst snd].
      rewrite (stream_at_some _ _ st) by apply lookup_singleton_eq.
      destruct Hg as [[Hact Hnin]|Hfin].
      * exfalso. apply Hnin. apply Hall. apply (act_range _ _ _ Hact).
      * rewrite <- Hfull, <- (fin_sink _ _ Hfin). done.
Qed.

End Stream.

End Reassembly.

(** ** The senders *)

Module SenderProofs.

Import Sender.

Lemma read_full (rest : list byte) :
  (PAYLOAD_SIZE ≤ length rest)%nat →
  Istream.read PAYLOAD_SIZE (Istream.mk rest false false)
  = (Istream.mk (drop PAYLOAD_SIZE rest) false false, take PAYLOAD_SIZE rest).
Proof.
  intros Hlen. unfold Istream.read. cbn [Istream.eof Istream.fail Istream.rest orb].
  assert (E : (length (take PAYLOAD_SIZE rest) <? PAYLOAD_SIZE)%nat = false).
  { apply Nat.ltb_ge. rewrite length_take. lia. }
  by rewrite E.
Qed.

Lemma read_short (rest : list byte) :
  (length rest < PAYLOAD_SIZE)%nat →
  Istream.read PAYLOAD_SIZE (Istream.mk rest false false)
  = (Istream.mk [] true true, rest).
Proof.
  intros Hlen. unfold Istream.read. cbn [Istream.eof Istream.fail Istream.rest orb].
  rewrite take_ge, drop_ge by lia.
  assert (E : (length rest <? PAYLOAD_SIZE)%nat = true) by by apply Nat.ltb_lt.
  by rewrite E.
Qed.

Section Run.

Variable stream_id : Z.
Variable pps : Z.
Variable interrupted : nat → bool.
Variable send_ok : nat → bool.

Abbreviation send_loop := (Sender.send_loop stream_id pps interrupted send_ok).

(** An iteration that reads a full chunk with more of the file to
    come or not: the chunk is sent without the final flag. *)
Lemma send_loop_full fuel i rest seq :
  interrupted i = false → send_ok i = true →
  (PAYLOAD_SIZE ≤ length rest)%nat →
  send_loop (S fuel) i (Istream.mk rest false false) seq
  = '(k, seq', tr) ← send_loop fuel (S i)
                       (Istream.mk (drop PAYLOAD_SIZE rest) false false) (u32_succ seq);
    Some (k, seq', pacing pps ++ [Sendto (header stream_id seq 0 ++ take PAYLOAD_SIZE rest)] ++ tr).
Proof.
  intros Hi Hok Hlen. cbn [Sender.send_loop]. rewrite Hi, read_full by done.
  assert (Hl : length (take PAYLOAD_SIZE rest) = PAYLOAD_SIZE)
    by (rewrite length_take; lia).
  destruct (take PAYLOAD_SIZE rest) as [|b chunk] eqn:E; [done|].
  rewrite Hok. cbn [negb Istream.eof orb].
  assert (E' : (length (b :: chunk) <? PAYLOAD_SIZE)%nat = false)
    by (apply Nat.ltb_ge; lia).
  by rewrite E'.
Qed.

(** The iteration that finds the file exhausted. *)
Lemma send_loop_end fuel i seq :
  interrupted i = false →
  send_loop (S fuel) i (Istream.mk [] false false) seq = Some (S i, seq, []).
Proof.
  intros Hi. cbn [Sender.send_loop]. rewrite Hi.
  unfold Istream.read. cbn [Istream.eof Istream.fail Istream.rest orb].
  by rewrite take_nil.
Qed.

(** The iteration that reads the short last chunk. *)
Lemma send_loop_short fuel i rest seq :
  interrupted i = false → send_ok i = true →
  rest ≠ [] → (length rest < PAYLOAD_SIZE)%nat →
  send_loop (S fuel) i (Istream.mk rest false false) seq
  = Some (S i, u32_succ seq,
          pacing pps ++ [Sendto (header stream_id seq FLAG_FINAL ++ rest);
                         Stderr (MsgSentFinal seq)]).
Proof.
  intros Hi Hok Hne Hlen. cbn [Sender.send_loop]. rewrite Hi, read_short by done.
  destruct rest as [|b rest]; [done|].
  rewrite Hok. cbn [negb].
  assert (E' : (length (b :: rest) <? PAYLOAD_SIZE)%nat = true)
    by by apply Nat.ltb_lt.
  by rewrite E'.
Qed.

(** The loop ends: one more than the length of the file is fuel
    enough. *)
Lemma send_loop_total fuel i infile seq :
  Istream.eof infile = false → Istream.fail infile = false →
  (length (Istream.rest infile) < fuel)%nat →
  is_Some (send_loop fuel i infile seq).
Proof.
  revert i infile seq. induction fuel as [|fuel IH]; intros i [rest e f] seq He Hf Hlen;
    cbn in He, Hf, Hlen; subst; [lia|].
  cbn [Sender.send_loop]. destruct (interrupted i); [done|].
  destruct (decide (PAYLOAD_SIZE ≤ length rest)%nat) as [Hfull|Hshort].
  - rewrite read_full by done.
    assert (Hl : length (take PAYLOAD_SIZE rest) = PAYLOAD_SIZE)
      by (rewrite length_take; lia).
    destruct (take PAYLOAD_SIZE rest) as [|b chunk] eqn:E; [done|].
    destruct (negb (send_ok i)); [done|].
    assert (E' : (length (b :: chunk) <? PAYLOAD_SIZE)%nat = false)
      by (apply Nat.ltb_ge; lia).
    rewrite E'. cbn [Istream.eof orb].
    destruct (IH (S i) (Istream.mk (drop PAYLOAD_SIZE rest) false false) (u32_succ seq))
      as [[[k seq'] tr] ->]; [done|done| |done].
    cbn. rewrite length_drop. unfold PAYLOAD_SIZE in *. lia.
  - rewrite read_short by lia.
    destruct rest as [|b rest]; [done|].
    destruct (negb (send_ok i)); [done|].
    assert (E' : (length (b :: rest) <? PAYLOAD_SIZE)%nat = true)
      by (apply Nat.ltb_lt; lia).
    by rewrite E'.
Qed.

(** What the loop sends before a final chunk. *)
Definition plain (e : effect) : Prop :=
  e = Pace ∨ ∃ seq chunk, e = Sendto (header stream_id seq 0 ++ chunk).

Lemma plain_pacing : Forall plain (pacing pps).
Proof. unfold pacing. destruct (0 <? pps); repeat constructor. Qed.

(** When the loop sends a final-flagged chunk it is the last thing the
    loop does, and [seq] is one past the sequence number of that chunk
    when the loop is left. *)
Lemma send_loop_final fuel i infile seq k seq' tr seq_f :
  send_loop fuel i infile seq = Some (k, seq', tr) →
  Stderr (MsgSentFinal seq_f) ∈ tr →
  seq' = u32_succ seq_f
  ∧ ∃ tr' chunk,
      chunk ≠ [] ∧ Forall plain tr'
      ∧ tr = tr' ++ [Sendto (header stream_id seq_f FLAG_FINAL ++ chunk);
                     Stderr (MsgSentFinal seq_f)].
Proof.
  revert i infile seq k seq' tr.
  induction fuel as [|fuel IH]; intros i infile seq k seq' tr Hrun Hin; [done|].
  cbn [Sender.send_loop] in Hrun.
  destruct (interrupted i).
  { injection Hrun as <- <- <-. by apply not_elem_of_nil in Hin. }
  destruct (Istream.read PAYLOAD_SIZE infile) as [infile1 chunk].
  destruct chunk as [|b chunk].
  { injection Hrun as <- <- <-. by apply not_elem_of_nil in Hin. }
  pose proof plain_pacing as Hp.
  assert (Hnp : ∀ m, Stderr m ∉ pacing pps).
  { intros m Hm. rewrite Forall_forall in Hp. destruct (Hp _ Hm) as [?|(? & ? & ?)]; done. }
  destruct (negb (send_ok i)).
  { injection Hrun as <- <- <-.
    rewrite elem_of_app, !elem_of_cons, elem_of_nil in Hin.
    destruct Hin as [Hin|[?|[?|?]]]; try done. by apply Hnp in Hin. }
  destruct (_ || _).
  - injection Hrun as <- <- <-.
    rewrite elem_of_app, !elem_of_cons, elem_of_nil in Hin.
    destruct Hin as [Hin|[?|[[= <-]|?]]]; try done; [by apply Hnp in Hin|].
    split; [done|]. exists (pacing pps), (b :: chunk). done.
  - destruct (Sender.send_loop _ _ _ _ fuel (S i) infile1 (u32_succ seq))
      as [[[k0 seq0] tr0]|] eqn:Hrec; [|done].
    cbn in Hrun. injection Hrun as <- <- <-.
    rewrite elem_of_app, elem_of_cons in Hin.
    destruct Hin as [Hin|[?|Hin]]; [by apply Hnp in Hin|done|].
    destruct (IH _ _ _ _ _ _ Hrec Hin) as (-> & tr' & chunk' & Hne & Hpl & ->).
    split; [done|].
    exists (pacing pps ++ [Sendto (header stream_id seq 0 ++ b :: chunk)] ++ tr'), chunk'.
    split; [done|]. split.
    + apply Forall_app. split; [done|]. apply Forall_cons. split; [|done].
      right. by eexists _, _.
    + by rewrite <- !app_assoc.
Qed.

End Run.

(** C5, as the code has it.  Whatever ends the loop (the end of the
    file, a final chunk, an interruption or a failed [sendto]), the
    sender then sends the marker of an interruption if the flag is set,
    and after it exactly three final-flagged datagrams without payload,
    each followed by a sleep of 200 ms.  They carry the value of [seq]
    at the end of the loop: when the loop has sent a final-flagged chunk,
    that is one past the sequence number of the chunk. *)
Theorem final_marker_retransmission stream_id pps interrupted send_ok src :
  ∃ k seq tr,
    send_loop stream_id pps interrupted send_ok (S (length src)) 0
      (Istream.of_file src) 1 = Some (k, seq, tr)
    ∧ run stream_id pps interrupted send_ok src
      = Some (tr
              ++ (if interrupted k
                  then [Sendto (header stream_id seq FLAG_FINAL);
                        Stderr (MsgInterrupted seq)]
                  else [])
              ++ [Sendto (header stream_id seq FLAG_FINAL); Sleep 200;
                  Sendto (header stream_id seq FLAG_FINAL); Sleep 200;
                  Sendto (header stream_id seq FLAG_FINAL); Sleep 200])
    ∧ ∀ seq_f,
        Stderr (MsgSentFinal seq_f) ∈ tr →
        seq = u32_succ seq_f
        ∧ ∃ tr' chunk,
            chunk ≠ [] ∧ Forall (plain stream_id) tr'
            ∧ tr = tr' ++ [Sendto (header stream_id seq_f FLAG_FINAL ++ chunk);
                           Stderr (MsgSentFinal seq_f)].
Proof.
  destruct (send_loop_total stream_id pps interrupted send_ok
              (S (length src)) 0 (Istream.of_file src) 1)
    as [[[k seq] tr] Hloop]; [done|done|cbn; lia|].
  exists k, seq, tr. split; [done|]. split.
  - unfold run. rewrite Hloop. reflexivity.
  - intros seq_f Hin. by eapply send_loop_final.
Qed.

Lemma final_marker_retransmission_witness :
  ∃ k seq tr,
    send_loop 42 0 (λ _, false) (λ _, true) (S (length [x01; x02])) 0
      (Istream.of_file [x01; x02]) 1 = Some (k, seq, tr)
    ∧ run 42 0 (λ _, false) (λ _, true) [x01; x02]
      = Some (tr
              ++ (if (λ _ : nat, false) k
                  then [Sendto (header 42 seq FLAG_FINAL); Stderr (MsgInterrupted seq)]
                  else [])
              ++ [Sendto (header 42 seq FLAG_FINAL); Sleep 200;
                  Sendto (header 42 seq FLAG_FINAL); Sleep 200;
                  Sendto (header 42 seq FLAG_FINAL); Sleep 200])
    ∧ ∀ seq_f,
        Stderr (MsgSentFinal seq_f) ∈ tr →
        seq = u32_succ seq_f
        ∧ ∃ tr' chunk,
            chunk ≠ [] ∧ Forall (plain 42) tr'
            ∧ tr = tr' ++ [Sendto (header 42 seq_f FLAG_FINAL ++ chunk);
                           Stderr (MsgSentFinal seq_f)].
Proof.
  exact (final_marker_retransmission 42 0 (λ _, false) (λ _, true) [x01; x02]).
Defined.

(** C5 as stated fails for a file of one byte: the loop sends the byte
    in a final-flagged frame with sequence number 1, and the three
    retransmitted markers carry sequence number 2. *)
Lemma retransmitted_marker_is_next :
  run 42 0 (λ _, false) (λ _, true) [x01]
  = Some [Sendto (header 42 1 FLAG_FINAL ++ [x01]); Stderr (MsgSentFinal 1);
          Sendto (header 42 2 FLAG_FINAL); Sleep 200;
          Sendto (header 42 2 FLAG_FINAL); Sleep 200;
          Sendto (header 42 2 FLAG_FINAL); Sleep 200]
  ∧ header 42 2 FLAG_FINAL ≠ header 42 1 FLAG_FINAL.
Proof. split; [reflexivity | discriminate]. Qed.

(** The single-stream sender leaves [seq] at the sequence number of the
    final chunk, so its markers repeat that number. *)
Lemma legacy_send_loop_final pps interrupted send_ok fuel i infile seq k seq' tr seq_f :
  LegacySender.send_loop pps interrupted send_ok fuel i infile seq = Some (k, seq', tr) →
  Stderr (MsgSentFinal seq_f) ∈ tr →
  seq' = seq_f.
Proof.
  revert i infile seq k seq' tr.
  induction fuel as [|fuel IH]; intros i infile seq k seq' tr Hrun Hin; [done|].
  cbn [LegacySender.send_loop] in Hrun.
  destruct (Istream.eof infile).
  { injection Hrun as <- <- <-. by apply not_elem_of_nil in Hin. }
  destruct (interrupted i).
  { injection Hrun as <- <- <-. by apply not_elem_of_nil in Hin. }
  destruct (Istream.read PAYLOAD_SIZE infile) as [infile1 chunk].
  assert (Hnp : ∀ m, Stderr m ∉ LegacySender.pacing pps).
  { intros m. unfold LegacySender.pacing. destruct (0 <? pps).
    - rewrite list_elem_of_singleton. done.
    - apply not_elem_of_nil. }
  destruct (negb (send_ok i)).
  { injection Hrun as <- <- <-.
    rewrite elem_of_app, !elem_of_cons, elem_of_nil in Hin.
    destruct Hin as [Hin|[?|[?|?]]]; try done. by apply Hnp in Hin. }
  destruct (Istream.eof infile1).
  - injection Hrun as <- <- <-.
    rewrite elem_of_app, !elem_of_cons, elem_of_nil in Hin.
    destruct Hin as [Hin|[?|[[= <-]|?]]]; try done. by apply Hnp in Hin.
  - destruct (LegacySender.send_loop _ _ _ fuel (S i) infile1 (u32_succ seq))
      as [[[k0 seq0] tr0]|] eqn:Hrec; [|done].
    cbn in Hrun. injection Hrun as <- <- <-.
    rewrite elem_of_app, elem_of_cons in Hin.
    destruct Hin as [Hin|[?|Hin]]; [by apply Hnp in Hin|done|].
    by eapply IH.
Qed.

Lemma legacy_marker_repeats :
  LegacySender.run 0 (λ _, false) (λ _, true) [x01]
  = Some [Sendto (LegacySender.header 1 FLAG_FINAL ++ [x01]); Stderr (MsgSentFinal 1);
          Sendto (LegacySender.header 1 FLAG_FINAL); Sleep 200;
          Sendto (LegacySender.header 1 FLAG_FINAL); Sleep 200;
          Sendto (LegacySender.header 1 FLAG_FINAL); Sleep 200].
Proof. reflexivity. Qed.

End SenderProofs.

(** ** Delivery order and the round trip *)

Module OrderProofs.

Import Receiver Reassembly.

(** C1.  A stream of [N] frames, frame [N] final, whose frames are
    delivered in any order and any number of times, each at least once:
    the bytes written to the sink of the stream are the payloads in
    sequence order.  The stream is one the receiver accepts and whose
    sink can be opened; payloads fit a datagram. *)
Theorem in_order_output cfg can_open sid N pl (ds : list (Z * Z)) :
  is_u32 sid → 1 ≤ N ≤ u32_max →
  (∀ k, (length (pl k) ≤ PAYLOAD_SIZE)%nat) →
  subscribed cfg sid = true →
  single_to_stdout cfg = true ∨ can_open (file_name (out_pattern cfg) sid) = true →
  (∀ k, k ∈ ds.*2 ↔ 1 ≤ k ≤ N) →
  sink_bytes cfg sid (run cfg can_open (deliver sid N pl <$> ds))
  = concat (pl <$> seqZ 1 N).
Proof. intros. by apply reassembly. Qed.

Lemma in_order_output_witness :
  sink_bytes ReceiverProofs.cfg_one 42
    (run ReceiverProofs.cfg_one ReceiverProofs.any_path
       (deliver 42 3 (λ k, [byte_of_Z k])
          <$> [(0, 3); (5, 1); (6, 3); (7, 2); (9, 1)]))
  = concat ((λ k, [byte_of_Z k]) <$> seqZ 1 3).
Proof.
  apply in_order_output.
  - vm_compute. split; [discriminate | reflexivity].
  - vm_compute. split; discriminate.
  - intros k. simpl. unfold PAYLOAD_SIZE. lia.
  - reflexivity.
  - right. reflexivity.
  - intros k. simpl. rewrite !elem_of_cons, elem_of_nil. lia.
Defined.

End OrderProofs.

Module RoundTrip.

Import Receiver Reassembly SenderProofs.

Lemma datagrams_app tr1 tr2 : datagrams (tr1 ++ tr2) = datagrams tr1 ++ datagrams tr2.
Proof. unfold datagrams. apply omap_app. Qed.

Lemma datagrams_pacing pps : datagrams (Sender.pacing pps) = [].
Proof. unfold Sender.pacing. by destruct (0 <? pps). Qed.

(** The chunks of a file of three full chunks. *)
Definition chunk3 (src : list byte) (k : Z) : list byte :=
  if k =? 1 then take PAYLOAD_SIZE src
  else if k =? 2 then take PAYLOAD_SIZE (drop PAYLOAD_SIZE src)
  else if k =? 3 then drop (2 * PAYLOAD_SIZE) src
  else [].

Lemma chunk3_concat src :
  chunk3 src 1 ++ chunk3 src 2 ++ chunk3 src 3 = src.
Proof.
  unfold chunk3. cbn [Z.eqb Pos.eqb].
  replace (2 * PAYLOAD_SIZE)%nat with (PAYLOAD_SIZE + PAYLOAD_SIZE)%nat by lia.
  by rewrite <- drop_drop, !take_drop.
Qed.

Lemma chunk3_length src k :
  length src = (3 * PAYLOAD_SIZE)%nat →
  (length (chunk3 src k) ≤ PAYLOAD_SIZE)%nat
  ∧ (1 ≤ k ≤ 3 → length (chunk3 src k) = PAYLOAD_SIZE).
Proof.
  intros Hlen. unfold chunk3.
  repeat case_match; rewrite ?length_take, ?length_drop, ?Hlen; cbn [length]; lia.
Qed.

(** The sender on a file of three full chunks, without interruption and
    without a failing [sendto]. *)
Lemma run_three_chunks sid pps src :
  length src = (3 * PAYLOAD_SIZE)%nat →
  ∃ tr, Sender.run sid pps (λ _, false) (λ _, true) src = Some tr
        ∧ datagrams tr
          = [Sender.header sid 1 0 ++ chunk3 src 1;
             Sender.header sid 2 0 ++ chunk3 src 2;
             Sender.header sid 3 0 ++ chunk3 src 3;
             Sender.header sid 4 FLAG_FINAL;
             Sender.header sid 4 FLAG_FINAL;
             Sender.header sid 4 FLAG_FINAL].
Proof.
  intros Hlen. unfold Sender.run, Istream.of_file.
  pose proof (eq_refl : PAYLOAD_SIZE = 1200%nat) as HP.
  assert (Hfuel : ∃ fuel, S (length src) = S (S (S (S fuel))))
    by (exists (length src - 3)%nat; lia).
  destruct Hfuel as [fuel ->].
  assert (H1 : length (drop PAYLOAD_SIZE src) = (2 * PAYLOAD_SIZE)%nat)
    by (rewrite length_drop; lia).
  assert (H2 : length (drop PAYLOAD_SIZE (drop PAYLOAD_SIZE src)) = PAYLOAD_SIZE)
    by (rewrite length_drop; lia).
  assert (H3 : drop PAYLOAD_SIZE (drop PAYLOAD_SIZE (drop PAYLOAD_SIZE src)) = []).
  { apply nil_length_inv. rewrite length_drop. lia. }
  rewrite send_loop_full by (done || lia).
  rewrite send_loop_full by (done || lia).
  rewrite send_loop_full by (done || lia).
  rewrite H3, (take_ge (drop PAYLOAD_SIZE (drop PAYLOAD_SIZE src))) by lia.
  rewrite send_loop_end by done.
  eexists. split; [reflexivity|].
  rewrite !datagrams_app, !datagrams_pacing. cbn [app].
  unfold chunk3. cbn [Z.eqb Pos.eqb].
  replace (2 * PAYLOAD_SIZE)%nat with (PAYLOAD_SIZE + PAYLOAD_SIZE)%nat by lia.
  rewrite <- drop_drop. reflexivity.
Qed.

(** C4.  A file of exactly three full chunks is sent as the frames 1, 2
    and 3, each with 1200 bytes and without the final flag, followed by
    the empty final-flagged frame 4 (three times).  Whenever [recv]
    returns nothing but datagrams that were sent and timeouts, and
    returns each datagram that was sent at least once (no loss), the
    receiver writes the file to the sink of the stream: in whatever
    order the datagrams arrive, however often each of them arrives and
    whatever the clock shows. *)
Theorem chunking_round_trip cfg can_open sid pps src :
  is_u32 sid →
  length src = (3 * PAYLOAD_SIZE)%nat →
  subscribed cfg sid = true →
  single_to_stdout cfg = true ∨ can_open (file_name (out_pattern cfg) sid) = true →
  ∃ tr, Sender.run sid pps (λ _, false) (λ _, true) src = Some tr
        ∧ datagrams tr
          = [Sender.header sid 1 0 ++ chunk3 src 1;
             Sender.header sid 2 0 ++ chunk3 src 2;
             Sender.header sid 3 0 ++ chunk3 src 3;
             Sender.header sid 4 FLAG_FINAL;
             Sender.header sid 4 FLAG_FINAL;
             Sender.header sid 4 FLAG_FINAL]
        ∧ length (chunk3 src 1) = PAYLOAD_SIZE
        ∧ length (chunk3 src 2) = PAYLOAD_SIZE
        ∧ length (chunk3 src 3) = PAYLOAD_SIZE
        ∧ ∀ evs : list event,
            (∀ ev, ev ∈ evs →
               (∃ now, ev = EvTimeout now)
               ∨ ∃ now dgram, ev = EvDatagram now dgram ∧ dgram ∈ datagrams tr) →
            (∀ dgram, dgram ∈ datagrams tr → ∃ now, EvDatagram now dgram ∈ evs) →
            sink_bytes cfg sid (run cfg can_open evs) = src.
Proof.
  intros Hsid Hlen Hsub Hsink.
  destruct (run_three_chunks sid pps src Hlen) as (tr & Hrun & Hd).
  exists tr. split; [done|]. split; [done|].
  split; [by apply chunk3_length; [|lia]|].
  split; [by apply chunk3_length; [|lia]|].
  split; [by apply chunk3_length; [|lia]|].
  intros evs Hsent Hall.
  assert (Hfr : datagrams tr = frame_of sid 4 (chunk3 src) <$> [1; 2; 3; 4; 4; 4])
    by exact Hd.
  assert (Hfits : ∀ k, (length (chunk3 src k) ≤ PAYLOAD_SIZE)%nat)
    by (intros k; by apply chunk3_length).
  assert (H4 : 1 ≤ 4 ≤ u32_max) by done.
  rewrite (reassembly_events cfg can_open sid 4 (chunk3 src) Hsid H4 Hfits Hsub Hsink).
  - change (seqZ 1 4) with [1; 2; 3; 4]. cbn [fmap list_fmap concat].
    change (chunk3 src 4) with (@nil byte).
    rewrite <- (chunk3_concat src) at 4. by rewrite !app_nil_r.
  - apply Forall_forall. intros ev Hev.
    destruct (Hsent ev Hev) as [[now ->]|(now & dgram & -> & Hin)]; [done|].
    rewrite Hfr in Hin. apply list_elem_of_fmap in Hin as (k & -> & Hk).
    exists k. split; [|done]. rewrite !elem_of_cons, elem_of_nil in Hk. lia.
  - intros k Hk.
    destruct (Hall (frame_of sid 4 (chunk3 src) k)) as [now Hin].
    { rewrite Hfr. apply list_elem_of_fmap. exists k. split; [done|].
      rewrite !elem_of_cons. lia. }
    apply list_elem_of_omap. exists (EvDatagram now (frame_of sid 4 (chunk3 src) k)).
    split; [done|]. by rewrite (frame_of_decode sid 4 (chunk3 src) Hsid H4 Hfits k Hk).
Qed.

Lemma chunking_round_trip_witness :
  let src := replicate 3600 x07 in
  ∃ tr, Sender.run 42 0 (λ _, false) (λ _, true) src = Some tr
        ∧ datagrams tr
          = [Sender.header 42 1 0 ++ chunk3 src 1;
             Sender.header 42 2 0 ++ chunk3 src 2;
             Sender.header 42 3 0 ++ chunk3 src 3;
             Sender.header 42 4 FLAG_FINAL;
             Sender.header 42 4 FLAG_FINAL;
             Sender.header 42 4 FLAG_FINAL]
        ∧ length (chunk3 src 1) = PAYLOAD_SIZE
        ∧ length (chunk3 src 2) = PAYLOAD_SIZE
        ∧ length (chunk3 src 3) = PAYLOAD_SIZE
        ∧ sink_bytes ReceiverProofs.cfg_one 42
            (run ReceiverProofs.cfg_one ReceiverProofs.any_path
               [EvDatagram 0 (Sender.header 42 4 FLAG_FINAL);
                EvDatagram 1 (Sender.header 42 3 0 ++ chunk3 src 3);
                EvTimeout 2;
                EvDatagram 3 (Sender.header 42 1 0 ++ chunk3 src 1);
                EvDatagram 4 (Sender.header 42 3 0 ++ chunk3 src 3);
                EvDatagram 5 (Sender.header 42 2 0 ++ chunk3 src 2)])
          = src.
Proof.
  intros src.
  destruct (chunking_round_trip ReceiverProofs.cfg_one ReceiverProofs.any_path
              42 0 src) as (tr & Hrun & Hd & H1 & H2 & H3 & Hall).
  - vm_compute. split; [discriminate | reflexivity].
  - vm_compute. reflexivity.
  - reflexivity.
  - right. reflexivity.
  - exists tr. split; [exact Hrun|]. split; [exact Hd|].
    split; [exact H1|]. split; [exact H2|]. split; [exact H3|].
    apply Hall.
    + intros ev Hev. rewrite Hd. rewrite !elem_of_cons, elem_of_nil in Hev.
      destruct Hev as [->|[->|[->|[->|[->|[->|[]]]]]]];
        [right|right|left; by eexists|right|right|right];
        (eexists _, _; split; [reflexivity|]; rewrite !elem_of_cons; tauto).
    + intros dgram Hin. rewrite Hd in Hin. rewrite !elem_of_cons, elem_of_nil in Hin.
      destruct Hin as [->|[->|[->|[->|[->|[->|[]]]]]]];
        [exists 3|exists 5|exists 1|exists 0|exists 0|exists 0];
        rewrite !elem_of_cons; tauto.
Defined.

End RoundTrip.

(** ** A frame delivered twice *)

Module DedupProofs.

Import Receiver ReceiverInv ReceiverProofs.

(** *** The loop body does not read the clock of the final marker *)

Definition untimed (st : StreamState) : StreamState :=
  mkStream (expected st) (buffer st) (final_seen st) (final_seq st) 0
    (fout st) (has_file st).

Lemma untimed_fields st :
  expected (untimed st) = expected st ∧ buffer (untimed st) = buffer st
  ∧ final_seen (untimed st) = final_seen st ∧ final_seq (untimed st) = final_seq st
  ∧ fout (untimed st) = fout st ∧ has_file (untimed st) = has_file st.
Proof. done. Qed.







(** *** What a stream keeps of the frames it has seen *)

(** Frame [k] has been dealt with: it is below [expected] or in the
    buffer. *)
Definition seen (k : Z) (st : StreamState) : Prop :=
  k < expected st ∨ is_Some (buffer st !! k).

(** No frame with the last sequence number is buffered, so [expected]
    does not wrap. *)
Definition no_last (st : StreamState) : Prop := buffer st !! u32_max = None.

(** A final frame [q] is the final marker seen last, or stale. *)
Definition final_is (q : Z) (st : StreamState) : Prop :=
  q < expected st ∨ (final_seen st = true ∧ final_seq st = q).

Lemma drain_mono fuel ts st :
  is_u32 (expected st) → no_last st →
  let st' := (drain fuel ts st).1 in
  expected st ≤ expected st' ∧ (∀ k, seen k st → seen k st') ∧ no_last st'.
Proof.
  revert st. induction fuel as [|fuel IH]; intros st He Hn; [by cbn|].
  cbn [drain]. destruct (buffer st !! expected st) as [bs|] eqn:Hlk; [|by cbn].
  destruct (emit_nonempty_shape ts bs st) as (f & Hshape & _).
  destruct (emit_nonempty ts bs st) as [st1 o1]. cbn [fst] in Hshape. subst st1.
  fields.
  assert (Hlt : expected st < u32_max).
  { destruct (decide (expected st = u32_max)) as [E|E].
    - unfold no_last in Hn. rewrite E in Hlk. congruence.
    - unfold is_u32, u32_max in *. lia. }
  match goal with
  | |- context [drain fuel ts ?s] =>
      specialize (IH s); destruct (drain fuel ts s) as [st3 o3]
  end.
  cbn [fst] in IH |- *. fields in IH.
  rewrite u32_succ_small in IH by done.
  destruct IH as (H1 & H2 & H3).
  - unfold is_u32, u32_max in *. lia.
  - unfold no_last. fields. by rewrite lookup_delete_ne by lia.
  - split; [lia|]. split; [|done]. intros k Hk. apply H2.
    unfold seen in *. fields.
    destruct (decide (k = expected st)) as [->|Hne]; [left; lia|].
    rewrite lookup_delete_ne by done. destruct Hk; [left; lia | by right].
Qed.

Lemma reassemble_mono ts seq bs st :
  is_u32 (expected st) → no_last st → seq ≠ u32_max → expected st ≤ seq →
  let st' := (reassemble ts seq bs st).1 in
  expected st ≤ expected st' ∧ (∀ k, seen k st → seen k st')
  ∧ seen seq st' ∧ no_last st'.
Proof.
  intros He Hn Hseq Hle. unfold reassemble.
  destruct (seq =? expected st) eqn:Heq.
  - apply Z.eqb_eq in Heq. subst seq.
    destruct (emit_nonempty_shape ts bs st) as (f & Hshape & _).
    destruct (emit_nonempty ts bs st) as [st1 o1]. cbn [fst] in Hshape. subst st1.
    fields.
    assert (Hlt : expected st < u32_max) by (unfold is_u32, u32_max in *; lia).
    match goal with
    | |- context [drain ?n ts ?s] =>
        pose proof (drain_mono n ts s) as Hd; destruct (drain n ts s) as [st3 o3]
    end.
    cbn [fst] in Hd |- *. fields in Hd. rewrite u32_succ_small in Hd by done.
    destruct Hd as (H1 & H2 & H3); [unfold is_u32, u32_max in *; lia | done |].
    split; [lia|]. split; [|split; [|done]].
    + intros k Hk. apply H2. unfold seen in *. fields.
      destruct Hk; [left; lia | by right].
    + apply H2. left. fields. lia.
  - apply Z.eqb_neq in Heq.
    destruct (buffer st !! seq) as [old|] eqn:Hlk; cbn [fst].
    + split; [lia|]. split; [done|]. split; [|done]. right. by rewrite Hlk.
    + split; [fields; lia|]. split; [|split].
      * intros k Hk. unfold seen in *. fields. destruct Hk as [?|Hk]; [by left|].
        right. destruct (decide (k = seq)) as [->|Hne].
        -- by rewrite lookup_insert_eq.
        -- by rewrite lookup_insert_ne.
      * right. fields. by rewrite lookup_insert_eq.
      * unfold no_last in *. fields. by rewrite lookup_insert_ne.
Qed.

Lemma close_file_fields st :
  expected (close_file st) = expected st ∧ buffer (close_file st) = buffer st
  ∧ final_seen (close_file st) = final_seen st
  ∧ final_seq (close_file st) = final_seq st
  ∧ has_file (close_file st) = has_file st.
Proof. unfold close_file. by destruct (_ && _). Qed.

(** What one frame through [ingest] keeps and establishes, as long as
    it does not carry the last sequence number. *)
Lemma ingest_mono ts sid seq fl now bs st :
  is_u32 (expected st) → no_last st → seq ≠ u32_max →
  let st' := (ingest ts sid seq fl now bs st).1.1 in
  expected st ≤ expected st'
  ∧ (∀ k, seen k st → seen k st')
  ∧ seen seq st' ∧ no_last st'
  ∧ (∀ q, final_is q st → (has_final fl = true → seq = q) → final_is q st')
  ∧ (has_final fl = true → final_is seq st').
Proof.
  intros He Hn Hseq. unfold ingest.
  destruct (seq <? expected st) eqn:Hlt; cbn [fst].
  { apply Z.ltb_lt in Hlt. split; [lia|]. split; [done|]. split; [by left|].
    split; [done|]. split; [done|]. intros _. by left. }
  apply Z.ltb_ge in Hlt.
  pose proof (reassemble_mono ts seq bs st He Hn Hseq Hlt) as Hm.
  pose proof (reassemble_fields ts seq bs st) as Hf.
  destruct (reassemble ts seq bs st) as [st1 o1]. cbn [fst] in Hm, Hf.
  destruct Hm as (M1 & M2 & M3 & M4). destruct Hf as (F1 & F2 & _).
  assert (∃ st2 o2, mark_final sid seq fl now st1 = (st2, o2)
            ∧ expected st2 = expected st1 ∧ buffer st2 = buffer st1
            ∧ (has_final fl = true → final_seen st2 = true ∧ final_seq st2 = seq)
            ∧ (has_final fl = false →
               final_seen st2 = final_seen st ∧ final_seq st2 = final_seq st))
    as (st2 & o2 & -> & E1 & E2 & E3 & E4).
  { unfold mark_final. destruct (has_final fl); eexists _, _; (split; [done|]);
      fields; repeat split; try done; congruence. }
  assert (∃ st', (if stream_done st2
                  then (close_file st2,
                        o1 ++ o2 ++ [Cerr (MsgFinished sid (expected st2) (final_seq st2))],
                        true)
                  else (st2, o1 ++ o2, false)).1.1 = st'
                 ∧ expected st' = expected st2 ∧ buffer st' = buffer st2
                 ∧ final_seen st' = final_seen st2 ∧ final_seq st' = final_seq st2)
    as (st' & -> & C1 & C2 & C3 & C4).
  { destruct (stream_done st2); eexists; (split; [reflexivity|]); cbn [fst];
      [|done]. by destruct (close_file_fields st2) as (? & ? & ? & ? & ?). }
  split; [lia|]. split; [|split; [|split; [|split]]].
  - intros k Hk. specialize (M2 k Hk). unfold seen in *. by rewrite C1, C2, E1, E2.
  - unfold seen in *. by rewrite C1, C2, E1, E2.
  - unfold no_last in *. by rewrite C2, E2.
  - intros q [Hq|[Hq1 Hq2]] Hfl; [left; lia|].
    right. rewrite C3, C4. destruct (has_final fl) eqn:Hh.
    + destruct (E3 eq_refl) as [G1 G2]. rewrite G1, G2. split; [done|]. by apply Hfl.
    + destruct (E4 eq_refl) as [G1 G2]. rewrite G1, G2. done.
  - intros Hh. right. rewrite C3, C4. by apply E3.
Qed.

(** The deliveries of a run: clock readings and datagrams. *)
Definition deliveries (ds : list (Z * list byte)) : list event :=
  (λ d, EvDatagram d.1 d.2) <$> ds.


Section Clock.

Variable cfg : config.
Variable can_open : string → bool.









End Clock.

(** *** The second copy of a frame *)

Lemma open_sink_fields cfg can_open sid st :
  let st' := (open_sink cfg can_open sid st).1 in
  expected st' = expected st ∧ buffer st' = buffer st
  ∧ final_seen st' = final_seen st ∧ final_seq st' = final_seq st.
Proof.
  unfold open_sink. destruct (has_file st); [done|].
  destruct (single_to_stdout cfg); [done|]. by destruct (Ofstream.failed _).
Qed.


Section Dup.

Variable cfg : config.
Variable can_open : string → bool.
(** The stream, the sequence number and the final bit of the frame that
    is delivered twice. *)
Variable sid : Z.
Variable q : Z.
Variable final_bit : bool.











End Dup.



(** The flush after the loop adds nothing to the sink of a stream. *)
Lemma run_sink cfg can_open evs sid :
  sink_bytes cfg sid (run cfg can_open evs)
  = sink_bytes cfg sid (run_loop cfg can_open evs ∅).
Proof.
  unfold run.
  pose proof (run_loop_ok cfg can_open evs ∅
                (streams_ok_empty cfg can_open) (still_waiting_empty cfg)) as H.
  destruct (run_loop cfg can_open evs ∅) as [[s o] x]. destruct H as [Hs _].
  destruct x; [|done]. unfold sink_bytes. cbn [fst snd].
  destruct (single_to_stdout cfg); [done|].
  unfold shutdown, stream_at. rewrite lookup_fmap.
  destruct (s !! sid) as [st|] eqn:Hlk; [|done]. cbn.
  unfold shutdown_stream.
  rewrite flush_rest_none
    by (apply keys_above_none; by destruct (Hs _ _ Hlk) as [[? _] _]).
  unfold close_file. destruct (_ && _); [|done].
  unfold Ofstream.close. fields. by destruct (Ofstream.is_open (fout st)).
Qed.


Lemma deliveries_app ds1 ds2 :
  deliveries (ds1 ++ ds2) = deliveries ds1 ++ deliveries ds2.
Proof. unfold deliveries. apply fmap_app. Qed.




(** Nor may [recv] time out between the two copies of a final marker.
    Eleven seconds after the final marker 2 the timeout clears
    [final_seen]; the second copy sets it again, so the stream is
    completed (and the loop left) once frames 1 and 2 are written, and
    frame 3 is not received any more. *)
Lemma duplicate_final_after_timeout :
  sink_bytes cfg_one 42
    (run cfg_one any_path
       [final 42 2 [x02]; EvTimeout 11000000000; final 42 2 [x02];
        data 42 1 [x01]; data 42 3 [x03]])
  = [x01; x02]
  ∧ sink_bytes cfg_one 42
      (run cfg_one any_path
         [final 42 2 [x02]; EvTimeout 11000000000;
          data 42 1 [x01]; data 42 3 [x03]])
    = [x01; x02; x03].
Proof. split; vm_compute; reflexivity. Qed.

(** Nor after them: the second copy of the final marker, five seconds
    after the first, sets [final_at] anew, so the timeout at eleven
    seconds finds the marker six seconds old and leaves [final_seen]
    set. *)
Lemma duplicate_final_before_timeout :
  sink_bytes cfg_one 42
    (run cfg_one any_path
       [final 42 2 [x02];
        EvDatagram 5000000000 (Sender.header 42 2 FLAG_FINAL ++ [x02]);
        EvTimeout 11000000000; data 42 1 [x01]; data 42 3 [x03]])
  = [x01; x02]
  ∧ sink_bytes cfg_one 42
      (run cfg_one any_path
         [final 42 2 [x02];
          EvTimeout 11000000000; data 42 1 [x01]; data 42 3 [x03]])
    = [x01; x02; x03].
Proof. split; vm_compute; reflexivity. Qed.

End DedupProofs.

(** ** The single-stream receiver at the finalization timeout *)

Module LegacyProofs.

Import LegacyReceiver.

(** Frames 1, 2 and the final frame 4, then a timeout eleven seconds
    after the final marker: the single-stream receiver reports
    [expected = 3], the final sequence 4 and one buffered entry, leaves
    the loop and closes its output, which holds frames 1 and 2. *)
Lemma legacy_timeout_reports_gap :
  run 10
    [EvDatagram 0 (LegacySender.header 1 0 ++ [x01]);
     EvDatagram 0 (LegacySender.header 2 0 ++ [x02]);
     EvDatagram 0 (LegacySender.header 4 FLAG_FINAL ++ [x04]);
     EvTimeout 11000000000]
  = (mkState 3 {[ 4 := [x04] ]} true 4 0 [x01; x02] true,
     [MsgFinalSeen 4; MsgTimeout 3 4 1], true).
Proof. vm_compute. reflexivity. Qed.

(** The size of the buffer is fuel enough for the flush. *)
Lemma legacy_drain_exits fuel st :
  (size (buffer st) ≤ fuel)%nat →
  buffer (drain fuel st) !! expected (drain fuel st) = None.
Proof.
  revert st. induction fuel as [|fuel IH]; intros st Hsz.
  - cbn. assert (buffer st = ∅) as -> by (apply map_size_empty_inv; lia).
    apply lookup_empty.
  - cbn [drain]. destruct (buffer st !! expected st) as [bs|] eqn:Hlk; [|done].
    apply IH. cbn. rewrite map_size_delete, Hlk. lia.
Qed.

End LegacyProofs.

(** * Further properties of the programs *)

(** ** The header codec, both ways *)

Module CodecRoundTrip.

Import Receiver DecodeFacts.

Lemma byte_of_Z_val (z : Z) (b : byte) : z mod 256 = byte_val b → byte_of_Z z = b.
Proof.
  intros H. unfold byte_of_Z. rewrite H. unfold byte_val.
  by rewrite N2Z.id, Byte.of_to_N.
Qed.

(** The four bytes of a word, most significant first, are stored as they
    are. *)
Lemma store_be32_bytes (a b c d : byte) :
  store_be32 (byte_val a * 2 ^ 24 + byte_val b * 2 ^ 16 + byte_val c * 2 ^ 8 + byte_val d)
  = [a; b; c; d].
Proof.
  pose proof (byte_val_range a). pose proof (byte_val_range b).
  pose proof (byte_val_range c). pose proof (byte_val_range d).
  unfold store_be32.
  change (2 ^ 24) with 16777216. change (2 ^ 16) with 65536. change (2 ^ 8) with 256.
  f_equal; [|f_equal; [|f_equal; [|f_equal]]];
    apply byte_of_Z_val; Z.div_mod_to_equations; lia.
Qed.

(** X1.  The big-endian word codec is a bijection between [uint32_t]
    values and groups of four bytes: a stored word is read back
    unchanged, whatever follows it, and four bytes that are read as a
    word are stored again as the same four bytes. *)
Theorem be32_round_trip (v : Z) (a b c d : byte) (tl : list byte) :
  is_u32 v →
  load_be32 (store_be32 v ++ tl) 0 = v
  ∧ store_be32 (load_be32 (a :: b :: c :: d :: tl) 0) = [a; b; c; d].
Proof.
  intros Hv. split; [by apply load_store_be32|].
  unfold load_be32. cbn [nth Nat.add]. apply store_be32_bytes.
Qed.

Lemma be32_round_trip_witness :
  load_be32 (store_be32 305419896 ++ [x07]) 0 = 305419896
  ∧ store_be32 (load_be32 [x12; x34; x56; x78; x07] 0) = [x12; x34; x56; x78].
Proof.
  apply (be32_round_trip 305419896 x12 x34 x56 x78 [x07]).
  vm_compute. split; [discriminate | reflexivity].
Defined.

(** X2.  A frame as the sender builds it (three header words, then a
    payload of at most 1200 bytes) is read by the receiver as the frame
    with that stream id, sequence number, flags word and payload. *)
Theorem frame_encode_decode (sid seq fl : Z) (bs : list byte) :
  is_u32 sid → is_u32 seq → is_u32 fl → (length bs ≤ PAYLOAD_SIZE)%nat →
  decode (recv (Sender.header sid seq fl ++ bs)) = Some (mkFrame sid seq fl bs).
Proof. apply decode_header. Qed.

Lemma frame_encode_decode_witness :
  decode (recv (Sender.header 42 7 FLAG_FINAL ++ [x01; x02]))
  = Some (mkFrame 42 7 FLAG_FINAL [x01; x02]).
Proof.
  apply frame_encode_decode.
  - vm_compute. split; [discriminate | reflexivity].
  - vm_compute. split; [discriminate | reflexivity].
  - vm_compute. split; [discriminate | reflexivity].
  - unfold PAYLOAD_SIZE. simpl. lia.
Defined.

(** X3.  A datagram that fits the receive buffer and that the receiver
    decodes is the encoding of the decoded frame: writing the three
    header words as the sender does and appending the payload gives the
    datagram back, so decoding loses nothing. *)
Theorem frame_decode_encode (dgram : list byte) (fr : frame) :
  (length dgram ≤ MAX_PKT)%nat →
  decode (recv dgram) = Some fr →
  Sender.header (stream_id fr) (sequence fr) (flags fr) ++ payload fr = dgram.
Proof.
  intros Hlen. unfold recv. rewrite take_ge by done. unfold decode.
  destruct (length dgram <? HDR_LEN)%nat eqn:Hl; [done|].
  apply Nat.ltb_ge in Hl. intros [= <-]. cbn [stream_id sequence flags payload].
  do 12 (destruct dgram as [|? dgram]; [cbn in Hl; unfold HDR_LEN in Hl; lia|]).
  unfold Sender.header, load_be32. cbn [nth Nat.add].
  rewrite !store_be32_bytes. reflexivity.
Qed.

Lemma frame_decode_encode_witness :
  Sender.header 42 7 1 ++ [x09]
  = [x00; x00; x00; x2a; x00; x00; x00; x07; x00; x00; x00; x01; x09].
Proof.
  apply (frame_decode_encode
           [x00; x00; x00; x2a; x00; x00; x00; x07; x00; x00; x00; x01; x09]
           (mkFrame 42 7 1 [x09])).
  - unfold MAX_PKT, HDR_LEN, PAYLOAD_SIZE. simpl. lia.
  - vm_compute. reflexivity.
Defined.

End CodecRoundTrip.

(** ** What the receive loop keeps, and when it is left *)

Module LoopProofs.

Import Receiver ReceiverInv ReceiverProofs.

(** A receiver started with [-s all] and one started with [-s 1,2]. *)
Definition cfg_all : config := mkConfig true ∅ "stream_{id}.mp4" 10.
Definition cfg_two : config := mkConfig false {[1; 2]} "stream_{id}.mp4" 10.

Lemma run_loop_reach cfg can_open evs (s : gmap Z StreamState) o x :
  run_loop cfg can_open evs ∅ = (s, o, x) → streams_ok cfg can_open s.
Proof.
  intros Hrun.
  pose proof (run_loop_ok cfg can_open evs ∅
                (streams_ok_empty cfg can_open) (still_waiting_empty cfg)) as H.
  rewrite Hrun in H. apply H.
Qed.

(** X4.  The receiver holds a stream state only for stream ids it is
    subscribed to: whatever it receives, every stream of the map passes
    the subscription test, and with a subscription list ([-s id1,id2])
    the ids of the map are among the listed ones, so there are at most
    as many stream states as listed ids. *)
Theorem streams_are_subscribed cfg can_open evs (s : gmap Z StreamState) o x :
  run_loop cfg can_open evs ∅ = (s, o, x) →
  (∀ sid, is_Some (s !! sid) → subscribed cfg sid = true)
  ∧ (subscribe_all cfg = false →
     dom s ⊆ subs cfg ∧ (size s ≤ size (subs cfg))%nat).
Proof.
  intros Hrun. pose proof (run_loop_reach _ _ _ _ _ _ Hrun) as Hok.
  assert (Hsub : ∀ sid, is_Some (s !! sid) → subscribed cfg sid = true).
  { intros sid [st Hst]. by destruct (Hok sid st Hst). }
  split; [done|]. intros Hall.
  assert (Hdom : dom s ⊆ subs cfg).
  { intros sid Hin. apply elem_of_dom in Hin.
    by apply subscribed_elem, Hsub. }
  split; [done|]. rewrite <- size_dom. by apply subseteq_size.
Qed.

Lemma streams_are_subscribed_witness :
  let s := (run_loop cfg_two any_path
              [data 1 1 [x01]; data 3 1 [x03]; data 2 5 [x02]] ∅).1.1 in
  (∀ sid, is_Some (s !! sid) → subscribed cfg_two sid = true)
  ∧ dom s ⊆ subs cfg_two ∧ (size s ≤ size (subs cfg_two))%nat.
Proof.
  intros s.
  assert (Hrun : run_loop cfg_two any_path
                   [data 1 1 [x01]; data 3 1 [x03]; data 2 5 [x02]] ∅
                 = (s, (run_loop cfg_two any_path
                          [data 1 1 [x01]; data 3 1 [x03]; data 2 5 [x02]] ∅).1.2, false))
    by (vm_compute; reflexivity).
  split.
  - apply (proj1 (streams_are_subscribed _ _ _ _ _ _ Hrun)).
  - apply (proj2 (streams_are_subscribed _ _ _ _ _ _ Hrun)). reflexivity.
Defined.

(** X5.  In every state the loop reaches, and for every stream: the
    next expected sequence number is a [uint32_t], every buffered frame
    has a sequence number strictly above it, and so no frame is buffered
    at [expected] itself (the flush inside the loop is complete). *)
Theorem buffer_above_expected cfg can_open evs (s : gmap Z StreamState) o x sid st :
  run_loop cfg can_open evs ∅ = (s, o, x) →
  s !! sid = Some st →
  is_u32 (expected st)
  ∧ (∀ k, is_Some (buffer st !! k) → expected st < k < u32_modulus)
  ∧ buffer st !! expected st = None.
Proof.
  intros Hrun Hst. pose proof (run_loop_reach _ _ _ _ _ _ Hrun) as Hok.
  destruct (Hok sid st Hst) as [(Hk & _ & _) _].
  split; [apply Hk|]. split; [|by apply keys_above_none].
  intros k Hsome. destruct Hk as [_ Hk]. specialize (Hk k Hsome). lia.
Qed.

Lemma buffer_above_expected_witness :
  let st := mkStream 2 {[ 5 := [x05]; 3 := [x03] ]} false 0 0
              (Ofstream.mk true false [x01]) true in
  is_u32 (expected st)
  ∧ (∀ k, is_Some (buffer st !! k) → expected st < k < u32_modulus)
  ∧ buffer st !! expected st = None.
Proof.
  intros st.
  eapply (buffer_above_expected cfg_all any_path
            [data 7 5 [x05]; data 7 1 [x01]; data 7 3 [x03]] _ _ false 7 st).
  - vm_compute. reflexivity.
  - vm_compute. reflexivity.
Defined.

(** X6.  With [-s all] the loop is left on an error of [recv] and on
    nothing else: a run leaves the loop exactly when one of the returns
    of [recv] is an error other than a timeout. *)
Theorem accept_all_exit cfg can_open evs (s : gmap Z StreamState) :
  subscribe_all cfg = true →
  (run_loop cfg can_open evs s).2 = true ↔ EvError ∈ evs.
Proof.
  intros Hall. revert s. induction evs as [|ev evs IH]; intros s.
  - cbn. split; [done|]. intros H. by apply not_elem_of_nil in H.
  - cbn [run_loop]. destruct (step cfg can_open s ev) as [[s1 o1] c] eqn:Hstep.
    destruct c.
    + specialize (IH s1). destruct (run_loop cfg can_open evs s1) as [[s2 o2] ex].
      cbn [snd] in *. rewrite IH, elem_of_cons.
      split; [by right|]. intros [<-|H]; [by cbn in Hstep | done].
    + apply accept_all_never_done in Hstep as ->; [|done].
      cbn. split; [intros _; by left | done].
Qed.

Lemma accept_all_exit_witness :
  (run_loop cfg_all any_path [final 7 1 [x01]; EvTimeout 60000000000] ∅).2 = true
  ↔ EvError ∈ [final 7 1 [x01]; EvTimeout 60000000000].
Proof.
  apply (accept_all_exit cfg_all any_path). reflexivity.
Defined.

Lemma step_break cfg can_open (s s' : gmap Z StreamState) ev o :
  step cfg can_open s ev = (s', o, Break) → ev ≠ EvError →
  subscribe_all cfg = false ∧ all_done cfg s' = true.
Proof.
  destruct ev as [now dgram|now|]; cbn [step]; [| |done].
  - unfold on_datagram, on_frame. destruct (decode _); [|done].
    destruct (negb _); [done|].
    destruct (open_sink _ _ _ _) as [st1 o1].
    destruct (ingest _ _ _ _ _ _ _) as [[st2 o2] fin].
    destruct fin; [|done]. destruct (subscribe_all cfg); [done|].
    cbn [andb negb]. destruct (all_done cfg _) eqn:E; [|done].
    by intros [= <- _].
  - unfold on_timeout. destruct (subscribe_all cfg); [done|].
    cbn [andb negb]. destruct (all_done cfg _) eqn:E; [|done].
    by intros [= <- _].
Qed.

Lemma run_loop_break cfg can_open evs (s s' : gmap Z StreamState) o :
  run_loop cfg can_open evs s = (s', o, true) → EvError ∉ evs →
  subscribe_all cfg = false ∧ all_done cfg s' = true.
Proof.
  revert s o. induction evs as [|ev evs IH]; intros s o; [done|].
  cbn [run_loop]. destruct (step cfg can_open s ev) as [[s1 o1] c] eqn:Hstep.
  rewrite not_elem_of_cons. intros Hrun [Hne Hnin]. destruct c.
  - destruct (run_loop cfg can_open evs s1) as [[s2 o2] ex] eqn:Hrec.
    injection Hrun as -> _ ->. by eapply IH.
  - injection Hrun as -> _. by eapply step_break.
Qed.

(** X7.  When the receiver leaves the loop by itself (no error of
    [recv]), it was started with a subscription list and every listed
    stream is complete: its state exists, its final marker was seen,
    [expected] is past the final sequence number, and its file is
    closed. *)
Theorem self_exit_all_done cfg can_open evs (s : gmap Z StreamState) o :
  EvError ∉ evs →
  run_loop cfg can_open evs ∅ = (s, o, true) →
  subscribe_all cfg = false
  ∧ ∀ sid, sid ∈ subs cfg →
      ∃ st, s !! sid = Some st
            ∧ final_seen st = true ∧ final_seq st < expected st
            ∧ has_file st && Ofstream.is_open (fout st) = false.
Proof.
  intros Hnin Hrun.
  destruct (run_loop_break _ _ _ _ _ _ Hrun Hnin) as [Hall Hdone].
  split; [done|]. intros sid Hin.
  unfold all_done in Hdone. rewrite forallb_forall in Hdone.
  specialize (Hdone sid). rewrite <- list_elem_of_In, elem_of_elements in Hdone.
  specialize (Hdone Hin).
  destruct (s !! sid) as [st|] eqn:Hst; [|done].
  exists st. split; [done|].
  destruct (run_loop_reach _ _ _ _ _ _ Hrun sid st Hst) as [(_ & _ & Hc) _].
  unfold stream_done in Hdone. apply andb_true_iff in Hdone as [H1 H2].
  apply Z.ltb_lt in H2. split; [done|]. split; [done|].
  apply Hc. unfold stream_done. rewrite H1. cbn. by apply Z.ltb_lt.
Qed.

Lemma self_exit_all_done_witness :
  subscribe_all cfg_two = false
  ∧ ∀ sid, sid ∈ subs cfg_two →
      ∃ st, (run_loop cfg_two any_path
               [final 2 1 [x02]; data 1 1 [x01]; final 1 2 []] ∅).1.1 !! sid = Some st
            ∧ final_seen st = true ∧ final_seq st < expected st
            ∧ has_file st && Ofstream.is_open (fout st) = false.
Proof.
  eapply (self_exit_all_done cfg_two any_path
            [final 2 1 [x02]; data 1 1 [x01]; final 1 2 []]).
  - rewrite !elem_of_cons, elem_of_nil. intros [H|[H|[H|H]]]; discriminate || done.
  - vm_compute. reflexivity.
Defined.

End LoopProofs.

(** ** Receive timeouts, and a receiver without subscriptions *)

Module TimeoutProofs.

Import Receiver ReceiverInv ReceiverProofs DedupProofs.

Lemma stream_done_expire cfg now st :
  stream_done (expire cfg now st) = true → stream_done st = true.
Proof. unfold expire. by destruct (timed_out cfg now st). Qed.

Lemma all_done_expire cfg now (s : gmap Z StreamState) :
  all_done cfg (expire cfg now <$> s) = true → all_done cfg s = true.
Proof.
  unfold all_done. rewrite !forallb_forall. intros H sid Hin.
  specialize (H sid Hin). rewrite lookup_fmap in H.
  destruct (s !! sid) as [st|]; [|done]. cbn in H. by eapply stream_done_expire.
Qed.

Lemma stdout_bytes_cerr {A} (f : A → option output) (l : list A) :
  (∀ a x, f a = Some x → ∃ m, x = Cerr m) → stdout_bytes (omap f l) = [].
Proof.
  intros Hf. induction l as [|a l IH]; [done|].
  cbn [omap list_omap]. destruct (f a) as [x|] eqn:E; [|done].
  destruct (Hf a x E) as [m ->]. exact IH.
Qed.

(** X8.  A receive timeout never ends the loop of a receiver that
    listens for something ([-s all], or a list with at least one id):
    in every state the loop reaches, the iteration of a timeout goes on
    with the loop, writes nothing to stdout, and leaves the next
    expected sequence number, the buffer and the file of every stream as
    they are, whether a finalization timeout has run out or not. *)
Theorem timeout_never_exits cfg can_open evs (s : gmap Z StreamState) o now :
  subscribe_all cfg = true ∨ subs cfg ≠ ∅ →
  run_loop cfg can_open evs ∅ = (s, o, false) →
  ∃ s' msgs,
    on_timeout cfg now s = (s', msgs, Continue)
    ∧ stdout_bytes msgs = []
    ∧ ∀ sid, expected <$> s' !! sid = expected <$> s !! sid
             ∧ buffer <$> s' !! sid = buffer <$> s !! sid
             ∧ fout <$> s' !! sid = fout <$> s !! sid.
Proof.
  intros Hcfg Hrun. destruct (reachable_ok _ _ _ _ _ Hrun) as [_ Hw].
  unfold on_timeout. eexists _, _. split; [|split].
  - f_equal. destruct (subscribe_all cfg) eqn:Hall; [done|]. cbn [negb andb].
    destruct (all_done cfg (expire cfg now <$> s)) eqn:E; [|done].
    apply all_done_expire in E.
    destruct Hw as [?|[?|?]]; [congruence | congruence |].
    by destruct Hcfg.
  - apply stdout_bytes_cerr. intros sid x Hx.
    destruct (s !! sid) as [st|]; [|done]. cbn in Hx.
    destruct (timed_out cfg now st); [|done]. injection Hx as <-. by eexists.
  - intros sid. rewrite lookup_fmap. destruct (s !! sid) as [st|]; [|done].
    cbn. unfold expire. by destruct (timed_out cfg now st).
Qed.

Lemma timeout_never_exits_witness :
  ∃ s' msgs,
    on_timeout cfg_one 11000000000 gap_state = (s', msgs, Continue)
    ∧ stdout_bytes msgs = []
    ∧ ∀ sid, expected <$> s' !! sid = expected <$> gap_state !! sid
             ∧ buffer <$> s' !! sid = buffer <$> gap_state !! sid
             ∧ fout <$> s' !! sid = fout <$> gap_state !! sid.
Proof.
  eapply (timeout_never_exits cfg_one any_path evs_gap gap_state _ 11000000000).
  - right. vm_compute. discriminate.
  - vm_compute. reflexivity.
Defined.

Lemma unsubscribed_all cfg sid :
  subscribe_all cfg = false → subs cfg = ∅ → subscribed cfg sid = false.
Proof.
  intros Hall Hsubs. unfold subscribed. rewrite Hall, Hsubs. cbn.
  apply bool_decide_eq_false. set_solver.
Qed.

(** X9.  A receiver started with a subscription list that holds no id
    (an empty list, or one of which no item is a number) accepts
    nothing and does not wait: every datagram is dropped without a
    stream state and without output, and the first timeout of [recv]
    ends the loop. *)
Theorem empty_subscription cfg can_open ds now :
  subscribe_all cfg = false → subs cfg = ∅ →
  run_loop cfg can_open (deliveries ds) ∅ = (∅, [], false)
  ∧ run cfg can_open (deliveries ds ++ [EvTimeout now]) = (∅, [], true).
Proof.
  intros Hall Hsubs.
  assert (Hds : run_loop cfg can_open (deliveries ds) ∅ = (∅, [], false)).
  { induction ds as [|[t dgram] ds IH]; [done|].
    cbn [deliveries fmap list_fmap run_loop step fst snd].
    unfold on_datagram, on_frame.
    destruct (decode (recv dgram)) as [fr|].
    - rewrite unsubscribed_all by done. cbn [negb].
      fold (deliveries ds). by rewrite IH.
    - fold (deliveries ds). by rewrite IH. }
  split; [done|].
  unfold run. rewrite run_loop_app, Hds. cbn [run_loop step].
  unfold on_timeout, all_done. rewrite Hall, Hsubs, fmap_empty, dom_empty_L.
  rewrite !elements_empty. reflexivity.
Qed.

Lemma empty_subscription_witness :
  run_loop (mkConfig false ∅ "stream_{id}.mp4" 10) any_path
    (deliveries [(0, Sender.header 1 1 0 ++ [x01])]) ∅ = (∅, [], false)
  ∧ run (mkConfig false ∅ "stream_{id}.mp4" 10) any_path
      (deliveries [(0, Sender.header 1 1 0 ++ [x01])] ++ [EvTimeout 5]) = (∅, [], true).
Proof.
  apply (empty_subscription (mkConfig false ∅ "stream_{id}.mp4" 10) any_path
           [(0, Sender.header 1 1 0 ++ [x01])] 5); reflexivity.
Defined.

End TimeoutProofs.

(** ** Streams side by side *)

Module DemuxProofs.

Import Receiver ReceiverInv ReceiverProofs DedupProofs.

Abbreviation file_bytes st := (Ofstream.written (fout st)).

Lemma close_file_bytes st : file_bytes (close_file st) = file_bytes st.
Proof.
  unfold close_file. destruct (_ && _); [|done].
  fields. unfold Ofstream.close. by destruct (Ofstream.is_open (fout st)).
Qed.

(** The stream a datagram belongs to, as the receiver reads it. *)
Definition for_stream (sid : Z) (d : Z * list byte) : bool :=
  match decode (recv d.2) with
  | Some fr => bool_decide (stream_id fr = sid)
  | None => false
  end.

Lemma on_datagram_other cfg can_open sid now dgram (s : gmap Z StreamState) :
  for_stream sid (now, dgram) = false →
  (on_datagram cfg can_open now dgram s).1.1 !! sid = s !! sid.
Proof.
  unfold for_stream, on_datagram. cbn [snd].
  destruct (decode (recv dgram)) as [fr|]; [|done].
  intros Hne%bool_decide_eq_false. unfold on_frame.
  destruct (negb _); [done|].
  destruct (open_sink _ _ _ _) as [st1 o1].
  destruct (ingest _ _ _ _ _ _ _) as [[st2 o2] fin].
  cbn [fst]. by rewrite lookup_insert_ne.
Qed.

Lemma single_to_stdout_all cfg : subscribe_all cfg = true → single_to_stdout cfg = false.
Proof. unfold single_to_stdout. by intros ->. Qed.

Lemma on_datagram_same cfg can_open sid now dgram (s1 s2 : gmap Z StreamState) :
  subscribe_all cfg = true →
  for_stream sid (now, dgram) = true →
  s1 !! sid = s2 !! sid →
  (on_datagram cfg can_open now dgram s1).1.1 !! sid
  = (on_datagram cfg can_open now dgram s2).1.1 !! sid.
Proof.
  intros Hall. unfold for_stream, on_datagram. cbn [snd].
  destruct (decode (recv dgram)) as [fr|]; [|done].
  intros <-%bool_decide_eq_true Heq. unfold on_frame.
  destruct (negb _); [done|].
  unfold stream_at. rewrite Heq, (single_to_stdout_all _ Hall). cbn [andb].
  destruct (open_sink _ _ _ _) as [st1 o1].
  destruct (ingest _ _ _ _ _ _ _) as [[st2 o2] fin].
  cbn [fst]. by rewrite !lookup_insert_eq.
Qed.

Lemma run_loop_datagram_all cfg can_open now dgram evs (s : gmap Z StreamState) :
  subscribe_all cfg = true →
  (run_loop cfg can_open (EvDatagram now dgram :: evs) s).1.1
  = (run_loop cfg can_open evs (on_datagram cfg can_open now dgram s).1.1).1.1.
Proof.
  intros Hall. cbn [run_loop].
  destruct (step cfg can_open s (EvDatagram now dgram)) as [[s1 o1] c] eqn:Hstep.
  destruct c.
  - cbn [step] in Hstep. rewrite Hstep. cbn [fst].
    by destruct (run_loop cfg can_open evs s1) as [[s2 o2] ex].
  - by apply accept_all_never_done in Hstep.
Qed.

Lemma demux_local cfg can_open sid ds : ∀ s1 s2 : gmap Z StreamState,
  subscribe_all cfg = true → s1 !! sid = s2 !! sid →
  (run_loop cfg can_open (deliveries ds) s1).1.1 !! sid
  = (run_loop cfg can_open (deliveries (List.filter (for_stream sid) ds)) s2).1.1 !! sid.
Proof.
  induction ds as [|[now dgram] ds IH]; intros s1 s2 Hall Heq; [done|].
  cbn [List.filter]. unfold deliveries at 1. cbn [fmap list_fmap fst snd].
  fold (deliveries ds). rewrite run_loop_datagram_all by done.
  destruct (for_stream sid (now, dgram)) eqn:Hfor.
  - unfold deliveries at 2. cbn [fmap list_fmap fst snd].
    fold (deliveries (List.filter (for_stream sid) ds)).
    rewrite run_loop_datagram_all by done.
    apply IH; [done|]. by apply on_datagram_same.
  - apply IH; [done|]. by rewrite on_datagram_other.
Qed.

(** X11.  Demultiplexing isolation.  A datagram changes the state of
    no stream but the one whose id it carries, in every mode; and with
    [-s all] the state of a stream (next expected sequence number,
    buffer, final marker, file and the bytes written to it) after any
    succession of datagrams is the state it has when the datagrams of
    the other streams, and those too short to decode, are left out. *)
Theorem demux_isolation cfg can_open sid :
  (∀ now dgram (s : gmap Z StreamState),
     for_stream sid (now, dgram) = false →
     (on_datagram cfg can_open now dgram s).1.1 !! sid = s !! sid)
  ∧ (subscribe_all cfg = true →
     ∀ ds (s : gmap Z StreamState),
       (run_loop cfg can_open (deliveries ds) s).1.1 !! sid
       = (run_loop cfg can_open
            (deliveries (List.filter (for_stream sid) ds)) s).1.1 !! sid).
Proof.
  split.
  - intros now dgram s. apply on_datagram_other.
  - intros Hall ds s. by apply demux_local.
Qed.

Lemma demux_isolation_witness :
  (run_loop LoopProofs.cfg_all any_path
     (deliveries [(0, Sender.header 7 1 0 ++ [x01]); (1, Sender.header 8 1 0 ++ [x08]);
                  (2, [x00]); (3, Sender.header 7 2 1 ++ [x02])]) ∅).1.1 !! 7
  = (run_loop LoopProofs.cfg_all any_path
       (deliveries (List.filter (for_stream 7)
          [(0, Sender.header 7 1 0 ++ [x01]); (1, Sender.header 8 1 0 ++ [x08]);
           (2, [x00]); (3, Sender.header 7 2 1 ++ [x02])])) ∅).1.1 !! 7.
Proof.
  apply (proj2 (demux_isolation LoopProofs.cfg_all any_path 7)). reflexivity.
Defined.

End DemuxProofs.

(** ** Completion of the only subscribed stream *)

Module CompletionProofs.

Import Receiver ReceiverInv ReceiverProofs Reassembly DedupProofs.

(** The completion test of [ingest] is the test on the state it
    returns. *)
Lemma ingest_fin ts sid seq fl now bs st :
  expected st ≤ seq →
  (ingest ts sid seq fl now bs st).2 = stream_done (ingest ts sid seq fl now bs st).1.1.
Proof.
  intros Hle. unfold ingest.
  assert ((seq <? expected st) = false) as -> by by apply Z.ltb_ge.
  destruct (reassemble ts seq bs st) as [st1 o1].
  destruct (mark_final sid seq fl now st1) as [st2 o2].
  destruct (stream_done st2) eqn:Hd; cbn [fst snd]; [|done].
  unfold stream_done in *. destruct (close_file_fields st2) as (-> & _ & -> & -> & _).
  done.
Qed.

Lemma ingest_final_fields ts sid seq fl now bs st :
  expected st ≤ seq →
  let st' := (ingest ts sid seq fl now bs st).1.1 in
  if has_final fl then final_seen st' = true ∧ final_seq st' = seq
  else final_seen st' = final_seen st ∧ final_seq st' = final_seq st.
Proof.
  intros Hle. unfold ingest.
  assert ((seq <? expected st) = false) as -> by by apply Z.ltb_ge.
  pose proof (reassemble_fields ts seq bs st) as Hf.
  destruct (reassemble ts seq bs st) as [st1 o1].
  cbn [fst] in Hf. destruct Hf as (F1 & F2 & _).
  unfold mark_final. destruct (has_final fl).
  - destruct (stream_done _); cbn [fst].
    + destruct (close_file_fields (set_final seq now st1)) as (_ & _ & -> & -> & _). done.
    + done.
  - destruct (stream_done _); cbn [fst].
    + destruct (close_file_fields st1) as (_ & _ & -> & -> & _). done.
    + done.
Qed.

Lemma ingest_closed ts sid seq fl now bs st :
  (ingest ts sid seq fl now bs st).2 = true →
  let st' := (ingest ts sid seq fl now bs st).1.1 in
  has_file st' && Ofstream.is_open (fout st') = false.
Proof.
  unfold ingest. destruct (seq <? expected st); [done|].
  destruct (reassemble ts seq bs st) as [st1 o1].
  destruct (mark_final sid seq fl now st1) as [st2 o2].
  destruct (stream_done st2) eqn:Hd; [|done]. intros _. cbn [fst].
  apply close_file_done.
  unfold stream_done in *. destruct (close_file_fields st2) as (-> & _ & -> & -> & _).
  done.
Qed.

(** The flush stops at a sequence number that is not buffered. *)
Lemma drain_not_past fuel ts st m :
  0 ≤ expected st ≤ m → m ≤ u32_max → buffer st !! m = None →
  expected (drain fuel ts st).1 ≤ m.
Proof.
  revert st. induction fuel as [|fuel IH]; intros st He Hm Hn; [cbn; lia|].
  cbn [drain]. destruct (buffer st !! expected st) as [bs|] eqn:Hlk; [|cbn; lia].
  assert (expected st ≠ m) as Hne by congruence.
  destruct (emit_nonempty_shape ts bs st) as (f & Hshape & _).
  destruct (emit_nonempty ts bs st) as [st1 o1]. cbn [fst] in Hshape. subst st1.
  fields.
  match goal with
  | |- context [drain fuel ts ?s] =>
      specialize (IH s); destruct (drain fuel ts s) as [st3 o3]
  end.
  cbn [fst] in IH |- *. apply IH; fields; [|done|].
  - rewrite u32_succ_small; [lia | | lia].
    unfold is_u32, u32_max, u32_modulus in *. lia.
  - by rewrite lookup_delete_ne.
Qed.

Lemma ingest_not_past ts sid seq fl now bs st m :
  0 ≤ expected st ≤ m → m ≤ u32_max → buffer st !! m = None → seq ≠ m →
  expected (ingest ts sid seq fl now bs st).1.1 ≤ m.
Proof.
  intros He Hm Hn Hne. unfold ingest.
  destruct (seq <? expected st); [cbn; lia|].
  assert (Hre : expected (reassemble ts seq bs st).1 ≤ m).
  { unfold reassemble. destruct (seq =? expected st) eqn:Heq.
    - apply Z.eqb_eq in Heq.
      destruct (emit_nonempty_shape ts bs st) as (f & Hshape & _).
      destruct (emit_nonempty ts bs st) as [st1 o1]. cbn [fst] in Hshape. subst st1.
      match goal with
      | |- context [drain ?n ts ?s] =>
          pose proof (drain_not_past n ts s m) as Hd;
          destruct (drain n ts s) as [st3 o3]
      end.
      cbn [fst] in Hd |- *. apply Hd; fields; [|done|done].
      rewrite u32_succ_small; [lia | | lia].
      unfold is_u32, u32_max, u32_modulus in *. lia.
    - destruct (buffer st !! seq); cbn; lia. }
  destruct (reassemble ts seq bs st) as [st1 o1]. cbn [fst] in Hre.
  unfold mark_final. destruct (has_final fl).
  - destruct (stream_done _); cbn [fst];
      rewrite ?(proj1 (close_file_fields _)); exact Hre.
  - destruct (stream_done _); cbn [fst];
      rewrite ?(proj1 (close_file_fields _)); exact Hre.
Qed.

Section Single.

Variable cfg : config.
Variable can_open : string → bool.
Variable sid : Z.
Variable N : Z.
Variable pl : Z → list byte.

Hypothesis sid_u32 : is_u32 sid.
Hypothesis N_range : 1 ≤ N < u32_max.
Hypothesis pl_fits : ∀ k, (length (pl k) ≤ PAYLOAD_SIZE)%nat.
Hypothesis listed : subscribe_all cfg = false.
Hypothesis only_one : subs cfg = {[ sid ]}.
Hypothesis sink_opens :
  single_to_stdout cfg = true ∨ can_open (file_name (out_pattern cfg) sid) = true.

Lemma N_le : 1 ≤ N ≤ u32_max.
Proof. lia. Qed.

Lemma sid_subscribed : subscribed cfg sid = true.
Proof.
  unfold subscribed. rewrite listed, only_one. cbn.
  apply bool_decide_eq_true. set_solver.
Qed.

Lemma all_done_single st : all_done cfg {[ sid := st ]} = stream_done st.
Proof.
  unfold all_done. rewrite only_one, elements_singleton. cbn.
  by rewrite lookup_singleton_eq, andb_true_r.
Qed.

(** The loop is running: no stream yet, or the one stream with frames
    missing; the final marker has been seen if frame [N] was
    delivered. *)
Definition running (D : list Z) (s : gmap Z StreamState) (so : list byte) : Prop :=
  (s = ∅ ∧ D = [] ∧ so = [])
  ∨ ∃ st, s = {[ sid := st ]} ∧ active cfg N pl D st so ∧ (expected st ∉ D)
          ∧ (N ∈ D → final_seen st = true).

(** The stream is complete and closed. *)
Definition completed (st : StreamState) (so : list byte) : Prop :=
  finished cfg N pl st so ∧ final_seen st = true ∧ final_seq st = N
  ∧ N < expected st ∧ has_file st && Ofstream.is_open (fout st) = false.

Lemma running_open D s so :
  running D s so →
  ∃ st1 o1, open_sink cfg can_open sid (stream_at s sid) = (st1, o1)
            ∧ stdout_bytes o1 = []
            ∧ active cfg N pl D st1 so ∧ (expected st1 ∉ D)
            ∧ (N ∈ D → final_seen st1 = true)
            ∧ ∀ st', <[sid := st']> s = {[ sid := st' ]}.
Proof.
  intros [(-> & -> & ->)|(st & -> & Hact & Hnin & Htr)].
  - rewrite stream_at_none by apply lookup_empty.
    destruct (open_first cfg can_open sid N pl N_le sink_opens) as (st1 & o1 & H1 & H2 & H3).
    exists st1, o1. split; [done|]. split; [done|].
    destruct H3 as [[Hact Hnin]|Hfin].
    + split; [done|]. split; [done|]. split; [|intros st'; apply insert_empty].
      intros Hin. by apply not_elem_of_nil in Hin.
    + exfalso. apply (fin_range _ _ _ _ _ Hfin).
      pose proof (open_sink_fields cfg can_open sid new_stream) as Hf.
      rewrite H1 in Hf. cbn [fst] in Hf. destruct Hf as (-> & _). cbn. lia.
  - rewrite (stream_at_some _ _ st) by apply lookup_singleton_eq.
    destruct (open_again cfg can_open sid N pl sink_opens D st so) as (o1 & H1 & H2).
    { left. by split. }
    exists st, o1. split; [done|]. split; [done|]. split; [done|].
    split; [done|]. split; [done|]. intros st'. apply insert_singleton_eq.
Qed.

(** One delivery while the loop is running: the loop goes on running,
    or the frame completes the stream and the loop is left. *)
Lemma step_running D s so k now :
  (∀ k, k ∈ D → 1 ≤ k ≤ N) → 1 ≤ k ≤ N → running D s so →
  ∃ st' o c,
    on_datagram cfg can_open now (frame_of sid N pl k) s = ({[ sid := st' ]}, o, c)
    ∧ match c with
      | Continue => running (D ++ [k]) {[ sid := st' ]} (so ++ stdout_bytes o)
      | Break => completed st' (so ++ stdout_bytes o)
      end.
Proof.
  intros HD Hk Hrun. unfold on_datagram.
  rewrite (frame_of_decode sid N pl sid_u32 N_le pl_fits) by done.
  unfold on_frame. cbn [stream_id sequence flags payload].
  rewrite sid_subscribed. cbn [negb].
  destruct (running_open D s so Hrun) as (st1 & o1 & -> & Ho1 & Hact & Hnin & Htr & Hins).
  rewrite !Hins, map_size_singleton. cbn [Nat.eqb]. rewrite andb_true_r.
  destruct (ingest_good cfg can_open sid N pl N_le sink_opens D st1 so k now HD Hk)
    as (st' & o & fin & Hing & Hg & Hf); [left; by split|].
  pose proof (act_range _ _ _ _ _ _ Hact) as Hr.
  pose proof (flag_final N k) as Hflag.
  destruct (decide (k < expected st1)) as [Hstale|Hns].
  - assert (Hlt : (k <? expected st1) = true) by by apply Z.ltb_lt.
    unfold ingest in Hing. rewrite Hlt in Hing. injection Hing as <- <- <-.
    unfold ingest. rewrite Hlt, !Hins. cbn [andb].
    eexists st1, _, _. split; [reflexivity|].
    rewrite stdout_bytes_app, Ho1. cbn [app].
    right. exists st1. split; [done|].
    destruct Hg as [[Ha Hn]|Hfin]; [|by destruct (fin_range _ _ _ _ _ Hfin)].
    split; [done|]. split; [done|].
    rewrite elem_of_app, list_elem_of_singleton. intros [Hin|E]; [by apply Htr | lia].
  - assert (Hle : expected st1 ≤ k) by lia.
    pose proof (ingest_fin (single_to_stdout cfg) sid k
                  (if k =? N then FLAG_FINAL else 0) now (pl k) st1 Hle) as Hfin.
    pose proof (ingest_final_fields (single_to_stdout cfg) sid k
                  (if k =? N then FLAG_FINAL else 0) now (pl k) st1 Hle) as Hff.
    pose proof (ingest_closed (single_to_stdout cfg) sid k
                  (if k =? N then FLAG_FINAL else 0) now (pl k) st1) as Hcl.
    assert (Hnl : no_last st1).
    { unfold no_last. destruct (buffer st1 !! u32_max) as [x|] eqn:E; [|done].
      destruct (proj1 (act_keys _ _ _ _ _ _ Hact u32_max) (ex_intro _ _ E)) as [Hin _].
      apply HD in Hin. lia. }
    assert (Hu : is_u32 (expected st1))
      by (unfold is_u32, u32_max, u32_modulus in *; lia).
    pose proof (ingest_mono (single_to_stdout cfg) sid k
                  (if k =? N then FLAG_FINAL else 0) now (pl k) st1 Hu Hnl) as Hmono.
    pose proof (ingest_not_past (single_to_stdout cfg) sid k
                  (if k =? N then FLAG_FINAL else 0) now (pl k) st1 N) as Hnp.
    rewrite Hing in Hfin, Hff, Hcl, Hmono, Hnp. rewrite Hing, !Hins.
    cbn [fst snd] in Hfin, Hff, Hcl, Hmono, Hnp.
    rewrite Hflag in Hff.
    destruct Hmono as (Hge & _); [lia|].
    rewrite listed, all_done_single. cbn [negb]. rewrite andb_true_r.
    eexists st', _, _. split; [reflexivity|].
    rewrite stdout_bytes_app, Ho1. cbn [app].
    assert (Htr' : N ∈ D ++ [k] → final_seen st' = true ∧ final_seq st' = N).
    { rewrite elem_of_app, list_elem_of_singleton.
      destruct (k =? N) eqn:Hk'.
      - apply Z.eqb_eq in Hk'. intros _. by rewrite <- Hk'.
      - apply Z.eqb_neq in Hk'. intros [Hin|E]; [|congruence].
        destruct Hff as [-> ->]. split; [by apply Htr|].
        apply (act_final _ _ _ _ _ _ Hact). by apply Htr. }
    destruct Hg as [[Ha Hn]|Hfd].
    + assert (Hd : stream_done st' = false).
      { unfold stream_done. destruct (final_seen st') eqn:Hs; [|done].
        rewrite (act_final _ _ _ _ _ _ Ha Hs). cbn.
        apply Z.ltb_ge. apply (act_range _ _ _ _ _ _ Ha). }
      rewrite Hfin, Hd. cbn [andb].
      right. exists st'. split; [done|]. split; [done|]. split; [done|].
      intros Hin. by apply Htr'.
    + assert (Hin : N ∈ D ++ [k]).
      { destruct (decide (N ∈ D ++ [k])) as [?|Hout]; [done|]. exfalso.
        rewrite elem_of_app, list_elem_of_singleton in Hout.
        apply (fin_range _ _ _ _ _ Hfd). split; [lia|]. apply Hnp; [lia|lia| |].
        - destruct (buffer st1 !! N) as [x|] eqn:E; [|done].
          destruct (proj1 (act_keys _ _ _ _ _ _ Hact N) (ex_intro _ _ E)) as [? _].
          exfalso. apply Hout. by left.
        - intros ->. apply Hout. by right. }
      destruct (Htr' Hin) as [Hs Hq].
      assert (Hpast : N < expected st').
      { pose proof (fin_range _ _ _ _ _ Hfd). lia. }
      assert (Hd : stream_done st' = true).
      { unfold stream_done. rewrite Hs, Hq. cbn. by apply Z.ltb_lt. }
      rewrite Hfin, Hd. cbn [andb].
      split; [done|]. split; [done|]. split; [done|]. split; [done|].
      apply Hcl. by rewrite Hfin.
Qed.

Lemma run_loop_running ds : ∀ D s so,
  (∀ k, k ∈ D → 1 ≤ k ≤ N) → (∀ k, k ∈ ds.*2 → 1 ≤ k ≤ N) → running D s so →
  ∃ s' o exited,
    run_loop cfg can_open (deliver sid N pl <$> ds) s = (s', o, exited)
    ∧ if exited
      then ∃ st, s' = {[ sid := st ]} ∧ completed st (so ++ stdout_bytes o)
      else running (D ++ ds.*2) s' (so ++ stdout_bytes o).
Proof.
  induction ds as [|[now k] ds IH]; intros D s so HD Hds Hinv.
  - exists s, [], false. split; [done|]. cbn. by rewrite !app_nil_r.
  - cbn [fmap list_fmap run_loop step deliver fst snd].
    assert (Hk : 1 ≤ k ≤ N) by (apply Hds; cbn; left).
    destruct (step_running D s so k now HD Hk Hinv) as (st' & o & c & -> & Hc).
    destruct c.
    + destruct (IH (D ++ [k]) {[ sid := st' ]} (so ++ stdout_bytes o))
        as (s2 & o2 & ex & Hrun & Hres).
      * intros k'. rewrite elem_of_app, list_elem_of_singleton. intros [?| ->]; auto.
      * intros k' Hin. apply Hds. cbn. by right.
      * done.
      * fold (fmap (M := list) (deliver sid N pl) ds). rewrite Hrun.
        exists s2, (o ++ o2), ex. split; [done|].
        rewrite stdout_bytes_app, app_assoc.
        cbn [fmap list_fmap fst snd].
        rewrite <- (app_assoc D [k]) in Hres. exact Hres.
    + exists {[ sid := st' ]}, o, true. split; [done|]. exists st'. auto.
Qed.

Lemma completes (ds : list (Z * Z)) :
  (∀ k, k ∈ ds.*2 ↔ 1 ≤ k ≤ N) →
  ∃ st o,
    run cfg can_open (deliver sid N pl <$> ds) = ({[ sid := st ]}, o, true)
    ∧ final_seen st = true ∧ final_seq st = N ∧ N < expected st
    ∧ has_file st && Ofstream.is_open (fout st) = false.
Proof.
  intros Hds.
  destruct (run_loop_running ds [] ∅ []) as (s' & o & ex & Hrun & Hres).
  { intros k Hin. by apply not_elem_of_nil in Hin. }
  { intros k Hin. by apply Hds. }
  { by left. }
  unfold run. rewrite Hrun. cbn [app] in Hres. destruct ex.
  - destruct Hres as (st & -> & Hfd & Hs & Hq & Hpast & Hcl).
    exists (close_file st), o. unfold shutdown, shutdown_stream.
    rewrite map_fmap_singleton, flush_rest_none by apply Hfd.
    split; [done|].
    destruct (close_file_fields st) as (-> & _ & -> & -> & _).
    split; [done|]. split; [done|]. split; [done|].
    unfold close_file. by rewrite Hcl.
  - exfalso. destruct Hres as [(_ & Hnil & _)|(st & _ & Hact & Hnin & _)].
    + assert (1 ∈ ds.*2) as Hin by (apply Hds; lia).
      rewrite Hnil in Hin. by apply not_elem_of_nil in Hin.
    + apply Hnin. apply Hds. apply (act_range _ _ _ _ _ _ Hact).
Qed.

End Single.

(** X12.  Natural completion.  A receiver subscribed to the single
    stream [sid] receives a stream of [N] frames, frame [N] final, in
    any order and any number of times, each frame at least once, and no
    timeout in between.  Then the loop is left by itself, at the
    delivery that completes the stream: the final marker is [N],
    [expected] is past it, and the file of the stream is closed.  [N] is
    below [0xFFFFFFFF], so that [expected] does not wrap. *)
Theorem natural_completion cfg can_open sid N pl (ds : list (Z * Z)) :
  is_u32 sid → 1 ≤ N < u32_max →
  (∀ k, (length (pl k) ≤ PAYLOAD_SIZE)%nat) →
  subscribe_all cfg = false → subs cfg = {[ sid ]} →
  single_to_stdout cfg = true ∨ can_open (file_name (out_pattern cfg) sid) = true →
  (∀ k, k ∈ ds.*2 ↔ 1 ≤ k ≤ N) →
  ∃ st o,
    run cfg can_open (deliver sid N pl <$> ds) = ({[ sid := st ]}, o, true)
    ∧ final_seen st = true ∧ final_seq st = N ∧ N < expected st
    ∧ has_file st && Ofstream.is_open (fout st) = false.
Proof. intros. by apply completes. Qed.

Lemma natural_completion_witness :
  ∃ st o,
    run cfg_one any_path
      (deliver 42 3 (λ k, [byte_of_Z k]) <$> [(0, 3); (5, 1); (6, 3); (7, 2)])
    = ({[ 42 := st ]}, o, true)
    ∧ final_seen st = true ∧ final_seq st = 3 ∧ 3 < expected st
    ∧ has_file st && Ofstream.is_open (fout st) = false.
Proof.
  apply natural_completion.
  - vm_compute. split; [discriminate | reflexivity].
  - vm_compute. split; [discriminate | reflexivity].
  - intros k. simpl. unfold PAYLOAD_SIZE. lia.
  - reflexivity.
  - reflexivity.
  - right. reflexivity.
  - intros k. simpl. rewrite !elem_of_cons, elem_of_nil. lia.
Defined.

End CompletionProofs.


(** ** A whole file through the sender and the receiver *)

Module FileTransfer.

Import Receiver ReceiverInv ReceiverProofs Reassembly DedupProofs SenderProofs RoundTrip.

(** The datagrams of the chunks [cs], numbered from [seq] on, without
    the final flag. *)
Fixpoint data_frames (sid seq : Z) (cs : list (list byte)) : list (list byte) :=
  match cs with
  | [] => []
  | c :: cs' => (Sender.header sid seq 0 ++ c) :: data_frames sid (seq + 1) cs'
  end.

(** The datagram of the short last chunk, if there is one. *)
Definition last_frame (sid seq : Z) (last : list byte) : list (list byte) :=
  match last with
  | [] => []
  | _ :: _ => [Sender.header sid seq FLAG_FINAL ++ last]
  end.

(** The sequence number after the chunks [cs] and the last chunk. *)
Definition next_seq (seq : Z) (cs : list (list byte)) (last : list byte) : Z :=
  seq + Z.of_nat (length cs) + (match last with [] => 0 | _ :: _ => 1 end).

Lemma datagrams_cons d tr : datagrams (Sendto d :: tr) = d :: datagrams tr.
Proof. reflexivity. Qed.

(** The loop of the sender on what is left of the file, when no signal
    arrives and no [sendto] fails: full chunks without the final flag,
    then the short last chunk with it, if the file does not end on a
    chunk boundary. *)
Lemma send_loop_shape sid pps fuel : ∀ rest i seq,
  (length rest < fuel)%nat → 0 ≤ seq →
  Z.of_nat (length rest) < Z.of_nat PAYLOAD_SIZE * (u32_max - seq) →
  ∃ cs last k tr,
    Sender.send_loop sid pps (λ _, false) (λ _, true) fuel i
      (Istream.mk rest false false) seq
    = Some (k, next_seq seq cs last, tr)
    ∧ datagrams tr
      = data_frames sid seq cs ++ last_frame sid (seq + Z.of_nat (length cs)) last
    ∧ concat cs ++ last = rest
    ∧ Forall (λ c, length c = PAYLOAD_SIZE) cs
    ∧ (length last < PAYLOAD_SIZE)%nat.
Proof.
  pose proof (eq_refl : PAYLOAD_SIZE = 1200%nat) as HP.
  induction fuel as [|fuel IH]; intros rest i seq Hfuel Hseq Hbound; [lia|].
  destruct (decide (PAYLOAD_SIZE ≤ length rest)%nat) as [Hfull|Hshort].
  - rewrite send_loop_full by done.
    assert (Hs : u32_succ seq = seq + 1).
    { apply u32_succ_small; unfold is_u32, u32_max, u32_modulus in *; lia. }
    rewrite Hs.
    destruct (IH (drop PAYLOAD_SIZE rest) (S i) (seq + 1))
      as (cs & last & k & tr & Hrun & Hd & Hcat & Hall & Hlast).
    { rewrite length_drop. lia. }
    { lia. }
    { rewrite length_drop. lia. }
    rewrite Hrun. cbn [mbind option_bind].
    exists (take PAYLOAD_SIZE rest :: cs), last, k.
    eexists. split; [|split; [|split; [|split]]].
    + f_equal. f_equal. f_equal. unfold next_seq. cbn [length]. lia.
    + rewrite datagrams_app, datagrams_pacing. cbn [app].
      rewrite datagrams_cons, Hd. cbn [data_frames app length].
      do 3 f_equal. lia.
    + cbn [concat]. by rewrite <- app_assoc, Hcat, take_drop.
    + apply Forall_cons. split; [|done]. rewrite length_take. lia.
    + done.
  - destruct rest as [|b rest].
    + rewrite send_loop_end by done.
      exists [], [], (S i), [].
      split; [|split; [done|split; [done|split; [done|cbn [length]; lia]]]].
      unfold next_seq. cbn [length]. do 3 f_equal. lia.
    + rewrite send_loop_short by (done || lia).
      assert (Hs : u32_succ seq = seq + 1).
      { apply u32_succ_small; unfold is_u32, u32_max, u32_modulus in *;
          cbn [length] in Hbound; lia. }
      rewrite Hs. exists [], (b :: rest), (S i). eexists.
      split; [|split; [|split; [|split]]].
      * unfold next_seq. cbn [length]. do 3 f_equal. lia.
      * rewrite datagrams_app, datagrams_pacing. cbn [app length data_frames last_frame].
        rewrite datagrams_cons. do 3 f_equal. lia.
      * done.
      * done.
      * lia.
Qed.

(** The whole run of the sender. *)
Lemma run_shape sid pps src :
  Z.of_nat (length src) < Z.of_nat PAYLOAD_SIZE * (u32_max - 1) →
  ∃ cs last tr,
    Sender.run sid pps (λ _, false) (λ _, true) src = Some tr
    ∧ concat cs ++ last = src
    ∧ Forall (λ c, length c = PAYLOAD_SIZE) cs
    ∧ (length last < PAYLOAD_SIZE)%nat
    ∧ datagrams tr
      = data_frames sid 1 cs ++ last_frame sid (1 + Z.of_nat (length cs)) last
        ++ replicate 3 (Sender.header sid (next_seq 1 cs last) FLAG_FINAL).
Proof.
  intros Hbound.
  destruct (send_loop_shape sid pps (S (length src)) src 0%nat 1)
    as (cs & last & k & tr & Hrun & Hd & Hcat & Hall & Hlast); [lia|lia|done|].
  exists cs, last. eexists. unfold Sender.run, Istream.of_file.
  rewrite Hrun. cbn [mbind option_bind].
  split; [reflexivity|]. split; [done|]. split; [done|]. split; [done|].
  rewrite datagrams_app, Hd, <- app_assoc. reflexivity.
Qed.

(** *** The receiver on frames that arrive in order *)

Section InOrder.

Variable cfg : config.
Variable can_open : string → bool.
Variable sid : Z.

Hypothesis sid_u32 : is_u32 sid.
Hypothesis sid_subscribed : subscribed cfg sid = true.
Hypothesis sink_opens :
  single_to_stdout cfg = true ∨ can_open (file_name (out_pattern cfg) sid) = true.

(** The receiver holds no stream yet, or the one stream with an empty
    buffer: [e] is the next expected sequence number and [X] what the
    sink holds.  With [w] the sink can be written and no final marker
    has been seen. *)
Definition tidy (w : bool) (e : Z) (X : list byte)
    (s : gmap Z StreamState) (so : list byte) : Prop :=
  (s = ∅ ∧ e = 1 ∧ X = [] ∧ so = [])
  ∨ ∃ st, s = {[ sid := st ]} ∧ expected st = e ∧ buffer st = ∅
          ∧ sink_kind cfg st ∧ cur_sink cfg so st = X
          ∧ (w = true → writable cfg st ∧ final_seen st = false).

Lemma open_kind st :
  sink_kind cfg st →
  ∃ o1, open_sink cfg can_open sid st = (st, o1) ∧ stdout_bytes o1 = [].
Proof.
  intros Hk. unfold open_sink, sink_kind in *.
  destruct (single_to_stdout cfg) eqn:Hs; rewrite Hk.
  - eexists. rewrite <- Hk at 1. rewrite set_has_file_same. done.
  - by eexists.
Qed.

Lemma open_new :
  ∃ st1 o1, open_sink cfg can_open sid new_stream = (st1, o1)
            ∧ stdout_bytes o1 = []
            ∧ expected st1 = 1 ∧ buffer st1 = ∅
            ∧ writable cfg st1 ∧ final_seen st1 = false
            ∧ cur_sink cfg [] st1 = [].
Proof.
  unfold open_sink, writable, sink_kind, cur_sink. cbn [has_file new_stream].
  destruct (single_to_stdout cfg) eqn:Hs.
  - eexists _, _. split; [reflexivity|]. cbn. done.
  - destruct sink_opens as [?|Ho]; [congruence|]. rewrite Ho. cbn.
    eexists _, _. split; [reflexivity|]. cbn. done.
Qed.

Lemma sink_kind_keep st st' :
  has_file st' = has_file st → sink_kind cfg st → sink_kind cfg st'.
Proof. unfold sink_kind. by intros ->. Qed.

Lemma writable_keep st st' :
  has_file st' = has_file st → fout st' = fout st → writable cfg st → writable cfg st'.
Proof. unfold writable, sink_kind. by intros -> ->. Qed.

Lemma cur_sink_close so st : cur_sink cfg so (close_file st) = cur_sink cfg so st.
Proof. unfold cur_sink. by rewrite DemuxProofs.close_file_bytes. Qed.

(** One frame through [ingest] when the buffer is empty and the frame
    is the expected one or an old one. *)
Lemma ingest_tidy w e seq fl c now st so :
  expected st = e → buffer st = ∅ → sink_kind cfg st →
  (w = true → writable cfg st ∧ final_seen st = false) →
  0 ≤ seq ≤ e → e ≤ u32_max → (seq = e → e < u32_max) →
  (c = [] ∨ seq < e ∨ w = true) →
  ∃ st' o fin,
    ingest (single_to_stdout cfg) sid seq fl now c st = (st', o, fin)
    ∧ expected st' = (if seq =? e then e + 1 else e)
    ∧ buffer st' = ∅ ∧ sink_kind cfg st'
    ∧ cur_sink cfg (so ++ stdout_bytes o) st'
      = cur_sink cfg so st ++ (if seq =? e then c else [])
    ∧ (w && negb (has_final fl) = true →
       fin = false ∧ writable cfg st' ∧ final_seen st' = false).
Proof.
  intros He Hb Hk Hw Hseq Hmax Hnw Hc. subst e. unfold ingest.
  set (e := expected st) in *.
  destruct (seq <? e) eqn:Hlt.
  { apply Z.ltb_lt in Hlt.
    assert ((seq =? e) = false) as -> by (apply Z.eqb_neq; lia).
    exists st, [], false. rewrite !app_nil_r.
    split; [done|]. split; [done|]. split; [done|]. split; [done|]. split; [done|].
    intros [Hw' _]%andb_true_iff. destruct (Hw Hw'). done. }
  apply Z.ltb_ge in Hlt. assert (seq = e) as -> by lia.
  rewrite Z.eqb_refl. unfold reassemble. fold e. rewrite Z.eqb_refl.
  assert (∃ f o1, emit_nonempty (single_to_stdout cfg) c st = (set_fout f st, o1)
            ∧ cur_sink cfg (so ++ stdout_bytes o1) (set_fout f st) = cur_sink cfg so st ++ c
            ∧ (writable cfg st → writable cfg (set_fout f st)))
    as (f & o1 & -> & Hsink & Hwr).
  { destruct Hc as [->|[?|Hw']]; [|lia|].
    - exists (fout st), []. cbn [emit_nonempty]. rewrite set_fout_same, !app_nil_r. done.
    - destruct (Hw Hw') as [Hwr _].
      destruct (emit_writable cfg can_open sid sink_opens c st so Hwr)
        as (f & o1 & H1 & H2 & H3).
      exists f, o1. done. }
  fields. fold e. rewrite Hb, map_size_empty. cbn [drain].
  rewrite u32_succ_small by (unfold is_u32, u32_max, u32_modulus in *; lia).
  set (st2 := set_expected (e + 1) (set_fout f st)).
  assert (Hk2 : sink_kind cfg st2) by (by apply (sink_kind_keep st)).
  assert (Hs2 : ∀ o, stdout_bytes o = [] →
            cur_sink cfg (so ++ stdout_bytes ((o1 ++ []) ++ o)) st2 = cur_sink cfg so st ++ c).
  { intros o Ho. rewrite app_nil_r, stdout_bytes_app, Ho, app_nil_r. exact Hsink. }
  unfold mark_final. destruct (has_final fl).
  - destruct (stream_done _).
    + eexists _, _, _. split; [reflexivity|].
      destruct (close_file_fields (set_final e now st2)) as (-> & -> & _ & _ & Hhf).
      split; [done|]. split; [done|]. split; [by apply (sink_kind_keep st)|].
      split; [|by rewrite andb_false_r].
      rewrite cur_sink_close. apply (Hs2 (_ :: _ :: [])). done.
    + eexists _, _, _. split; [reflexivity|].
      split; [done|]. split; [done|]. split; [done|].
      split; [|by rewrite andb_false_r]. apply (Hs2 [_]). done.
  - destruct (stream_done st2) eqn:Hd.
    + eexists _, _, _. split; [reflexivity|].
      destruct (close_file_fields st2) as (-> & -> & _ & _ & Hhf).
      split; [done|]. split; [done|]. split; [by apply (sink_kind_keep st)|].
      split; [rewrite cur_sink_close; apply (Hs2 [_]); done|].
      rewrite andb_true_r. intros Hw'. destruct (Hw Hw') as [_ Hfs].
      unfold stream_done in Hd. subst st2. fields in Hd. by rewrite Hfs in Hd.
    + eexists _, _, _. split; [reflexivity|].
      split; [done|]. split; [done|]. split; [done|].
      split; [apply (Hs2 []); done|].
      rewrite andb_true_r. intros Hw'. destruct (Hw Hw') as [Hwr' Hfs].
      split; [done|]. split; [|done].
      apply (writable_keep (set_fout f st)); [done|done|]. by apply Hwr.
Qed.

(** One datagram of the stream through the loop body. *)
Lemma on_datagram_tidy w e X s so seq fl c now :
  tidy w e X s so →
  1 ≤ e ≤ u32_max → 0 ≤ seq ≤ e → (seq = e → e < u32_max) →
  is_u32 fl → (length c ≤ PAYLOAD_SIZE)%nat →
  (c = [] ∨ seq < e ∨ w = true) →
  ∃ s' o ctl,
    on_datagram cfg can_open now (Sender.header sid seq fl ++ c) s = (s', o, ctl)
    ∧ tidy (w && negb (has_final fl)) (if seq =? e then e + 1 else e)
        (X ++ (if seq =? e then c else [])) s' (so ++ stdout_bytes o)
    ∧ (w && negb (has_final fl) = true → ctl = Continue).
Proof.
  intros Ht He Hseq Hnw Hfl Hlen Hc. unfold on_datagram.
  rewrite DecodeFacts.decode_header;
    [|done|unfold is_u32, u32_max, u32_modulus in *; lia|done|done].
  unfold on_frame. cbn [stream_id sequence flags payload].
  rewrite sid_subscribed. cbn [negb].
  assert (∃ st1 o1 w1, open_sink cfg can_open sid (stream_at s sid) = (st1, o1)
            ∧ stdout_bytes o1 = []
            ∧ expected st1 = e ∧ buffer st1 = ∅ ∧ sink_kind cfg st1
            ∧ cur_sink cfg so st1 = X
            ∧ (w1 = true → writable cfg st1 ∧ final_seen st1 = false)
            ∧ (w = true → w1 = true)
            ∧ (c = [] ∨ seq < e ∨ w1 = true)
            ∧ ∀ st', <[sid := st']> s = {[ sid := st' ]})
    as (st1 & o1 & w1 & -> & Ho1 & He1 & Hb1 & Hk1 & Hs1 & Hw1 & Hww & Hc1 & Hins).
  { destruct Ht as [(-> & -> & -> & ->)|(st & -> & H1 & H2 & H3 & H4 & H5)].
    - rewrite stream_at_none by apply lookup_empty.
      destruct open_new as (st1 & o1 & G1 & G2 & G3 & G4 & G5 & G6 & G7).
      exists st1, o1, true. split; [done|]. split; [done|]. split; [done|].
      split; [done|]. split; [apply G5|]. split; [done|]. split; [done|].
      split; [done|]. split; [by right; right|]. intros st'. apply insert_empty.
    - rewrite (stream_at_some _ _ st) by apply lookup_singleton_eq.
      destruct (open_kind st H3) as (o1 & G1 & G2).
      exists st, o1, w. split; [done|]. split; [done|]. split; [done|].
      split; [done|]. split; [done|]. split; [done|]. split; [done|].
      split; [done|]. split; [done|]. intros st'. apply insert_singleton_eq. }
  rewrite !Hins, map_size_singleton. cbn [Nat.eqb]. rewrite andb_true_r.
  destruct (ingest_tidy w1 e seq fl c now st1 so He1 Hb1 Hk1 Hw1 Hseq (proj2 He) Hnw Hc1)
    as (st' & o & fin & -> & G1 & G2 & G3 & G4 & G5).
  rewrite !Hins. eexists _, _, _. split; [reflexivity|].
  rewrite stdout_bytes_app, Ho1. cbn [app]. split.
  - right. exists st'. split; [done|]. split; [done|]. split; [done|].
    split; [done|]. split; [by rewrite G4, Hs1|].
    intros [Hw' Hnf]%andb_true_iff. apply G5. by rewrite (Hww Hw'), Hnf.
  - intros [Hw' Hnf]%andb_true_iff.
    destruct G5 as (-> & _); [by rewrite (Hww Hw'), Hnf|]. done.
Qed.

(** The full chunks, in order. *)
Lemma run_data cs : ∀ ds e X s so,
  tidy true e X s so → 1 ≤ e → e + Z.of_nat (length cs) ≤ u32_max →
  Forall (λ c, length c = PAYLOAD_SIZE) cs →
  ds.*2 = data_frames sid e cs →
  ∃ s' o,
    run_loop cfg can_open (deliveries ds) s = (s', o, false)
    ∧ tidy true (e + Z.of_nat (length cs)) (X ++ concat cs) s' (so ++ stdout_bytes o).
Proof.
  induction cs as [|c cs IH]; intros ds e X s so Ht He Hmax Hall Hds.
  - apply fmap_nil_inv in Hds as ->. exists s, []. split; [done|].
    cbn. by rewrite Z.add_0_r, !app_nil_r.
  - cbn [data_frames] in Hds.
    apply fmap_cons_inv in Hds as ([now d] & ds' & Hd & Hds' & ->).
    cbn [snd] in Hd. subst d. apply Forall_cons in Hall as [Hlc Hall].
    cbn [length] in Hmax.
    destruct (on_datagram_tidy true e X s so e 0 c now Ht) as (s1 & o1 & ctl & Hstep & Ht1 & Hctl);
      [lia|lia|lia|by vm_compute|lia|by right; right|].
    rewrite Z.eqb_refl in Ht1. change (true && negb (has_final 0)) with true in Ht1, Hctl.
    rewrite (Hctl eq_refl) in Hstep.
    destruct (IH ds' (e + 1) (X ++ c) s1 (so ++ stdout_bytes o1))
      as (s2 & o2 & Hrun & Ht2); [done|lia|lia|done|done|].
    unfold deliveries. cbn [fmap list_fmap run_loop step fst snd].
    fold (deliveries ds'). rewrite Hstep, Hrun.
    exists s2, (o1 ++ o2). split; [done|].
    rewrite stdout_bytes_app, app_assoc. cbn [concat length].
    rewrite app_assoc. replace (e + Z.of_nat (S (length cs))) with (e + 1 + Z.of_nat (length cs)) by lia.
    exact Ht2.
Qed.

(** The retransmitted markers: whether the loop goes on or not, the
    sink holds what it held. *)
Lemma run_markers n : ∀ ds m e X s so,
  tidy false e X s so → 1 ≤ e ≤ u32_max → 0 ≤ m ≤ e → (m = e → e < u32_max) →
  ds.*2 = replicate n (Sender.header sid m FLAG_FINAL) →
  ∃ s' o x e',
    run_loop cfg can_open (deliveries ds) s = (s', o, x)
    ∧ tidy false e' X s' (so ++ stdout_bytes o).
Proof.
  induction n as [|n IH]; intros ds m e X s so Ht He Hm Hnw Hds.
  - apply fmap_nil_inv in Hds as ->. exists s, [], false, e. split; [done|].
    cbn. by rewrite app_nil_r.
  - cbn [replicate] in Hds.
    apply fmap_cons_inv in Hds as ([now d] & ds' & Hd & Hds' & ->).
    cbn [snd] in Hd. subst d.
    destruct (on_datagram_tidy false e X s so m FLAG_FINAL [] now Ht)
      as (s1 & o1 & ctl & Hstep & Ht1 & _);
      [lia|lia|done|by vm_compute|cbn; lia|by left|].
    rewrite app_nil_r in Hstep. cbn [andb] in Ht1.
    assert (Hx : X ++ (if m =? e then [] else []) = X)
      by (destruct (m =? e); apply app_nil_r).
    rewrite Hx in Ht1.
    unfold deliveries. cbn [fmap list_fmap run_loop step fst snd].
    fold (deliveries ds'). rewrite Hstep. destruct ctl.
    + destruct (IH ds' m (if m =? e then e + 1 else e) X s1 (so ++ stdout_bytes o1))
        as (s2 & o2 & x & e' & Hrun & Ht2); [done| | | |done|].
      * destruct (m =? e) eqn:E; [apply Z.eqb_eq in E|]; lia.
      * destruct (m =? e) eqn:E; lia.
      * destruct (m =? e) eqn:E; [apply Z.eqb_eq in E|apply Z.eqb_neq in E]; lia.
      * rewrite Hrun. exists s2, (o1 ++ o2), x, e'. split; [done|].
        by rewrite stdout_bytes_app, app_assoc.
    + by exists s1, o1, true, (if m =? e then e + 1 else e).
Qed.

Lemma tidy_sink w e X s o x :
  tidy w e X s (stdout_bytes o) → sink_bytes cfg sid (s, o, x) = X.
Proof.
  unfold sink_bytes, cur_sink. cbn [fst snd].
  intros [(-> & _ & -> & Ho)|(st & -> & _ & _ & _ & Hs & _)].
  - rewrite Ho. by destruct (single_to_stdout cfg).
  - by rewrite (stream_at_some _ _ st) by apply lookup_singleton_eq.
Qed.

(** The frames of a file, in the order in which they were sent. *)
Lemma receive_file cs last ds :
  Z.of_nat (length cs) + 3 ≤ u32_max →
  Forall (λ c, length c = PAYLOAD_SIZE) cs → (length last < PAYLOAD_SIZE)%nat →
  ds.*2 = data_frames sid 1 cs ++ last_frame sid (1 + Z.of_nat (length cs)) last
          ++ replicate 3 (Sender.header sid (next_seq 1 cs last) FLAG_FINAL) →
  sink_bytes cfg sid (run cfg can_open (deliveries ds)) = concat cs ++ last.
Proof.
  intros Hmax Hall Hlast Hds. rewrite run_sink.
  apply fmap_app_inv in Hds as (ds1 & ds23 & H1 & H23 & ->).
  symmetry in H23. apply fmap_app_inv in H23 as (ds2 & ds3 & H2 & H3 & ->).
  symmetry in H1, H2, H3.
  destruct (run_data cs ds1 1 [] ∅ []) as (s1 & o1 & Hrun1 & Ht1);
    [by left|lia|lia|done|done|].
  cbn [app] in Ht1.
  rewrite deliveries_app, run_loop_app, Hrun1.
  set (e := 1 + Z.of_nat (length cs)) in *.
  assert (∃ s2 o2 x2 e2,
            run_loop cfg can_open (deliveries ds2) s1 = (s2, o2, x2)
            ∧ tidy false e2 (concat cs ++ last) s2 (stdout_bytes o1 ++ stdout_bytes o2)
            ∧ e2 = next_seq 1 cs last)
    as (s2 & o2 & x2 & e2 & Hrun2 & Ht2 & He2).
  { unfold last_frame, next_seq in *. destruct last as [|b last].
    - apply fmap_nil_inv in H2 as ->. exists s1, [], false, e.
      split; [done|]. rewrite !app_nil_r. split; [|subst e; lia].
      destruct Ht1 as [?|(st & G1 & G2 & G3 & G4 & G5 & _)]; [by left|].
      right. exists st. done.
    - apply fmap_cons_inv in H2 as ([now d] & ds2' & Hd & Hnil & ->).
      symmetry in Hnil. apply fmap_nil_inv in Hnil as ->. cbn [snd] in Hd. subst d.
      destruct (on_datagram_tidy true e (concat cs) s1 (stdout_bytes o1) e FLAG_FINAL
                  (b :: last) now Ht1)
        as (s2 & o2 & ctl & Hstep & Ht2 & _);
        [subst e; lia|subst e; lia|subst e; lia|by vm_compute|lia|by right; right|].
      rewrite Z.eqb_refl in Ht2. cbn [andb] in Ht2.
      change (negb (has_final FLAG_FINAL)) with false in Ht2.
      unfold deliveries. cbn [fmap list_fmap run_loop step fst snd]. rewrite Hstep.
      destruct ctl.
      + exists s2, (o2 ++ []), false, (e + 1). rewrite app_nil_r.
        split; [done|]. split; [done|]. subst e. lia.
      + exists s2, o2, true, (e + 1). split; [done|]. split; [done|]. subst e. lia. }
  rewrite deliveries_app, run_loop_app, Hrun2. destruct x2.
  { eapply tidy_sink. rewrite stdout_bytes_app. exact Ht2. }
  destruct (run_markers 3 ds3 (next_seq 1 cs last) e2 (concat cs ++ last) s2
              (stdout_bytes o1 ++ stdout_bytes o2) Ht2)
    as (s3 & o3 & x3 & e3 & Hrun3 & Ht3); [| | |done|].
  - unfold next_seq in He2. destruct last; lia.
  - unfold next_seq in *. destruct last; lia.
  - unfold next_seq in *. destruct last; lia.
  - rewrite Hrun3. eapply tidy_sink.
    rewrite !stdout_bytes_app, app_assoc. exact Ht3.
Qed.

End InOrder.

(** X13.  Chunking of any file.  Without a signal and without a
    failing [sendto], the sender cuts the file into consecutive chunks
    of 1200 bytes and a shorter rest; it sends the full chunks with the
    sequence numbers 1, 2, ... and without the final flag, then the
    rest, if it is not empty, with the next number and the final flag,
    and then three times the empty final-flagged marker with the number
    after that.  The file is smaller than 1200 * (2^32 - 2) bytes, so
    that the sequence number does not wrap. *)
Theorem sender_frames sid pps src :
  Z.of_nat (length src) < Z.of_nat PAYLOAD_SIZE * (u32_max - 1) →
  ∃ cs last tr,
    Sender.run sid pps (λ _, false) (λ _, true) src = Some tr
    ∧ concat cs ++ last = src
    ∧ Forall (λ c, length c = PAYLOAD_SIZE) cs
    ∧ (length last < PAYLOAD_SIZE)%nat
    ∧ datagrams tr
      = data_frames sid 1 cs ++ last_frame sid (1 + Z.of_nat (length cs)) last
        ++ replicate 3 (Sender.header sid (next_seq 1 cs last) FLAG_FINAL).
Proof. apply run_shape. Qed.

Lemma sender_frames_witness :
  ∃ cs last tr,
    Sender.run 42 0 (λ _, false) (λ _, true) (replicate 1201 x07) = Some tr
    ∧ concat cs ++ last = replicate 1201 x07
    ∧ Forall (λ c, length c = PAYLOAD_SIZE) cs
    ∧ (length last < PAYLOAD_SIZE)%nat
    ∧ datagrams tr
      = data_frames 42 1 cs ++ last_frame 42 (1 + Z.of_nat (length cs)) last
        ++ replicate 3 (Sender.header 42 (next_seq 1 cs last) FLAG_FINAL).
Proof.
  apply (sender_frames 42 0 (replicate 1201 x07)).
  vm_compute. reflexivity.
Defined.

Lemma length_concat_chunks (cs : list (list byte)) :
  Forall (λ c, length c = PAYLOAD_SIZE) cs →
  length (concat cs) = (length cs * PAYLOAD_SIZE)%nat.
Proof.
  induction 1 as [|c cs Hc _ IH]; [done|].
  cbn [concat length]. rewrite length_app, Hc, IH. lia.
Qed.

(** X14.  Round trip of any file.  A file sent without a signal and
    without a failing [sendto], and received as it was sent (every
    datagram, in order, at any times), is written to the sink of its
    stream byte for byte: whatever its length (empty, shorter than a
    chunk, a multiple of the chunk size or not), in file mode and in
    stdout mode, and whether or not the receiver leaves the loop before
    the retransmitted markers arrive.  The stream is one the receiver
    accepts and whose sink opens, and the file is smaller than
    1200 * (2^32 - 3) bytes, so that no sequence number wraps. *)
Theorem file_round_trip cfg can_open sid pps src :
  is_u32 sid →
  Z.of_nat (length src) < Z.of_nat PAYLOAD_SIZE * (u32_max - 2) →
  subscribed cfg sid = true →
  single_to_stdout cfg = true ∨ can_open (file_name (out_pattern cfg) sid) = true →
  ∃ tr,
    Sender.run sid pps (λ _, false) (λ _, true) src = Some tr
    ∧ ∀ ds, ds.*2 = datagrams tr →
        sink_bytes cfg sid (run cfg can_open (deliveries ds)) = src.
Proof.
  intros Hsid Hbound Hsub Hsink.
  pose proof (eq_refl : PAYLOAD_SIZE = 1200%nat) as HP.
  destruct (run_shape sid pps src) as (cs & last & tr & Hrun & Hcat & Hall & Hlast & Hd);
    [lia|].
  exists tr. split; [done|]. intros ds Hds. rewrite Hd in Hds.
  rewrite <- Hcat. apply (receive_file cfg can_open sid Hsid Hsub Hsink cs last ds);
    [|done|done|done].
  pose proof (length_concat_chunks cs Hall) as Hlen.
  rewrite <- Hcat, length_app, Hlen in Hbound. nia.
Qed.

Lemma file_round_trip_witness :
  ∃ tr,
    Sender.run 42 0 (λ _, false) (λ _, true) (replicate 1201 x07) = Some tr
    ∧ ∀ ds, ds.*2 = datagrams tr →
        sink_bytes cfg_one 42 (run cfg_one any_path (deliveries ds)) = replicate 1201 x07.
Proof.
  apply (file_round_trip cfg_one any_path 42 0 (replicate 1201 x07)).
  - vm_compute. split; [discriminate | reflexivity].
  - vm_compute. reflexivity.
  - reflexivity.
  - right. reflexivity.
Defined.

End FileTransfer.

(** ** What the sender puts on the wire, whatever happens *)

Module SenderSafety.

Import Sender SenderProofs RoundTrip.

Lemma header_length sid seq fl : length (header sid seq fl) = HDR_LEN.
Proof. reflexivity. Qed.

Lemma header_seq sid seq fl c : is_u32 seq → load_be32 (header sid seq fl ++ c) 4 = seq.
Proof.
  intros Hseq. unfold header. rewrite <- !app_assoc.
  change 4%nat with (length (store_be32 sid) + 0)%nat.
  rewrite DecodeFacts.load_be32_app. by apply load_store_be32.
Qed.

Lemma header_payload sid seq fl c : drop HDR_LEN (header sid seq fl ++ c) = c.
Proof. by rewrite <- (header_length sid seq fl), drop_app_length. Qed.

Lemma datagrams_final d m : datagrams [Sendto d; Stderr m] = [d].
Proof. reflexivity. Qed.

Lemma seqZ_succ m n : seqZ m (Z.of_nat (S n)) = m :: seqZ (m + 1) (Z.of_nat n).
Proof.
  rewrite seqZ_cons by lia. f_equal. f_equal; lia.
Qed.

(** The loop of the sender from any iteration on, with any signals and
    any failures of [sendto]. *)
Lemma send_loop_safe sid pps interrupted send_ok fuel : ∀ i rest seq k seq' tr,
  send_loop sid pps interrupted send_ok fuel i (Istream.mk rest false false) seq
  = Some (k, seq', tr) →
  0 ≤ seq → Z.of_nat (length rest) < Z.of_nat PAYLOAD_SIZE * (u32_max - seq) →
  Forall (λ d, (HDR_LEN < length d ≤ HDR_LEN + PAYLOAD_SIZE)%nat) (datagrams tr)
  ∧ concat (drop HDR_LEN <$> datagrams tr) `prefix_of` rest
  ∧ (λ d, load_be32 d 4) <$> datagrams tr = seqZ seq (Z.of_nat (length (datagrams tr)))
  ∧ seq' ≤ seq + Z.of_nat (length (datagrams tr)) ≤ seq' + 1
  ∧ seq ≤ seq' ≤ u32_max.
Proof.
  pose proof (eq_refl : PAYLOAD_SIZE = 1200%nat) as HP.
  pose proof (eq_refl : HDR_LEN = 12%nat) as HH.
  induction fuel as [|fuel IH]; intros i rest seq k seq' tr Hrun Hseq Hbound; [done|].
  assert (Hnone : ∀ s, s = seq → 
            Forall (λ d, (HDR_LEN < length d ≤ HDR_LEN + PAYLOAD_SIZE)%nat) (datagrams [])
            ∧ concat (drop HDR_LEN <$> datagrams []) `prefix_of` rest
            ∧ (λ d, load_be32 d 4) <$> datagrams [] = seqZ seq (Z.of_nat (length (datagrams [])))
            ∧ s ≤ seq + Z.of_nat (length (datagrams [])) ≤ s + 1
            ∧ seq ≤ s ≤ u32_max).
  { intros s ->. cbn. split; [done|]. split; [apply prefix_nil|]. split; [done|]. lia. }
  assert (Hone : ∀ s fl c, (s = seq ∨ s = seq + 1) → c ≠ [] →
            (length c ≤ PAYLOAD_SIZE)%nat → c `prefix_of` rest →
            Forall (λ d, (HDR_LEN < length d ≤ HDR_LEN + PAYLOAD_SIZE)%nat)
              [header sid seq fl ++ c]
            ∧ concat (drop HDR_LEN <$> [header sid seq fl ++ c]) `prefix_of` rest
            ∧ (λ d, load_be32 d 4) <$> [header sid seq fl ++ c] = seqZ seq (Z.of_nat 1)
            ∧ s ≤ seq + Z.of_nat 1 ≤ s + 1
            ∧ seq ≤ s ≤ u32_max).
  { intros s fl c Hs Hne Hlen Hpre.
    assert (length c ≠ 0%nat) by (by destruct c).
    assert (length rest ≠ 0%nat).
    { destruct Hpre as [r ->]. rewrite length_app. lia. }
    split; [|split; [|split]].
    - apply Forall_singleton. rewrite length_app, header_length. lia.
    - cbn [fmap list_fmap concat]. by rewrite header_payload, app_nil_r.
    - cbn [fmap list_fmap]. rewrite header_seq; [done|].
      unfold is_u32, u32_max, u32_modulus in *. lia.
    - lia. }
  cbn [send_loop] in Hrun. destruct (interrupted i).
  { injection Hrun as <- <- <-. by apply Hnone. }
  destruct (decide (PAYLOAD_SIZE ≤ length rest)%nat) as [Hfull|Hshort].
  - rewrite read_full in Hrun by done.
    assert (Hl : length (take PAYLOAD_SIZE rest) = PAYLOAD_SIZE)
      by (rewrite length_take; lia).
    assert (Hs : u32_succ seq = seq + 1).
    { apply ReceiverInv.u32_succ_small; unfold is_u32, u32_max, u32_modulus in *; lia. }
    destruct (take PAYLOAD_SIZE rest) as [|b chunk] eqn:E; [cbn in Hl; lia|].
    assert (E' : (length (b :: chunk) <? PAYLOAD_SIZE)%nat = false)
      by (apply Nat.ltb_ge; lia).
    rewrite E' in Hrun. cbn [Istream.eof orb] in Hrun.
    assert (Hpre : (b :: chunk) `prefix_of` rest).
    { rewrite <- E. apply prefix_take. }
    destruct (negb (send_ok i)).
    { injection Hrun as <- <- <-.
      rewrite datagrams_app, datagrams_pacing. cbn [app]. rewrite datagrams_final.
      apply Hone; [by left | done | lia | done]. }
    destruct (send_loop sid pps interrupted send_ok fuel (S i) _ (u32_succ seq))
      as [[[k0 seq0] tr0]|] eqn:Hrec; [|done].
    cbn [mbind option_bind] in Hrun. apply (inj Some) in Hrun.
    apply pair_equal_spec in Hrun as [Hrun <-].
    apply pair_equal_spec in Hrun as [<- <-]. rewrite Hs in Hrec.
    destruct (IH _ _ _ _ _ _ Hrec) as (H1 & H2 & H3 & H4 & H5); [lia| |].
    { rewrite length_drop. lia. }
    rewrite datagrams_app, datagrams_pacing. cbn [app].
    change (datagrams (Sendto ?d :: tr0)) with (d :: datagrams tr0).
    split; [|split; [|split]].
    + apply Forall_cons. split; [|done]. rewrite length_app, header_length. lia.
    + cbn [fmap list_fmap concat]. rewrite header_payload, <- E.
      rewrite <- (take_drop PAYLOAD_SIZE rest) at 2. by apply prefix_app.
    + cbn [fmap list_fmap length]. rewrite seqZ_succ, H3. f_equal.
      apply header_seq. unfold is_u32, u32_max, u32_modulus in *. lia.
    + cbn [length]. lia.
  - rewrite read_short in Hrun by lia.
    destruct rest as [|b rest].
    { injection Hrun as <- <- <-. by apply Hnone. }
    assert (E' : (length (b :: rest) <? PAYLOAD_SIZE)%nat = true)
      by (apply Nat.ltb_lt; lia).
    rewrite E' in Hrun. cbn [orb] in Hrun.
    assert (Hs : u32_succ seq = seq + 1).
    { apply ReceiverInv.u32_succ_small; unfold is_u32, u32_max, u32_modulus in *;
        cbn [length] in Hbound; lia. }
    destruct (negb (send_ok i)); injection Hrun as <- <- <-;
      rewrite datagrams_app, datagrams_pacing; cbn [app]; rewrite datagrams_final.
    + apply Hone; [by left | done | lia | done].
    + rewrite Hs. apply Hone; [by right | done | lia | done].
Qed.

Lemma datagrams_retransmit marker : datagrams (retransmit marker) = replicate 3 marker.
Proof. reflexivity. Qed.

(** X15.  Whatever happens while a file is sent (a signal at any
    moment, a [sendto] that fails), the sender terminates and what it
    hands to [sendto] is: data datagrams with a payload of 1 to 1200
    bytes, which fit the receive buffer of the receiver, carry the
    sequence numbers 1, 2, 3, ... without a gap, and whose payloads,
    put together, are a prefix of the file; then three or four identical
    empty final-flagged markers, whose sequence number is that of the
    last data datagram or the one after it.  The file is smaller than
    1200 * (2^32 - 2) bytes. *)
Theorem sender_safety sid pps interrupted send_ok src :
  Z.of_nat (length src) < Z.of_nat PAYLOAD_SIZE * (u32_max - 1) →
  ∃ ds n seq tr,
    run sid pps interrupted send_ok src = Some tr
    ∧ datagrams tr = ds ++ replicate n (header sid seq FLAG_FINAL)
    ∧ (n = 3 ∨ n = 4)%nat
    ∧ Forall (λ d, (HDR_LEN < length d ≤ HDR_LEN + PAYLOAD_SIZE)%nat) ds
    ∧ concat (drop HDR_LEN <$> ds) `prefix_of` src
    ∧ (λ d, load_be32 d 4) <$> ds = seqZ 1 (Z.of_nat (length ds))
    ∧ Z.of_nat (length ds) ≤ seq ≤ Z.of_nat (length ds) + 1.
Proof.
  intros Hbound.
  destruct (send_loop_total sid pps interrupted send_ok
              (S (length src)) 0 (Istream.of_file src) 1)
    as [[[k seq] tr] Hloop]; [done|done|cbn; lia|].
  destruct (send_loop_safe _ _ _ _ _ _ _ _ _ _ _ Hloop) as (H1 & H2 & H3 & H4 & H5);
    [lia|done|].
  exists (datagrams tr), (if interrupted k then 4%nat else 3%nat), seq.
  eexists. unfold run. rewrite Hloop. cbn [mbind option_bind].
  split; [reflexivity|]. split; [|split; [|split; [|split; [|split]]]]; try done.
  - rewrite datagrams_app. f_equal. unfold epilogue.
    rewrite datagrams_app, datagrams_retransmit. by destruct (interrupted k).
  - destruct (interrupted k); auto.
  - lia.
Qed.

Lemma sender_safety_witness :
  ∃ ds n seq tr,
    run 42 0 (λ i, (2 <=? i)%nat) (λ _, true) (replicate 3000 x07) = Some tr
    ∧ datagrams tr = ds ++ replicate n (header 42 seq FLAG_FINAL)
    ∧ (n = 3 ∨ n = 4)%nat
    ∧ Forall (λ d, (HDR_LEN < length d ≤ HDR_LEN + PAYLOAD_SIZE)%nat) ds
    ∧ concat (drop HDR_LEN <$> ds) `prefix_of` replicate 3000 x07
    ∧ (λ d, load_be32 d 4) <$> ds = seqZ 1 (Z.of_nat (length ds))
    ∧ Z.of_nat (length ds) ≤ seq ≤ Z.of_nat (length ds) + 1.
Proof.
  apply (sender_safety 42 0 (λ i, (2 <=? i)%nat) (λ _, true) (replicate 3000 x07)).
  vm_compute. reflexivity.
Defined.

End SenderSafety.

(** ** A transfer that is interrupted *)

Module InterruptProofs.

Import Receiver ReceiverInv ReceiverProofs DedupProofs SenderProofs RoundTrip FileTransfer.

(** The first [n] chunks of a file. *)
Fixpoint first_chunks (n : nat) (rest : list byte) : list (list byte) :=
  match n with
  | O => []
  | S n' => take PAYLOAD_SIZE rest :: first_chunks n' (drop PAYLOAD_SIZE rest)
  end.

Lemma first_chunks_concat n : ∀ rest,
  concat (first_chunks n rest) = take (n * PAYLOAD_SIZE) rest.
Proof.
  induction n as [|n IH]; intros rest; [done|].
  cbn [first_chunks concat]. rewrite IH, take_take_drop. f_equal.
Qed.

Lemma first_chunks_full n : ∀ rest,
  (n * PAYLOAD_SIZE ≤ length rest)%nat →
  Forall (λ c, length c = PAYLOAD_SIZE) (first_chunks n rest)
  ∧ length (first_chunks n rest) = n.
Proof.
  induction n as [|n IH]; intros rest Hlen; [done|].
  cbn [first_chunks length]. destruct (IH (drop PAYLOAD_SIZE rest)) as [H1 H2].
  { rewrite length_drop. lia. }
  split; [|by rewrite H2]. apply Forall_cons. split; [|done].
  rewrite length_take. lia.
Qed.

(** The loop of the sender when the signal is seen at the test that
    follows [n] further full chunks. *)
Lemma send_loop_interrupted sid pps interrupted n : ∀ fuel j rest seq,
  (∀ j', (j ≤ j' < j + n)%nat → interrupted j' = false) →
  interrupted (j + n)%nat = true →
  (n * PAYLOAD_SIZE ≤ length rest)%nat → (n < fuel)%nat →
  0 ≤ seq → seq + Z.of_nat n ≤ u32_max →
  ∃ tr,
    Sender.send_loop sid pps interrupted (λ _, true) fuel j
      (Istream.mk rest false false) seq
    = Some (S (j + n), seq + Z.of_nat n, tr)
    ∧ datagrams tr = data_frames sid seq (first_chunks n rest).
Proof.
  induction n as [|n IH]; intros fuel j rest seq Hbefore Hat Hlen Hfuel Hseq Hmax.
  - destruct fuel as [|fuel]; [lia|]. cbn [Sender.send_loop].
    rewrite Nat.add_0_r in Hat |- *. rewrite Hat, Z.add_0_r. by exists [].
  - destruct fuel as [|fuel]; [lia|].
    rewrite send_loop_full; [|apply Hbefore; lia|done|lia].
    rewrite u32_succ_small by (unfold is_u32, u32_max, u32_modulus in *; lia).
    destruct (IH fuel (S j) (drop PAYLOAD_SIZE rest) (seq + 1)) as (tr & Hrun & Hd).
    + intros j' Hj'. apply Hbefore. lia.
    + by replace (S j + n)%nat with (j + S n)%nat by lia.
    + rewrite length_drop. lia.
    + lia.
    + lia.
    + lia.
    + rewrite Hrun. cbn [mbind option_bind]. eexists. split.
      * do 3 f_equal; lia.
      * rewrite datagrams_app, datagrams_pacing. cbn [app].
        by rewrite datagrams_cons, Hd.
Qed.

Lemma tidy_weaken cfg sid e X s so : tidy cfg sid true e X s so → tidy cfg sid false e X s so.
Proof.
  intros [?|(st & H1 & H2 & H3 & H4 & H5 & _)]; [by left|].
  right. exists st. done.
Qed.

(** X16.  An interrupted transfer.  The signal arrives while the file
    is being sent and is seen at the loop test after [i] full chunks.
    The sender has sent these chunks as frames 1 to [i] without the
    final flag; it then sends the empty final-flagged marker with the
    next sequence number four times (once for the interruption, three
    times as retransmission) and nothing of the rest of the file.  A
    receiver that gets these datagrams in order writes the first
    [i * 1200] bytes of the file to the sink of the stream: a clean
    prefix. *)
Theorem interrupted_transfer cfg can_open sid pps src (i : nat) :
  is_u32 sid →
  (i * PAYLOAD_SIZE ≤ length src)%nat → Z.of_nat i + 1 < u32_max →
  subscribed cfg sid = true →
  single_to_stdout cfg = true ∨ can_open (file_name (out_pattern cfg) sid) = true →
  ∃ tr,
    Sender.run sid pps (λ j, (i <=? j)%nat) (λ _, true) src = Some tr
    ∧ datagrams tr
      = data_frames sid 1 (first_chunks i src)
        ++ replicate 4 (Sender.header sid (1 + Z.of_nat i) FLAG_FINAL)
    ∧ ∀ ds, ds.*2 = datagrams tr →
        sink_bytes cfg sid (run cfg can_open (deliveries ds))
        = take (i * PAYLOAD_SIZE) src.
Proof.
  intros Hsid Hlen Hmax Hsub Hsink.
  pose proof (eq_refl : PAYLOAD_SIZE = 1200%nat) as HP.
  destruct (send_loop_interrupted sid pps (λ j, (i <=? j)%nat) i
              (S (length src)) 0 src 1) as (tr & Hloop & Hd).
  { intros j' Hj'. apply Nat.leb_gt. lia. }
  { apply Nat.leb_le. lia. }
  { done. }
  { lia. }
  { lia. }
  { lia. }
  assert (Hdg : datagrams (tr ++ Sender.epilogue sid (λ j, (i <=? j)%nat) (S (0 + i))
                                   (1 + Z.of_nat i))
                = data_frames sid 1 (first_chunks i src)
                  ++ replicate 4 (Sender.header sid (1 + Z.of_nat i) FLAG_FINAL)).
  { rewrite datagrams_app, Hd. f_equal. unfold Sender.epilogue.
    assert ((i <=? S (0 + i))%nat = true) as -> by (apply Nat.leb_le; lia).
    reflexivity. }
  eexists. unfold Sender.run, Istream.of_file. rewrite Hloop.
  cbn [mbind option_bind]. split; [reflexivity|]. split; [exact Hdg|].
  intros ds Hds. rewrite Hdg in Hds. rewrite run_sink.
  apply fmap_app_inv in Hds as (ds1 & ds2 & H1 & H2 & ->).
  symmetry in H1, H2.
  destruct (first_chunks_full i src Hlen) as [Hfull Hcount].
  destruct (run_data cfg can_open sid Hsid Hsub Hsink (first_chunks i src) ds1 1 [] ∅ [])
    as (s1 & o1 & Hrun1 & Ht1); [by left|lia|lia|done|done|].
  cbn [app] in Ht1. rewrite Hcount, first_chunks_concat in Ht1.
  apply tidy_weaken in Ht1.
  destruct (run_markers cfg can_open sid Hsid Hsub Hsink 4 ds2 (1 + Z.of_nat i)
              (1 + Z.of_nat i) (take (i * PAYLOAD_SIZE) src) s1 (stdout_bytes o1) Ht1)
    as (s2 & o2 & x & e' & Hrun2 & Ht2); [lia|lia|lia|done|].
  rewrite deliveries_app, run_loop_app, Hrun1, Hrun2.
  eapply tidy_sink; [exact Hsink|]. rewrite stdout_bytes_app. exact Ht2.
Qed.

Lemma interrupted_transfer_witness :
  ∃ tr,
    Sender.run 42 0 (λ j, (2 <=? j)%nat) (λ _, true) (replicate 3000 x07) = Some tr
    ∧ datagrams tr
      = data_frames 42 1 (first_chunks 2 (replicate 3000 x07))
        ++ replicate 4 (Sender.header 42 (1 + Z.of_nat 2) FLAG_FINAL)
    ∧ ∀ ds, ds.*2 = datagrams tr →
        sink_bytes cfg_one 42 (run cfg_one any_path (deliveries ds))
        = take (2 * PAYLOAD_SIZE) (replicate 3000 x07).
Proof.
  apply (interrupted_transfer cfg_one any_path 42 0 (replicate 3000 x07) 2).
  - vm_compute. split; [discriminate | reflexivity].
  - vm_compute. lia.
  - vm_compute. reflexivity.
  - reflexivity.
  - right. reflexivity.
Defined.

End InterruptProofs.

(** ** The name of a stream's output file *)

Module FileNameProofs.

Import Receiver.

Local Open Scope string_scope.

Lemma append_cons c (a b : string) : String c a +:+ b = String c (a +:+ b).
Proof. reflexivity. Qed.

Lemma length_append (a b : string) :
  String.length (a +:+ b) = (String.length a + String.length b)%nat.
Proof.
  induction a as [|c a IH]; [done|].
  rewrite append_cons. cbn [String.length Nat.add]. by rewrite IH.
Qed.

Lemma substring_whole (s rest : string) :
  String.substring 0 (String.length s) (s +:+ rest) = s.
Proof.
  induction s as [|c s IH]; [by destruct rest|].
  rewrite append_cons. cbn [String.length String.substring]. by rewrite IH.
Qed.

Lemma substring_all (s : string) : String.substring 0 (String.length s) s = s.
Proof.
  induction s as [|c s IH]; [done|].
  cbn [String.length String.substring]. by rewrite IH.
Qed.

Lemma substring_skip (pre rest : string) (n m : nat) :
  String.substring (String.length pre + n) m (pre +:+ rest) = String.substring n m rest.
Proof.
  induction pre as [|c pre IH]; [done|].
  rewrite append_cons. cbn [String.length String.substring Nat.add]. apply IH.
Qed.

Lemma substring_at (pre x post : string) :
  String.substring (String.length pre) (String.length x) (pre +:+ x +:+ post) = x.
Proof.
  rewrite <- (Nat.add_0_r (String.length pre)), substring_skip.
  apply substring_whole.
Qed.

Lemma app_inj_r (post s1 s2 : string) : s1 +:+ post = s2 +:+ post → s1 = s2.
Proof.
  revert s2. induction s1 as [|c s1 IH]; intros [|c2 s2] H; [done| | |].
  - exfalso. apply (f_equal String.length) in H.
    rewrite !length_append in H. cbn [String.length] in H. lia.
  - exfalso. apply (f_equal String.length) in H.
    rewrite !length_append in H. cbn [String.length] in H. lia.
  - rewrite !append_cons in H. injection H as -> H. f_equal. by apply IH.
Qed.

(** The placeholder occurs in the pattern, first behind [pre]. *)
Definition first_at (pre post : string) : Prop :=
  ∀ q, (q < String.length pre)%nat →
       String.substring q 4 (pre +:+ "{id}" +:+ post) ≠ "{id}".

Lemma index_first pre post :
  first_at pre post →
  String.index 0 "{id}" (pre +:+ "{id}" +:+ post) = Some (String.length pre).
Proof.
  intros Hfirst.
  pose proof (substring_at pre "{id}" post) as Hat.
  change (String.length "{id}") with 4%nat in Hat.
  destruct (String.index 0 "{id}" (pre +:+ "{id}" +:+ post)) as [m|] eqn:E.
  - f_equal.
    pose proof (String.index_correct1 _ _ _ _ E) as H1.
    pose proof (String.index_correct2 _ _ _ _ E (String.length pre)) as H2.
    change (String.length "{id}") with 4%nat in H1, H2.
    destruct (decide (m < String.length pre)%nat) as [Hlt|Hge].
    { by destruct (Hfirst m Hlt). }
    destruct (decide (String.length pre < m)%nat) as [Hgt|Hle]; [|lia].
    exfalso. apply H2; [lia | done | done].
  - exfalso.
    apply (String.index_correct3 0 (String.length pre) _ _ E); [done | lia | done].
Qed.

Lemma file_name_subst pre post sid :
  first_at pre post →
  file_name (pre +:+ "{id}" +:+ post) sid = pre +:+ pretty sid +:+ post.
Proof.
  intros Hfirst. unfold file_name. rewrite index_first by done.
  rewrite substring_whole. f_equal. f_equal.
  rewrite !length_append. cbn [String.length].
  rewrite substring_skip.
  rewrite !append_cons. change ("" +:+ post) with post.
  cbn [String.substring].
  match goal with
  | |- String.substring 0 ?n post = post =>
      replace n with (String.length post) by lia
  end.
  apply substring_all.
Qed.

(** X17.  The file name of a stream.  A pattern in which ["{id}"]
    does not occur is the file name of every stream, unchanged.  In a
    pattern in which it occurs, the first occurrence, and only that
    one, is replaced by the stream id in decimal: the text before it
    and all the text behind it (further placeholders included) are
    kept. *)
Theorem file_name_spec :
  (∀ pattern sid,
     (∀ q, String.substring q 4 pattern ≠ "{id}") → file_name pattern sid = pattern)
  ∧ (∀ pre post sid,
       first_at pre post →
       file_name (pre +:+ "{id}" +:+ post) sid = pre +:+ pretty sid +:+ post).
Proof.
  split; [|apply file_name_subst].
  intros pattern sid Hno. unfold file_name.
  destruct (String.index 0 "{id}" pattern) as [m|] eqn:E; [|done].
  destruct (Hno m). by apply (String.index_correct1 _ _ _ _ E).
Qed.

Lemma file_name_spec_witness :
  file_name ("out_" +:+ "{id}" +:+ "_{id}.bin") 42 = "out_" +:+ pretty 42 +:+ "_{id}.bin".
Proof.
  apply (proj2 file_name_spec "out_" "_{id}.bin" 42).
  intros q Hq. cbn in Hq.
  destruct q as [|[|[|[|q]]]]; [discriminate..|lia].
Defined.

(** X18.  With a placeholder in the pattern, streams with different
    ids get different file names (so no two streams write to the same
    file); without one, all streams get the same name. *)
Theorem file_name_distinct :
  (∀ pre post sid sid',
     first_at pre post → sid ≠ sid' →
     file_name (pre +:+ "{id}" +:+ post) sid ≠ file_name (pre +:+ "{id}" +:+ post) sid')
  ∧ (∀ pattern sid sid',
       (∀ q, String.substring q 4 pattern ≠ "{id}") →
       file_name pattern sid = file_name pattern sid').
Proof.
  split.
  - intros pre post sid sid' Hfirst Hne. rewrite !file_name_subst by done.
    intros H%(inj (String.app pre))%app_inj_r. by apply Hne, (inj pretty).
  - intros pattern sid sid' Hno. unfold file_name.
    destruct (String.index 0 "{id}" pattern) as [m|] eqn:E; [|done].
    destruct (Hno m). by apply (String.index_correct1 _ _ _ _ E).
Qed.

Lemma file_name_distinct_witness :
  file_name ("stream_" +:+ "{id}" +:+ ".mp4") 7
  ≠ file_name ("stream_" +:+ "{id}" +:+ ".mp4") 8.
Proof.
  apply (proj1 file_name_distinct "stream_" ".mp4" 7 8).
  - intros q Hq. cbn in Hq.
    destruct q as [|[|[|[|[|[|[|q]]]]]]]; [discriminate..|lia].
  - discriminate.
Defined.

End FileNameProofs.

(** ** The single-stream sender and receiver *)

Module LegacyTransfer.

Import LegacyReceiver ReceiverInv DedupProofs SenderProofs.

(** The datagrams of the chunks [cs], numbered from [seq] on, without
    the final flag, as the single-stream sender builds them. *)
Fixpoint legacy_data_frames (seq : Z) (cs : list (list byte)) : list (list byte) :=
  match cs with
  | [] => []
  | c :: cs' => (LegacySender.header seq 0 ++ c) :: legacy_data_frames (seq + 1) cs'
  end.

Lemma legacy_datagrams_pacing pps : datagrams (LegacySender.pacing pps) = [].
Proof. unfold LegacySender.pacing. by destruct (0 <? pps). Qed.

(** The loop of the single-stream sender on what is left of the file,
    without a signal and without a failing [sendto]: full chunks
    without the final flag, then the rest of the file, which may be
    empty, with it. *)
Lemma legacy_send_loop_shape pps fuel : ∀ rest i seq,
  (length rest < fuel)%nat → 0 ≤ seq →
  Z.of_nat (length rest) < Z.of_nat PAYLOAD_SIZE * (u32_max - seq) →
  ∃ cs last k tr,
    LegacySender.send_loop pps (λ _, false) (λ _, true) fuel i
      (Istream.mk rest false false) seq
    = Some (k, seq + Z.of_nat (length cs), tr)
    ∧ datagrams tr
      = legacy_data_frames seq cs
        ++ [LegacySender.header (seq + Z.of_nat (length cs)) FLAG_FINAL ++ last]
    ∧ concat cs ++ last = rest
    ∧ Forall (λ c, length c = PAYLOAD_SIZE) cs
    ∧ (length last < PAYLOAD_SIZE)%nat.
Proof.
  pose proof (eq_refl : PAYLOAD_SIZE = 1200%nat) as HP.
  induction fuel as [|fuel IH]; intros rest i seq Hfuel Hseq Hbound; [lia|].
  cbn [LegacySender.send_loop Istream.eof].
  destruct (decide (PAYLOAD_SIZE ≤ length rest)%nat) as [Hfull|Hshort].
  - rewrite read_full by done. cbn [Istream.eof negb].
    assert (Hs : u32_succ seq = seq + 1).
    { apply u32_succ_small; unfold is_u32, u32_max, u32_modulus in *; lia. }
    rewrite Hs.
    destruct (IH (drop PAYLOAD_SIZE rest) (S i) (seq + 1))
      as (cs & last & k & tr & Hrun & Hd & Hcat & Hall & Hlast).
    { rewrite length_drop. lia. }
    { lia. }
    { rewrite length_drop. lia. }
    rewrite Hrun. cbn [mbind option_bind].
    exists (take PAYLOAD_SIZE rest :: cs), last, k.
    assert (Hlen : seq + Z.of_nat (length (take PAYLOAD_SIZE rest :: cs))
                   = seq + 1 + Z.of_nat (length cs)) by (cbn [length]; lia).
    rewrite Hlen.
    eexists. split; [|split; [|split; [|split]]].
    + reflexivity.
    + rewrite RoundTrip.datagrams_app, legacy_datagrams_pacing. cbn [app].
      by rewrite FileTransfer.datagrams_cons, Hd.
    + cbn [concat]. by rewrite <- app_assoc, Hcat, take_drop.
    + apply Forall_cons. split; [|done]. rewrite length_take. lia.
    + done.
  - rewrite read_short by lia. cbn [Istream.eof negb].
    exists [], rest, (S i).
    change (Z.of_nat (length (@nil (list byte)))) with 0. rewrite Z.add_0_r.
    eexists. split; [|split; [|split; [|split]]].
    + reflexivity.
    + by rewrite RoundTrip.datagrams_app, legacy_datagrams_pacing.
    + done.
    + done.
    + lia.
Qed.

Lemma legacy_run_shape pps src :
  Z.of_nat (length src) < Z.of_nat PAYLOAD_SIZE * (u32_max - 1) →
  ∃ cs last tr,
    LegacySender.run pps (λ _, false) (λ _, true) src = Some tr
    ∧ concat cs ++ last = src
    ∧ Forall (λ c, length c = PAYLOAD_SIZE) cs
    ∧ (length last < PAYLOAD_SIZE)%nat
    ∧ datagrams tr
      = legacy_data_frames 1 cs
        ++ [LegacySender.header (1 + Z.of_nat (length cs)) FLAG_FINAL ++ last]
        ++ replicate 3 (LegacySender.header (1 + Z.of_nat (length cs)) FLAG_FINAL).
Proof.
  intros Hbound.
  destruct (legacy_send_loop_shape pps (S (length src)) src 0%nat 1)
    as (cs & last & k & tr & Hrun & Hd & Hcat & Hall & Hlast); [lia|lia|done|].
  exists cs, last. eexists. unfold LegacySender.run, Istream.of_file.
  rewrite Hrun. cbn [mbind option_bind].
  split; [reflexivity|]. split; [done|]. split; [done|]. split; [done|].
  rewrite RoundTrip.datagrams_app, Hd, <- app_assoc. reflexivity.
Qed.

(** X19.  Chunking by the single-stream sender (src/sender.cpp).
    Without a signal and without a failing [sendto] it sends the full
    chunks of the file as frames 1, 2, ... without the final flag, then
    always one final-flagged frame with the rest of the file, which is
    empty when the file is empty or ends on a chunk boundary, and then
    three empty final-flagged markers that repeat the sequence number
    of that frame. *)
Theorem legacy_sender_frames pps src :
  Z.of_nat (length src) < Z.of_nat PAYLOAD_SIZE * (u32_max - 1) →
  ∃ cs last tr,
    LegacySender.run pps (λ _, false) (λ _, true) src = Some tr
    ∧ concat cs ++ last = src
    ∧ Forall (λ c, length c = PAYLOAD_SIZE) cs
    ∧ (length last < PAYLOAD_SIZE)%nat
    ∧ datagrams tr
      = legacy_data_frames 1 cs
        ++ [LegacySender.header (1 + Z.of_nat (length cs)) FLAG_FINAL ++ last]
        ++ replicate 3 (LegacySender.header (1 + Z.of_nat (length cs)) FLAG_FINAL).
Proof. apply legacy_run_shape. Qed.

Lemma legacy_sender_frames_witness :
  ∃ cs last tr,
    LegacySender.run 0 (λ _, false) (λ _, true) (replicate 1200 x07) = Some tr
    ∧ concat cs ++ last = replicate 1200 x07
    ∧ Forall (λ c, length c = PAYLOAD_SIZE) cs
    ∧ (length last < PAYLOAD_SIZE)%nat
    ∧ datagrams tr
      = legacy_data_frames 1 cs
        ++ [LegacySender.header (1 + Z.of_nat (length cs)) FLAG_FINAL ++ last]
        ++ replicate 3 (LegacySender.header (1 + Z.of_nat (length cs)) FLAG_FINAL).
Proof.
  apply (legacy_sender_frames 0 (replicate 1200 x07)).
  vm_compute. reflexivity.
Defined.

(** *** The single-stream receiver on frames that arrive in order *)

Lemma legacy_frame seq fl c :
  is_u32 seq → is_u32 fl → (length c ≤ PAYLOAD_SIZE)%nat →
  (length (recv (LegacySender.header seq fl ++ c)) <? HDR_LEN)%nat = false
  ∧ load_be32 (recv (LegacySender.header seq fl ++ c)) 0 = seq
  ∧ load_be32 (recv (LegacySender.header seq fl ++ c)) 4 = fl
  ∧ drop HDR_LEN (recv (LegacySender.header seq fl ++ c)) = c.
Proof.
  intros Hseq Hfl Hlen.
  assert (Hh : length (LegacySender.header seq fl) = HDR_LEN) by reflexivity.
  assert (Hrecv : recv (LegacySender.header seq fl ++ c) = LegacySender.header seq fl ++ c).
  { unfold recv. apply take_ge. rewrite length_app, Hh. unfold MAX_PKT. lia. }
  rewrite Hrecv. split; [|split; [|split]].
  - apply Nat.ltb_ge. rewrite length_app, Hh. lia.
  - unfold LegacySender.header. rewrite <- app_assoc. by apply load_store_be32.
  - unfold LegacySender.header. rewrite <- app_assoc.
    change 4%nat with (length (store_be32 seq) + 0)%nat.
    rewrite DecodeFacts.load_be32_app. by apply load_store_be32.
  - by rewrite <- Hh, drop_app_length.
Qed.

(** The expected frame, with an empty buffer and no final marker seen:
    it is written; a final frame ends the loop. *)
Lemma legacy_on_datagram_next e fl c now st :
  expected st = e → buffer st = ∅ → final_seen st = false →
  0 ≤ e < u32_max → is_u32 fl → (length c ≤ PAYLOAD_SIZE)%nat →
  on_datagram now (LegacySender.header e fl ++ c) st
  = if has_final fl
    then (mkState (e + 1) ∅ true e now (sink st ++ c) (closed st),
          [MsgFinalSeen e; MsgFinishing], Break)
    else (mkState (e + 1) ∅ false (final_seq st) (final_at st) (sink st ++ c) (closed st),
          [], Continue).
Proof.
  intros He Hb Hfs Hr Hfl Hlen.
  assert (Hu : is_u32 e) by (unfold is_u32, u32_max, u32_modulus in *; lia).
  destruct (legacy_frame e fl c Hu Hfl Hlen) as (H1 & H2 & H3 & H4).
  unfold on_datagram. cbv zeta. rewrite H1, H2, H3, H4, He, Z.ltb_irrefl.
  unfold reassemble. rewrite He, Z.eqb_refl.
  destruct st as [e0 b fs fq fa sk cl].
  cbn [expected buffer final_seen final_seq final_at sink closed write] in *.
  subst. rewrite map_size_empty. cbn [drain].
  rewrite u32_succ_small by (done || lia).
  unfold mark_final. destruct (has_final fl).
  - cbn [expected buffer final_seen final_seq final_at sink closed andb].
    assert ((e <? e + 1) = true) as -> by (apply Z.ltb_lt; lia). reflexivity.
  - cbn [expected buffer final_seen final_seq final_at sink closed andb]. reflexivity.
Qed.

Lemma legacy_run_loop_app tmo l1 l2 st :
  run_loop tmo (l1 ++ l2) st
  = let '(s1, o1, exited) := run_loop tmo l1 st in
    if exited then (s1, o1, true)
    else let '(s2, o2, exited2) := run_loop tmo l2 s1 in
         (s2, o1 ++ o2, exited2).
Proof.
  revert st. induction l1 as [|ev l1 IH]; intros st.
  - cbn. by destruct (run_loop tmo l2 st) as [[s2 o2] e2].
  - cbn [app run_loop]. destruct (step tmo st ev) as [[s1 o1] c].
    destruct c; [|done]. rewrite IH.
    destruct (run_loop tmo l1 s1) as [[s2 o2] e2].
    destruct e2; [done|].
    destruct (run_loop tmo l2 s2) as [[s3 o3] e3]. by rewrite app_assoc.
Qed.

Lemma legacy_run_data tmo cs : ∀ ds e st,
  expected st = e → buffer st = ∅ → final_seen st = false →
  0 ≤ e → e + Z.of_nat (length cs) ≤ u32_max →
  Forall (λ c, length c = PAYLOAD_SIZE) cs →
  ds.*2 = legacy_data_frames e cs →
  run_loop tmo (deliveries ds) st
  = (mkState (e + Z.of_nat (length cs)) ∅ false (final_seq st) (final_at st)
       (sink st ++ concat cs) (closed st), [], false).
Proof.
  induction cs as [|c cs IH]; intros ds e st He Hb Hfs Hpos Hmax Hall Hds.
  - apply fmap_nil_inv in Hds as ->. cbn. rewrite Z.add_0_r, app_nil_r.
    destruct st. cbn in *. by subst.
  - cbn [legacy_data_frames] in Hds.
    apply fmap_cons_inv in Hds as ([now d] & ds' & Hd & Hds' & ->).
    cbn [snd] in Hd. subst d. apply Forall_cons in Hall as [Hlc Hall].
    cbn [length] in Hmax.
    unfold deliveries. cbn [fmap list_fmap run_loop step fst snd].
    fold (deliveries ds').
    rewrite (legacy_on_datagram_next e 0 c now st) by (done || lia || by vm_compute).
    change (has_final 0) with false. cbn iota.
    rewrite (IH ds' (e + 1)); [|done|done|done|lia|lia|done|done].
    cbn [expected buffer final_seen final_seq final_at sink closed app concat length].
    rewrite <- app_assoc.
    by replace (e + Z.of_nat (S (length cs))) with (e + 1 + Z.of_nat (length cs)) by lia.
Qed.

(** X20.  Round trip through the single-stream programs.  A file sent
    by the single-stream sender without a signal and without a failing
    [sendto], and received as it was sent, is written to the output of
    the single-stream receiver byte for byte.  The receiver leaves the
    loop at the final-flagged frame, before the retransmitted markers,
    with an empty buffer, and closes its output. *)
Theorem legacy_round_trip pps tmo src :
  Z.of_nat (length src) < Z.of_nat PAYLOAD_SIZE * (u32_max - 1) →
  ∃ tr,
    LegacySender.run pps (λ _, false) (λ _, true) src = Some tr
    ∧ ∀ ds, ds.*2 = datagrams tr →
        ∃ st msgs,
          run tmo (deliveries ds) = (st, msgs, true)
          ∧ sink st = src ∧ buffer st = ∅ ∧ closed st = true.
Proof.
  intros Hbound. pose proof (eq_refl : PAYLOAD_SIZE = 1200%nat) as HP.
  destruct (legacy_run_shape pps src Hbound) as (cs & last & tr & Hrun & Hcat & Hall & Hlast & Hd).
  exists tr. split; [done|]. intros ds Hds. rewrite Hd in Hds.
  apply fmap_app_inv in Hds as (ds1 & ds23 & H1 & H23 & ->).
  symmetry in H1, H23.
  apply fmap_app_inv in H23 as (ds2 & ds3 & H2 & H3 & ->).
  symmetry in H2. apply fmap_cons_inv in H2 as ([now d] & ds2' & Hd2 & Hnil & ->).
  symmetry in Hnil. apply fmap_nil_inv in Hnil as ->. cbn [snd] in Hd2. subst d.
  pose proof (FileTransfer.length_concat_chunks cs Hall) as Hlen.
  assert (Hcount : Z.of_nat (length cs) + 1 < u32_max).
  { rewrite <- Hcat, length_app, Hlen in Hbound. nia. }
  unfold run. rewrite deliveries_app, legacy_run_loop_app.
  rewrite (legacy_run_data tmo cs ds1 1 init) by (done || lia).
  rewrite deliveries_app, legacy_run_loop_app.
  unfold deliveries at 1. cbn [fmap list_fmap run_loop step fst snd].
  rewrite (legacy_on_datagram_next (1 + Z.of_nat (length cs)) FLAG_FINAL last now)
    by (done || lia || by vm_compute).
  change (has_final FLAG_FINAL) with true. cbn iota.
  eexists _, _. split; [reflexivity|].
  unfold shutdown. cbn [expected buffer final_seen final_seq final_at sink closed init].
  rewrite map_size_empty. cbn [drain sink buffer closed app].
  by rewrite Hcat.
Qed.

Lemma legacy_round_trip_witness :
  ∃ tr,
    LegacySender.run 0 (λ _, false) (λ _, true) (replicate 1200 x07) = Some tr
    ∧ ∀ ds, ds.*2 = datagrams tr →
        ∃ st msgs,
          run 10 (deliveries ds) = (st, msgs, true)
          ∧ sink st = replicate 1200 x07 ∧ buffer st = ∅ ∧ closed st = true.
Proof.
  apply (legacy_round_trip 0 10 (replicate 1200 x07)).
  vm_compute. reflexivity.
Defined.

End LegacyTransfer.

(** ** What the single-stream receiver keeps, and its timeout *)

Module LegacyInv.

Import LegacyReceiver ReceiverInv LegacyTransfer.

(** All buffered frames have sequence numbers from [lo] on. *)
Definition legacy_keys_from (lo : Z) (st : state) : Prop :=
  ∀ k, is_Some (buffer st !! k) → lo ≤ k < u32_modulus.

Definition legacy_keys_above (st : state) : Prop :=
  is_u32 (expected st) ∧ legacy_keys_from (expected st + 1) st.

Lemma legacy_drain_keys fuel : ∀ st,
  (size (buffer st) ≤ fuel)%nat →
  is_u32 (expected st) → legacy_keys_from (expected st) st →
  legacy_keys_above (drain fuel st).
Proof.
  induction fuel as [|fuel IH]; intros st Hsz He Hk.
  - cbn. split; [done|]. intros k [bs Hbs].
    assert (buffer st = ∅) as Hemp by (apply map_size_empty_inv; lia).
    rewrite Hemp, lookup_empty in Hbs. discriminate.
  - cbn [drain]. destruct (buffer st !! expected st) as [bs|] eqn:Hlk.
    + apply IH; cbn [advance write expected buffer].
      * rewrite map_size_delete, Hlk. lia.
      * apply u32_succ_range.
      * intros k Hsome. cbn [advance write expected buffer] in Hsome |- *.
        destruct (decide (k = expected st)) as [->|Hne].
        { rewrite lookup_delete_eq in Hsome. by destruct Hsome. }
        rewrite lookup_delete_ne in Hsome by done.
        specialize (Hk k Hsome).
        destruct (decide (expected st < u32_max)) as [Hlt|Hge].
        { rewrite u32_succ_small by done. lia. }
        unfold u32_max in Hge. lia.
    + split; [done|]. intros k Hsome.
      specialize (Hk k Hsome).
      destruct (decide (k = expected st)) as [->|Hne]; [|lia].
      rewrite Hlk in Hsome. by destruct Hsome.
Qed.

Lemma legacy_reassemble_keys seq bs st :
  legacy_keys_above st → is_u32 seq → expected st ≤ seq →
  legacy_keys_above (reassemble seq bs st).
Proof.
  intros [He Hk] Hseq Hle. unfold reassemble.
  destruct (seq =? expected st) eqn:Heq.
  - apply legacy_drain_keys; cbn [write expected buffer]; [done | apply u32_succ_range |].
    intros k Hsome. cbn [write expected buffer] in Hsome |- *. specialize (Hk k Hsome).
    destruct (decide (expected st < u32_max)) as [Hlt|Hge].
    + rewrite u32_succ_small by done. lia.
    + unfold u32_max in Hge. lia.
  - apply Z.eqb_neq in Heq.
    destruct (buffer st !! seq) eqn:Hlk; [done|].
    split; [done|]. intros k Hsome. cbn [expected buffer] in Hsome |- *.
    destruct (decide (k = seq)) as [->|Hne].
    + unfold is_u32 in Hseq. lia.
    + rewrite lookup_insert_ne in Hsome by done. by apply Hk.
Qed.

Lemma legacy_step_keys tmo st ev :
  legacy_keys_above st → legacy_keys_above (step tmo st ev).1.1.
Proof.
  intros Hk. destruct ev as [now dgram|now|]; cbn [step]; [| |done].
  - unfold on_datagram. cbv zeta.
    destruct (length (recv dgram) <? HDR_LEN)%nat; [done|].
    destruct (load_be32 (recv dgram) 0 <? expected st) eqn:Hlt; [done|].
    apply Z.ltb_ge in Hlt.
    pose proof (legacy_reassemble_keys (load_be32 (recv dgram) 0)
                  (drop HDR_LEN (recv dgram)) st Hk (load_be32_range _ _) Hlt) as Hk1.
    unfold mark_final. destruct (has_final _); cbn [fst snd expected buffer final_seen final_seq].
    + by destruct (_ <? _).
    + by destruct (_ && _).
  - unfold on_timeout. by destruct (_ && _).
Qed.

Lemma legacy_run_loop_keys tmo evs : ∀ st,
  legacy_keys_above st → legacy_keys_above (run_loop tmo evs st).1.1.
Proof.
  induction evs as [|ev evs IH]; intros st Hk; [done|].
  cbn [run_loop]. pose proof (legacy_step_keys tmo st ev Hk) as H1.
  destruct (step tmo st ev) as [[s1 o1] c]. cbn [fst] in H1. destruct c; [|done].
  specialize (IH s1 H1). by destruct (run_loop tmo evs s1) as [[s2 o2] ex].
Qed.

Lemma legacy_keys_init : legacy_keys_above init.
Proof.
  split; [by vm_compute|]. intros k [x Hx]. cbn in Hx.
  rewrite lookup_empty in Hx. discriminate.
Qed.

Lemma legacy_drain_none fuel st :
  buffer st !! expected st = None → drain fuel st = st.
Proof. intros H. destruct fuel; cbn; [done|]. by rewrite H. Qed.

Lemma legacy_keys_none st : legacy_keys_above st → buffer st !! expected st = None.
Proof.
  intros [_ Hk]. destruct (buffer st !! expected st) eqn:E; [|done].
  specialize (Hk (expected st)). rewrite E in Hk.
  specialize (Hk (ex_intro _ _ eq_refl)). lia.
Qed.

(** The output closed, nothing else changed. *)
Definition close_output (st : state) : state :=
  mkState (expected st) (buffer st) (final_seen st) (final_seq st)
    (final_at st) (sink st) true.

(** X21.  In the single-stream receiver every buffered frame has a
    sequence number strictly above [expected], in every state of the
    loop.  So the best-effort flush after the loop never writes
    anything: the run ends in the state in which the loop was left,
    with the output closed, and the frames that are still buffered are
    lost. *)
Theorem legacy_flush_writes_nothing tmo evs st o :
  run_loop tmo evs init = (st, o, true) →
  run tmo evs = (close_output st, o, true)
  ∧ is_u32 (expected st)
  ∧ ∀ k, is_Some (buffer st !! k) → expected st < k < u32_modulus.
Proof.
  intros Hrun.
  pose proof (legacy_run_loop_keys tmo evs init legacy_keys_init) as Hk.
  rewrite Hrun in Hk. cbn [fst] in Hk.
  unfold run. rewrite Hrun. unfold shutdown.
  rewrite legacy_drain_none by by apply legacy_keys_none.
  split; [done|]. split; [apply Hk|].
  intros k Hsome. destruct Hk as [_ Hk]. specialize (Hk k Hsome). lia.
Qed.

Lemma legacy_flush_writes_nothing_witness :
  let st := mkState 1 {[ 2 := [x02] ]} false 0 0 [] false in
  run 10 [EvDatagram 0 (LegacySender.header 2 0 ++ [x02]); EvError]
  = (close_output st, [MsgRecvError], true)
  ∧ is_u32 (expected st)
  ∧ ∀ k, is_Some (buffer st !! k) → expected st < k < u32_modulus.
Proof.
  intros st.
  apply (legacy_flush_writes_nothing 10
           [EvDatagram 0 (LegacySender.header 2 0 ++ [x02]); EvError]
           st [MsgRecvError]).
  vm_compute. reflexivity.
Defined.

(** X22.  The finalization timeout of the single-stream receiver.
    While the loop runs, a timeout of [recv] that comes more than
    [timeout] whole seconds after the last final marker ends the run:
    one line reports [expected], the final sequence number and the
    number of buffered frames, nothing more is written (the buffered
    frames are dropped), and the output is closed.  A timeout of
    [recv] before any final marker, or not later than that, changes
    nothing and the loop goes on. *)
Theorem legacy_forced_completion tmo evs st o now :
  run_loop tmo evs init = (st, o, false) →
  (final_seen st = true → tmo < elapsed_seconds now (final_at st) →
   run tmo (evs ++ [EvTimeout now])
   = (close_output st,
      o ++ [MsgTimeout (expected st) (final_seq st) (Z.of_nat (size (buffer st)))],
      true))
  ∧ (final_seen st = false ∨ elapsed_seconds now (final_at st) ≤ tmo →
     run_loop tmo (evs ++ [EvTimeout now]) init = (st, o, false)).
Proof.
  intros Hrun.
  pose proof (legacy_run_loop_keys tmo evs init legacy_keys_init) as Hk.
  rewrite Hrun in Hk. cbn [fst] in Hk.
  split.
  - intros Hfs Hel. unfold run. rewrite legacy_run_loop_app, Hrun.
    cbn [run_loop step]. unfold on_timeout. rewrite Hfs.
    assert ((tmo <? elapsed_seconds now (final_at st)) = true) as ->
      by by apply Z.ltb_lt.
    cbn [andb]. unfold shutdown.
    by rewrite legacy_drain_none by by apply legacy_keys_none.
  - intros Hno. rewrite legacy_run_loop_app, Hrun.
    cbn [run_loop step]. unfold on_timeout.
    assert (final_seen st && (tmo <? elapsed_seconds now (final_at st)) = false) as ->.
    { destruct Hno as [->|Hle]; [done|].
      apply andb_false_iff. right. by apply Z.ltb_ge. }
    by rewrite !app_nil_r.
Qed.

Lemma legacy_forced_completion_witness :
  let st := mkState 3 {[ 4 := [x04] ]} true 4 0 [x01; x02] false in
  let evs := [EvDatagram 0 (LegacySender.header 1 0 ++ [x01]);
              EvDatagram 0 (LegacySender.header 2 0 ++ [x02]);
              EvDatagram 0 (LegacySender.header 4 FLAG_FINAL ++ [x04])] in
  run 10 (evs ++ [EvTimeout 11000000000])
  = (close_output st,
     [MsgFinalSeen 4]
       ++ [MsgTimeout (expected st) (final_seq st) (Z.of_nat (size (buffer st)))],
     true)
  ∧ run_loop 10 (evs ++ [EvTimeout 10999999999]) init = (st, [MsgFinalSeen 4], false).
Proof.
  intros st evs. split.
  - apply (proj1 (legacy_forced_completion 10 evs st [MsgFinalSeen 4] 11000000000
                    ltac:(vm_compute; reflexivity))).
    + reflexivity.
    + vm_compute. reflexivity.
  - apply (proj2 (legacy_forced_completion 10 evs st [MsgFinalSeen 4] 10999999999
                    ltac:(vm_compute; reflexivity))).
    right. vm_compute. discriminate.
Defined.

End LegacyInv.

(** ** One sink per stream, and a sink that cannot be opened *)

Module SinkProofs.

Import Receiver ReceiverInv ReceiverProofs.

(** A stream without a file keeps its file stream through [ingest]. *)
Lemma ingest_no_file ts sid seq fl now bs st :
  has_file st = false →
  has_file (ingest ts sid seq fl now bs st).1.1 = false
  ∧ fout (ingest ts sid seq fl now bs st).1.1 = fout st.
Proof.
  intros Hnf. unfold ingest. destruct (seq <? expected st); [done|].
  pose proof (reassemble_fields ts seq bs st) as Hf.
  destruct (reassemble ts seq bs st) as [st1 o1].
  cbn [fst] in Hf. destruct Hf as (_ & _ & _ & F4 & F5).
  rewrite Hnf in F4. specialize (F5 Hnf).
  assert (Hc : ∀ st2, has_file st2 = false → close_file st2 = st2).
  { intros st2 H2. unfold close_file. by rewrite H2. }
  unfold mark_final. destruct (has_final fl).
  - destruct (stream_done _); cbn [fst]; rewrite ?Hc by done; done.
  - destruct (stream_done _); cbn [fst]; rewrite ?Hc by done; done.
Qed.

(** What is printed or written with the stdout flag off goes to stderr
    or to a file. *)
Lemma drain_quiet fuel : ∀ st, (drain fuel false st).2 = [].
Proof.
  induction fuel as [|fuel IH]; intros st; [done|].
  cbn [drain]. destruct (buffer st !! expected st) as [bs|]; [|done].
  assert (He : (emit_nonempty false bs st).2 = []).
  { unfold emit_nonempty, emit. destruct bs; [done|]. cbn [andb]. by destruct (has_file st). }
  destruct (emit_nonempty false bs st) as [st1 o1]. cbn [snd] in He. subst o1.
  match goal with
  | |- context [drain fuel false ?s] =>
      specialize (IH s); destruct (drain fuel false s) as [st3 o3]
  end.
  cbn [snd] in IH |- *. by subst.
Qed.

Lemma ingest_quiet sid seq fl now bs st :
  stdout_bytes (ingest false sid seq fl now bs st).1.2 = [].
Proof.
  unfold ingest. destruct (seq <? expected st); [done|].
  assert (Hre : (reassemble false seq bs st).2 = []).
  { unfold reassemble. destruct (seq =? expected st).
    - assert (He : (emit_nonempty false bs st).2 = []).
      { unfold emit_nonempty, emit. destruct bs; [done|]. cbn [andb].
        by destruct (has_file st). }
      destruct (emit_nonempty false bs st) as [st1 o1]. cbn [snd] in He. subst o1.
      match goal with
      | |- context [drain ?n false ?s] =>
          pose proof (drain_quiet n s) as Hd; destruct (drain n false s) as [st3 o3]
      end.
      cbn [snd] in Hd |- *. by subst.
    - by destruct (buffer st !! seq). }
  destruct (reassemble false seq bs st) as [st1 o1]. cbn [snd] in Hre. subst o1.
  unfold mark_final. destruct (has_final fl); by destruct (stream_done _).
Qed.

Section Sinks.

Variable cfg : config.
Variable can_open : string → bool.

(** The stream writes to stdout: no file, and the file stream is
    untouched. *)
Definition on_stdout (st : StreamState) : Prop :=
  has_file st = false ∧ fout st = Ofstream.closed.

(** The stream has no sink: no file, nothing written. *)
Definition no_sink (st : StreamState) : Prop :=
  has_file st = false ∧ Ofstream.is_open (fout st) = false
  ∧ Ofstream.written (fout st) = [].

Lemma open_sink_stdout sid st :
  single_to_stdout cfg = true → on_stdout st →
  on_stdout (open_sink cfg can_open sid st).1.
Proof. intros Hs [H1 H2]. unfold open_sink. by rewrite H1, Hs. Qed.

Lemma open_sink_fails sid st :
  single_to_stdout cfg = false →
  can_open (file_name (out_pattern cfg) sid) = false →
  no_sink st → no_sink (open_sink cfg can_open sid st).1.
Proof.
  intros Hs Hc (H1 & H2 & H3). unfold open_sink. rewrite H1, Hs, Hc.
  unfold Ofstream.open. rewrite H2. cbn. done.
Qed.

(** The property [P] of the streams for which [sel] holds is kept by
    the loop, when opening the sink and [ingest] keep it. *)
Lemma step_streams (P : StreamState → Prop) (sel : Z → Prop)
    (s s' : gmap Z StreamState) ev o c :
  P new_stream →
  (∀ sid st, sel sid → P st → P (open_sink cfg can_open sid st).1) →
  (∀ ts sid seq fl now bs st, P st → P (ingest ts sid seq fl now bs st).1.1) →
  (∀ now st, P st → P (expire cfg now st)) →
  (∀ sid st, sel sid → s !! sid = Some st → P st) →
  step cfg can_open s ev = (s', o, c) →
  ∀ sid st, sel sid → s' !! sid = Some st → P st.
Proof.
  intros Hnew Hopen Hing Hexp Hs Hstep sid st Hsel Hst.
  destruct ev as [now dgram|now|]; cbn [step] in Hstep.
  - unfold on_datagram in Hstep.
    destruct (decode (recv dgram)) as [fr|]; [|injection Hstep as <- _ _; by eapply Hs].
    unfold on_frame in Hstep.
    destruct (negb _); [injection Hstep as <- _ _; by eapply Hs|].
    destruct (open_sink _ _ _ _) as [st1 o1] eqn:Ho.
    destruct (ingest _ _ _ _ _ _ _) as [[st2 o2] fin] eqn:Hi.
    injection Hstep as <- _ _.
    destruct (decide (stream_id fr = sid)) as [E|Hne].
    + rewrite E, lookup_insert_eq in Hst. injection Hst as <-.
      match type of Hi with
      | ingest ?ts ?a ?b ?c ?d ?e ?f = _ =>
          pose proof (Hing ts a b c d e f) as H2
      end.
      rewrite Hi in H2. apply H2.
      pose proof (Hopen (stream_id fr) (stream_at s (stream_id fr))) as H1.
      rewrite Ho in H1. apply H1; [by rewrite E|].
      unfold stream_at. destruct (s !! stream_id fr) as [st0|] eqn:E0; [|done].
      apply (Hs (stream_id fr)); [by rewrite E | done].
    + rewrite lookup_insert_ne in Hst by done. by eapply Hs.
  - unfold on_timeout in Hstep. injection Hstep as <- _ _.
    rewrite lookup_fmap in Hst. destruct (s !! sid) as [st0|] eqn:E0; [|done].
    injection Hst as <-. apply Hexp. by eapply Hs.
  - injection Hstep as <- _ _. by eapply Hs.
Qed.

Lemma run_loop_streams (P : StreamState → Prop) (sel : Z → Prop) evs :
  P new_stream →
  (∀ sid st, sel sid → P st → P (open_sink cfg can_open sid st).1) →
  (∀ ts sid seq fl now bs st, P st → P (ingest ts sid seq fl now bs st).1.1) →
  (∀ now st, P st → P (expire cfg now st)) →
  ∀ (s s' : gmap Z StreamState) o x,
    (∀ sid st, sel sid → s !! sid = Some st → P st) →
    run_loop cfg can_open evs s = (s', o, x) →
    ∀ sid st, sel sid → s' !! sid = Some st → P st.
Proof.
  intros Hnew Hopen Hing Hexp.
  induction evs as [|ev evs IH]; intros s s' o x Hs Hrun.
  - by injection Hrun as <- _ _.
  - cbn [run_loop] in Hrun.
    destruct (step cfg can_open s ev) as [[s1 o1] c] eqn:Hstep.
    pose proof (step_streams P sel s s1 ev o1 c Hnew Hopen Hing Hexp Hs Hstep) as H1.
    destruct c.
    + destruct (run_loop cfg can_open evs s1) as [[s2 o2] ex] eqn:Hrec.
      injection Hrun as <- _ _. by eapply IH.
    + by injection Hrun as <- _ _.
Qed.

Lemma step_quiet (s s' : gmap Z StreamState) ev o c :
  single_to_stdout cfg = false →
  step cfg can_open s ev = (s', o, c) → stdout_bytes o = [].
Proof.
  intros Hs Hstep. destruct ev as [now dgram|now|]; cbn [step] in Hstep.
  - unfold on_datagram in Hstep.
    destruct (decode (recv dgram)) as [fr|]; [|by injection Hstep as _ <- _].
    unfold on_frame in Hstep.
    destruct (negb _); [by injection Hstep as _ <- _|].
    pose proof (open_sink_silent cfg can_open (stream_id fr) (stream_at s (stream_id fr)))
      as H1.
    destruct (open_sink _ _ _ _) as [st1 o1]. cbn [snd] in H1.
    rewrite Hs in Hstep. cbn [andb] in Hstep.
    pose proof (ingest_quiet (stream_id fr) (sequence fr) (flags fr) now (payload fr) st1)
      as H2.
    destruct (ingest _ _ _ _ _ _ _) as [[st2 o2] fin]. cbn [fst snd] in H2.
    injection Hstep as _ <- _. by rewrite stdout_bytes_app, H1, H2.
  - unfold on_timeout in Hstep. injection Hstep as _ <- _.
    apply TimeoutProofs.stdout_bytes_cerr. intros sid x Hx.
    destruct (s !! sid) as [st|]; [|done]. cbn in Hx.
    destruct (timed_out cfg now st); [|done]. injection Hx as <-. by eexists.
  - by injection Hstep as _ <- _.
Qed.

Lemma run_loop_quiet evs : ∀ (s s' : gmap Z StreamState) o x,
  single_to_stdout cfg = false →
  run_loop cfg can_open evs s = (s', o, x) → stdout_bytes o = [].
Proof.
  induction evs as [|ev evs IH]; intros s s' o x Hs Hrun.
  - by injection Hrun as _ <- _.
  - cbn [run_loop] in Hrun.
    destruct (step cfg can_open s ev) as [[s1 o1] c] eqn:Hstep.
    pose proof (step_quiet _ _ _ _ _ Hs Hstep) as H1. destruct c.
    + destruct (run_loop cfg can_open evs s1) as [[s2 o2] ex] eqn:Hrec.
      injection Hrun as _ <- _. rewrite stdout_bytes_app, H1.
      by eapply IH.
    + by injection Hrun as _ <- _.
Qed.

End Sinks.

(** X23.  Every stream has one kind of sink.  A receiver that writes
    its single stream to stdout ([-s id -o -]) never opens a file and
    never writes to one: no stream has a file and the file stream of
    every stream is as it was created.  Any other receiver writes
    nothing to stdout, whatever it receives. *)
Theorem sinks_exclusive cfg can_open evs (s : gmap Z StreamState) o x :
  run_loop cfg can_open evs ∅ = (s, o, x) →
  if single_to_stdout cfg
  then ∀ sid st, s !! sid = Some st → has_file st = false ∧ fout st = Ofstream.closed
  else stdout_bytes o = [].
Proof.
  intros Hrun. destruct (single_to_stdout cfg) eqn:Hs.
  - intros sid st Hst.
    refine (run_loop_streams cfg can_open on_stdout (λ _, True) evs
              _ _ _ _ ∅ s o x _ Hrun sid st I Hst); try done.
    + intros sid' st' _. by apply open_sink_stdout.
    + intros ts sid' seq fl now bs st' [H1 H2].
      destruct (ingest_no_file ts sid' seq fl now bs st' H1) as [H3 H4].
      split; [done|]. by rewrite H4.
    + intros now st' [H1 H2]. unfold expire. by destruct (timed_out cfg now st').
  - by eapply run_loop_quiet.
Qed.

Lemma sinks_exclusive_witness :
  stdout_bytes (run_loop cfg_one any_path [data 42 1 [x01]; final 42 2 [x02]] ∅).1.2 = [].
Proof.
  exact (sinks_exclusive cfg_one any_path [data 42 1 [x01]; final 42 2 [x02]] _ _ true
           ltac:(vm_compute; reflexivity)).
Defined.

(** X24.  A stream whose output file cannot be opened (and that does
    not go to stdout) never gets a sink: whatever the receiver
    receives, the stream has no file, its file stream is not open and
    nothing has been written through it.  Its frames are sequenced as
    usual and their payloads are dropped. *)
Theorem unopenable_sink cfg can_open evs (s : gmap Z StreamState) o x sid st :
  single_to_stdout cfg = false →
  can_open (file_name (out_pattern cfg) sid) = false →
  run_loop cfg can_open evs ∅ = (s, o, x) →
  s !! sid = Some st →
  has_file st = false ∧ Ofstream.is_open (fout st) = false
  ∧ Ofstream.written (fout st) = [].
Proof.
  intros Hs Hc Hrun Hst.
  refine (run_loop_streams cfg can_open no_sink (λ sid', sid' = sid) evs
            _ _ _ _ ∅ s o x _ Hrun sid st eq_refl Hst); try done.
  - intros sid' st' -> Hn. by apply open_sink_fails.
  - intros ts sid' seq fl now bs st' (H1 & H2 & H3).
    destruct (ingest_no_file ts sid' seq fl now bs st' H1) as [H4 H5].
    split; [done|]. by rewrite H5.
  - intros now st' (H1 & H2 & H3). unfold expire. by destruct (timed_out cfg now st').
Qed.

Lemma unopenable_sink_witness :
  let st := mkStream 3 ∅ true 2 0 (Ofstream.mk false true []) false in
  has_file st = false ∧ Ofstream.is_open (fout st) = false
  ∧ Ofstream.written (fout st) = [].
Proof.
  intros st.
  eapply (unopenable_sink cfg_one (λ _, false) [data 42 1 [x01]; final 42 2 [x02]]
            {[ 42 := st ]} _ true 42 st).
  - reflexivity.
  - reflexivity.
  - vm_compute. reflexivity.
  - vm_compute. reflexivity.
Defined.

End SinkProofs.

(** ** A transfer that ends on a failing [sendto] *)

Module FailureProofs.

Import Receiver ReceiverInv ReceiverProofs DedupProofs SenderProofs RoundTrip.
Import FileTransfer InterruptProofs.

(** The loop of the sender when the [sendto] of the iteration after [n]
    further full chunks fails. *)
Lemma send_loop_fails sid pps send_ok n : ∀ fuel j rest seq,
  (∀ j', (j ≤ j' < j + n)%nat → send_ok j' = true) →
  send_ok (j + n)%nat = false →
  (n * PAYLOAD_SIZE < length rest)%nat → (n < fuel)%nat →
  0 ≤ seq → seq + Z.of_nat n < u32_max →
  ∃ tr fl,
    Sender.send_loop sid pps (λ _, false) send_ok fuel j
      (Istream.mk rest false false) seq
    = Some (S (j + n), seq + Z.of_nat n, tr)
    ∧ datagrams tr
      = data_frames sid seq (first_chunks n rest)
        ++ [Sender.header sid (seq + Z.of_nat n) fl
              ++ take PAYLOAD_SIZE (drop (n * PAYLOAD_SIZE) rest)]
    ∧ (fl = 0 ∨ fl = FLAG_FINAL).
Proof.
  pose proof (eq_refl : PAYLOAD_SIZE = 1200%nat) as HP.
  induction n as [|n IH]; intros fuel j rest seq Hbefore Hat Hlen Hfuel Hseq Hmax.
  - destruct fuel as [|fuel]; [lia|]. cbn [Sender.send_loop].
    rewrite Nat.add_0_r in Hat |- *. rewrite Hat, Z.add_0_r. cbn [negb].
    change (0 * PAYLOAD_SIZE)%nat with 0%nat. rewrite drop_0.
    destruct (decide (PAYLOAD_SIZE ≤ length rest)%nat) as [Hfull|Hshort].
    + rewrite read_full by done.
      assert (Hl : length (take PAYLOAD_SIZE rest) = PAYLOAD_SIZE)
        by (rewrite length_take; lia).
      destruct (take PAYLOAD_SIZE rest) as [|b chunk] eqn:E; [cbn in Hl; lia|].
      assert (E' : (length (b :: chunk) <? PAYLOAD_SIZE)%nat = false)
        by (apply Nat.ltb_ge; lia).
      rewrite E'. cbn [Istream.eof orb].
      eexists _, 0. split; [reflexivity|]. split; [|by left].
      by rewrite datagrams_app, datagrams_pacing.
    + rewrite read_short by lia. rewrite take_ge by lia.
      destruct rest as [|b rest]; [cbn in Hlen; lia|].
      assert (E' : (length (b :: rest) <? PAYLOAD_SIZE)%nat = true)
        by (apply Nat.ltb_lt; lia).
      rewrite E'. cbn [orb].
      eexists _, FLAG_FINAL. split; [reflexivity|]. split; [|by right].
      by rewrite datagrams_app, datagrams_pacing.
  - destruct fuel as [|fuel]; [lia|].
    rewrite send_loop_full; [|done|apply Hbefore; lia|lia].
    rewrite u32_succ_small by (unfold is_u32, u32_max, u32_modulus in *; lia).
    destruct (IH fuel (S j) (drop PAYLOAD_SIZE rest) (seq + 1)) as (tr & fl & Hrun & Hd & Hfl).
    + intros j' Hj'. apply Hbefore. lia.
    + by replace (S j + n)%nat with (j + S n)%nat by lia.
    + rewrite length_drop. lia.
    + lia.
    + lia.
    + lia.
    + rewrite Hrun. cbn [mbind option_bind]. eexists _, fl. split; [|split; [|done]].
      * do 3 f_equal; lia.
      * rewrite datagrams_app, datagrams_pacing. cbn [app].
        rewrite datagrams_cons, Hd. cbn [first_chunks data_frames app].
        rewrite drop_drop.
        replace (seq + 1 + Z.of_nat n) with (seq + Z.of_nat (S n)) by lia.
        reflexivity.
Qed.

(** X25.  A transfer that ends on a failing [sendto].  When the
    [sendto] of the chunk after [i] full chunks fails, the sender stops
    reading the file; the three markers it then sends carry the
    sequence number of the chunk that was not sent.  A receiver that
    gets what was sent, in order, takes the first marker for that chunk
    and writes the first [i * 1200] bytes of the file. *)
Theorem failed_send cfg can_open sid pps send_ok src (i : nat) :
  is_u32 sid →
  (∀ j, (j < i)%nat → send_ok j = true) → send_ok i = false →
  (i * PAYLOAD_SIZE < length src)%nat → Z.of_nat i + 1 < u32_max →
  subscribed cfg sid = true →
  single_to_stdout cfg = true ∨ can_open (file_name (out_pattern cfg) sid) = true →
  ∃ tr fl,
    Sender.run sid pps (λ _, false) send_ok src = Some tr
    ∧ datagrams tr
      = data_frames sid 1 (first_chunks i src)
        ++ [Sender.header sid (1 + Z.of_nat i) fl
              ++ take PAYLOAD_SIZE (drop (i * PAYLOAD_SIZE) src)]
        ++ replicate 3 (Sender.header sid (1 + Z.of_nat i) FLAG_FINAL)
    ∧ ∀ ds,
        ds.*2 = data_frames sid 1 (first_chunks i src)
                ++ replicate 3 (Sender.header sid (1 + Z.of_nat i) FLAG_FINAL) →
        sink_bytes cfg sid (run cfg can_open (deliveries ds))
        = take (i * PAYLOAD_SIZE) src.
Proof.
  intros Hsid Hbefore Hat Hlen Hmax Hsub Hsink.
  pose proof (eq_refl : PAYLOAD_SIZE = 1200%nat) as HP.
  destruct (send_loop_fails sid pps send_ok i (S (length src)) 0 src 1)
    as (tr & fl & Hloop & Hd & Hfl); [|done|done|lia|lia|lia|].
  { intros j' Hj'. apply Hbefore. lia. }
  exists (tr ++ Sender.epilogue sid (λ _, false) (S (0 + i)) (1 + Z.of_nat i)), fl.
  unfold Sender.run, Istream.of_file. rewrite Hloop. cbn [mbind option_bind].
  split; [reflexivity|]. split.
  { rewrite datagrams_app, Hd, <- app_assoc. reflexivity. }
  intros ds Hds. rewrite run_sink.
  apply fmap_app_inv in Hds as (ds1 & ds2 & H1 & H2 & ->).
  symmetry in H1, H2.
  destruct (first_chunks_full i src) as [Hfull Hcount]; [lia|].
  destruct (run_data cfg can_open sid Hsid Hsub Hsink (first_chunks i src) ds1 1 [] ∅ [])
    as (s1 & o1 & Hrun1 & Ht1); [by left|lia|lia|done|done|].
  cbn [app] in Ht1. rewrite Hcount, first_chunks_concat in Ht1.
  apply tidy_weaken in Ht1.
  destruct (run_markers cfg can_open sid Hsid Hsub Hsink 3 ds2 (1 + Z.of_nat i)
              (1 + Z.of_nat i) (take (i * PAYLOAD_SIZE) src) s1 (stdout_bytes o1) Ht1)
    as (s2 & o2 & x & e' & Hrun2 & Ht2); [lia|lia|lia|done|].
  rewrite deliveries_app, run_loop_app, Hrun1, Hrun2.
  eapply tidy_sink; [exact Hsink|]. rewrite stdout_bytes_app. exact Ht2.
Qed.

Lemma failed_send_witness :
  ∃ tr fl,
    Sender.run 42 0 (λ _, false) (λ j, negb (j =? 1)%nat) (replicate 3000 x07) = Some tr
    ∧ datagrams tr
      = data_frames 42 1 (first_chunks 1 (replicate 3000 x07))
        ++ [Sender.header 42 (1 + Z.of_nat 1) fl
              ++ take PAYLOAD_SIZE (drop (1 * PAYLOAD_SIZE) (replicate 3000 x07))]
        ++ replicate 3 (Sender.header 42 (1 + Z.of_nat 1) FLAG_FINAL)
    ∧ ∀ ds,
        ds.*2 = data_frames 42 1 (first_chunks 1 (replicate 3000 x07))
                ++ replicate 3 (Sender.header 42 (1 + Z.of_nat 1) FLAG_FINAL) →
        sink_bytes cfg_one 42 (run cfg_one any_path (deliveries ds))
        = take (1 * PAYLOAD_SIZE) (replicate 3000 x07).
Proof.
  apply (failed_send cfg_one any_path 42 0 (λ j, negb (j =? 1)%nat) (replicate 3000 x07) 1).
  - vm_compute. split; [discriminate | reflexivity].
  - intros j Hj. assert (j = 0%nat) as -> by lia. reflexivity.
  - reflexivity.
  - vm_compute. lia.
  - vm_compute. reflexivity.
  - reflexivity.
  - right. reflexivity.
Defined.

End FailureProofs.

(** ** A stream with a frame that never arrives *)

Module GapProofs.

Import Receiver ReceiverInv ReceiverProofs Reassembly DedupProofs CompletionProofs.

(** The flush moves [expected] up, and not past a sequence number that
    is not buffered. *)
Lemma drain_between fuel ts : ∀ st m,
  0 ≤ expected st ≤ m → m ≤ u32_max → buffer st !! m = None →
  expected st ≤ expected (drain fuel ts st).1 ≤ m.
Proof.
  induction fuel as [|fuel IH]; intros st m He Hm Hn; [cbn; lia|].
  cbn [drain]. destruct (buffer st !! expected st) as [bs|] eqn:Hlk; [|cbn; lia].
  assert (expected st ≠ m) as Hne by congruence.
  destruct (emit_nonempty_shape ts bs st) as (f & Hshape & _).
  destruct (emit_nonempty ts bs st) as [st1 o1]. cbn [fst] in Hshape. subst st1.
  fields.
  assert (Hs : u32_succ (expected st) = expected st + 1).
  { apply u32_succ_small; unfold is_u32, u32_max, u32_modulus in *; lia. }
  match goal with
  | |- context [drain fuel ts ?s] =>
      specialize (IH s m); destruct (drain fuel ts s) as [st3 o3]
  end.
  cbn [fst] in IH |- *. fields in IH. rewrite Hs in IH.
  destruct IH as [H1 H2]; [lia | done | by rewrite lookup_delete_ne | lia].
Qed.

Lemma ingest_between ts sid seq fl now bs st m :
  0 ≤ expected st ≤ m → m ≤ u32_max → buffer st !! m = None → seq ≠ m →
  expected st ≤ expected (ingest ts sid seq fl now bs st).1.1 ≤ m.
Proof.
  intros He Hm Hn Hne. unfold ingest.
  destruct (seq <? expected st); [cbn; lia|].
  assert (Hre : expected st ≤ expected (reassemble ts seq bs st).1 ≤ m).
  { unfold reassemble. destruct (seq =? expected st) eqn:Heq.
    - apply Z.eqb_eq in Heq.
      destruct (emit_nonempty_shape ts bs st) as (f & Hshape & _).
      destruct (emit_nonempty ts bs st) as [st1 o1]. cbn [fst] in Hshape. subst st1.
      assert (Hs : u32_succ (expected st) = expected st + 1).
      { apply u32_succ_small; unfold is_u32, u32_max, u32_modulus in *; lia. }
      match goal with
      | |- context [drain ?n ts ?s] =>
          pose proof (drain_between n ts s m) as Hd;
          destruct (drain n ts s) as [st3 o3]
      end.
      cbn [fst] in Hd |- *. fields in Hd. fields. rewrite Hs in Hd.
      destruct Hd as [H1 H2]; [lia | done | done | lia].
    - destruct (buffer st !! seq); cbn; lia. }
  destruct (reassemble ts seq bs st) as [st1 o1]. cbn [fst] in Hre.
  unfold mark_final. destruct (has_final fl).
  - destruct (stream_done _); cbn [fst];
      rewrite ?(proj1 (close_file_fields _)); exact Hre.
  - destruct (stream_done _); cbn [fst];
      rewrite ?(proj1 (close_file_fields _)); exact Hre.
Qed.

Section Gap.

Variable cfg : config.
Variable can_open : string → bool.
Variable sid : Z.
Variable N : Z.
Variable pl : Z → list byte.
Variable g : Z.

Hypothesis sid_u32 : is_u32 sid.
Hypothesis N_range : 1 ≤ N ≤ u32_max.
Hypothesis pl_fits : ∀ k, (length (pl k) ≤ PAYLOAD_SIZE)%nat.
Hypothesis sid_listed : subscribed cfg sid = true.
Hypothesis sink_opens :
  single_to_stdout cfg = true ∨ can_open (file_name (out_pattern cfg) sid) = true.
Hypothesis g_range : 1 ≤ g ≤ N.

(** No stream yet, or the stream waiting at or before the gap. *)
Definition waiting (D : list Z) (s : gmap Z StreamState) (so : list byte) : Prop :=
  (s = ∅ ∧ D = [] ∧ so = [])
  ∨ ∃ st, s = {[ sid := st ]} ∧ active cfg N pl D st so ∧ (expected st ∉ D)
          ∧ expected st ≤ g.

Lemma waiting_open D s so :
  waiting D s so →
  ∃ st1 o1, open_sink cfg can_open sid (stream_at s sid) = (st1, o1)
            ∧ stdout_bytes o1 = []
            ∧ active cfg N pl D st1 so ∧ (expected st1 ∉ D) ∧ expected st1 ≤ g
            ∧ ∀ st', <[sid := st']> s = {[ sid := st' ]}.
Proof.
  intros [(-> & -> & ->)|(st & -> & Hact & Hnin & Hle)].
  - rewrite stream_at_none by apply lookup_empty.
    destruct (open_first cfg can_open sid N pl N_range sink_opens)
      as (st1 & o1 & H1 & H2 & H3).
    pose proof (open_sink_fields cfg can_open sid new_stream) as Hf.
    rewrite H1 in Hf. cbn [fst] in Hf. destruct Hf as (He & _).
    exists st1, o1. split; [done|]. split; [done|].
    destruct H3 as [[Hact Hnin]|Hfin].
    + split; [done|]. split; [done|]. split; [|intros st'; apply insert_empty].
      rewrite He. cbn. lia.
    + exfalso. apply (fin_range _ _ _ _ _ Hfin). rewrite He. cbn. lia.
  - rewrite (stream_at_some _ _ st) by apply lookup_singleton_eq.
    destruct (open_again cfg can_open sid N pl sink_opens D st so) as (o1 & H1 & H2).
    { left. by split. }
    exists st, o1. split; [done|]. split; [done|]. split; [done|].
    split; [done|]. split; [done|]. intros st'. apply insert_singleton_eq.
Qed.

(** One delivery of a frame other than [g]: the loop goes on, and the
    stream still waits at or before the gap. *)
Lemma step_waiting D s so k now :
  (∀ k, k ∈ D → 1 ≤ k ≤ N ∧ k ≠ g) → 1 ≤ k ≤ N → k ≠ g → waiting D s so →
  ∃ st' o,
    on_datagram cfg can_open now (frame_of sid N pl k) s
    = ({[ sid := st' ]}, o, Continue)
    ∧ waiting (D ++ [k]) {[ sid := st' ]} (so ++ stdout_bytes o).
Proof.
  intros HD Hk Hkg Hw. unfold on_datagram.
  rewrite (frame_of_decode sid N pl sid_u32 N_range pl_fits) by done.
  unfold on_frame. cbn [stream_id sequence flags payload].
  rewrite sid_listed. cbn [negb].
  destruct (waiting_open D s so Hw) as (st1 & o1 & -> & Ho1 & Hact & Hnin & Hle & Hins).
  rewrite !Hins, map_size_singleton. cbn [Nat.eqb]. rewrite andb_true_r.
  assert (HD' : ∀ k, k ∈ D → 1 ≤ k ≤ N) by (intros k' Hk'; by apply HD).
  destruct (ingest_good cfg can_open sid N pl N_range sink_opens D st1 so k now HD' Hk)
    as (st' & o & fin & Hing & Hg & Hf); [left; by split|].
  pose proof (act_range _ _ _ _ _ _ Hact) as Hr.
  assert (Hgn : buffer st1 !! g = None).
  { destruct (buffer st1 !! g) as [x|] eqn:E; [|done].
    destruct (proj1 (act_keys _ _ _ _ _ _ Hact g) (ex_intro _ _ E)) as [Hin _].
    by destruct (HD g Hin). }
  pose proof (ingest_between (single_to_stdout cfg) sid k
                (if k =? N then FLAG_FINAL else 0) now (pl k) st1 g) as Hb.
  rewrite Hing in Hb. cbn [fst] in Hb.
  destruct Hb as [Hb1 Hb2]; [lia|lia|done|done|].
  destruct Hg as [[Ha Hn]|Hfd]; [|destruct (fin_range _ _ _ _ _ Hfd); lia].
  assert (Hd : stream_done st' = false).
  { unfold stream_done. destruct (final_seen st') eqn:Hs; [|done].
    rewrite (act_final _ _ _ _ _ _ Ha Hs). cbn.
    apply Z.ltb_ge. apply (act_range _ _ _ _ _ _ Ha). }
  assert (Hfin : fin = false).
  { destruct (decide (k < expected st1)) as [Hstale|Hns].
    - unfold ingest in Hing.
      assert ((k <? expected st1) = true) as E by by apply Z.ltb_lt.
      rewrite E in Hing. by injection Hing as _ _ <-.
    - pose proof (ingest_fin (single_to_stdout cfg) sid k
                    (if k =? N then FLAG_FINAL else 0) now (pl k) st1) as Hf'.
      rewrite Hing in Hf'. cbn [fst snd] in Hf'. rewrite Hf' by lia. done. }
  rewrite Hing, Hfin, !Hins. cbn [andb].
  eexists st', _. split; [reflexivity|].
  rewrite stdout_bytes_app, Ho1. cbn [app].
  right. exists st'. done.
Qed.

Lemma run_loop_waiting ds : ∀ D s so,
  (∀ k, k ∈ D → 1 ≤ k ≤ N ∧ k ≠ g) → (∀ k, k ∈ ds.*2 → 1 ≤ k ≤ N ∧ k ≠ g) →
  waiting D s so →
  ∃ s' o,
    run_loop cfg can_open (deliver sid N pl <$> ds) s = (s', o, false)
    ∧ waiting (D ++ ds.*2) s' (so ++ stdout_bytes o).
Proof.
  induction ds as [|[now k] ds IH]; intros D s so HD Hds Hw.
  - exists s, []. split; [done|]. cbn. by rewrite !app_nil_r.
  - cbn [fmap list_fmap run_loop step deliver fst snd].
    destruct (Hds k) as [Hk Hkg]; [cbn; left|].
    destruct (step_waiting D s so k now HD Hk Hkg Hw) as (st' & o & -> & Hw').
    destruct (IH (D ++ [k]) {[ sid := st' ]} (so ++ stdout_bytes o))
      as (s2 & o2 & Hrun & Hres).
    + intros k'. rewrite elem_of_app, list_elem_of_singleton. intros [?| ->]; auto.
    + intros k' Hin. apply Hds. cbn. by right.
    + done.
    + fold (fmap (M := list) (deliver sid N pl) ds). rewrite Hrun.
      exists s2, (o ++ o2). split; [done|].
      rewrite stdout_bytes_app, app_assoc.
      cbn [fmap list_fmap fst snd].
      rewrite <- (app_assoc D [k]) in Hres. exact Hres.
Qed.

Lemma gap_sink (ds : list (Z * Z)) :
  (∀ k, k ∈ ds.*2 → 1 ≤ k ≤ N ∧ k ≠ g) →
  (∀ k, 1 ≤ k < g → k ∈ ds.*2) →
  (run cfg can_open (deliver sid N pl <$> ds)).2 = false
  ∧ sink_bytes cfg sid (run cfg can_open (deliver sid N pl <$> ds))
    = prefix_bytes pl g.
Proof.
  intros Hds Hall.
  destruct (run_loop_waiting ds [] ∅ []) as (s' & o & Hrun & Hres).
  { intros k Hin. by apply not_elem_of_nil in Hin. }
  { done. }
  { by left. }
  unfold run. rewrite Hrun. split; [done|].
  cbn [app] in Hres. unfold sink_bytes. cbn [fst snd].
  destruct Hres as [(-> & Hnil & Hso)|(st & -> & Hact & Hnin & Hle)].
  - assert (g = 1) as ->.
    { destruct (decide (g = 1)) as [?|Hne]; [done|]. exfalso.
      assert (1 ∈ ds.*2) as Hin by (apply Hall; lia).
      rewrite Hnil in Hin. by apply not_elem_of_nil in Hin. }
    rewrite Hso. cbn. by destruct (single_to_stdout cfg).
  - rewrite (stream_at_some _ _ st) by apply lookup_singleton_eq.
    pose proof (act_range _ _ _ _ _ _ Hact) as Hr.
    assert (expected st = g) as <-.
    { destruct (decide (expected st = g)) as [?|Hne]; [done|]. exfalso.
      apply Hnin. apply Hall. lia. }
    apply (act_sink _ _ _ _ _ _ Hact).
Qed.

End Gap.

(** X26.  A frame that never arrives stops the output.  Of a stream
    of [N] frames, frame [g] is never delivered; all the frames before
    it are, and any of the others, in any order and any number of
    times.  Then the sink of the stream holds the payloads of the
    frames 1 to [g - 1] in order and nothing else: no frame behind the
    gap is written, however many have arrived.  Without a timeout the
    loop is not left. *)
Theorem gap_stops_output cfg can_open sid N pl g (ds : list (Z * Z)) :
  is_u32 sid → 1 ≤ N ≤ u32_max →
  (∀ k, (length (pl k) ≤ PAYLOAD_SIZE)%nat) →
  subscribed cfg sid = true →
  single_to_stdout cfg = true ∨ can_open (file_name (out_pattern cfg) sid) = true →
  1 ≤ g ≤ N →
  (∀ k, k ∈ ds.*2 → 1 ≤ k ≤ N ∧ k ≠ g) →
  (∀ k, 1 ≤ k < g → k ∈ ds.*2) →
  (run cfg can_open (deliver sid N pl <$> ds)).2 = false
  ∧ sink_bytes cfg sid (run cfg can_open (deliver sid N pl <$> ds))
    = concat (pl <$> seqZ 1 (g - 1)).
Proof. intros. by apply gap_sink. Qed.

Lemma gap_stops_output_witness :
  (run cfg_one any_path
     (deliver 42 4 (λ k, [byte_of_Z k]) <$> [(0, 4); (5, 1); (6, 3); (7, 1)])).2 = false
  ∧ sink_bytes cfg_one 42
      (run cfg_one any_path
         (deliver 42 4 (λ k, [byte_of_Z k]) <$> [(0, 4); (5, 1); (6, 3); (7, 1)]))
    = concat ((λ k, [byte_of_Z k]) <$> seqZ 1 (2 - 1)).
Proof.
  apply gap_stops_output.
  - vm_compute. split; [discriminate | reflexivity].
  - vm_compute. split; discriminate.
  - intros k. simpl. unfold PAYLOAD_SIZE. lia.
  - reflexivity.
  - right. reflexivity.
  - lia.
  - intros k. simpl. rewrite !elem_of_cons, elem_of_nil. lia.
  - intros k Hk. assert (k = 1) as -> by lia. simpl.
    rewrite !elem_of_cons. auto.
Defined.

End GapProofs.

(** ** The last sequence number *)

Module WrapProofs.

Import Receiver ReceiverInv ReceiverProofs LoopProofs.

(** X27.  A stream whose final marker carries the sequence number
    [0xFFFFFFFF] never completes: [expected] is a [uint32_t] and cannot
    be greater, so the completion test fails in every state the loop
    reaches, and a receiver that holds such a stream leaves the loop
    only on an error of [recv]. *)
Theorem last_sequence_never_completes cfg can_open evs
    (s : gmap Z StreamState) o x sid st :
  run_loop cfg can_open evs ∅ = (s, o, x) →
  s !! sid = Some st →
  final_seq st = u32_max →
  EvError ∉ evs →
  stream_done st = false ∧ x = false.
Proof.
  intros Hrun Hst Hq Hnin.
  destruct (run_loop_reach _ _ _ _ _ _ Hrun sid st Hst) as [([He _] & _ & _) Hsub].
  assert (Hd : stream_done st = false).
  { unfold stream_done. rewrite Hq. destruct (final_seen st); [|done]. cbn.
    apply Z.ltb_ge. unfold is_u32, u32_max in *. lia. }
  split; [done|]. destruct x; [|done]. exfalso.
  destruct (run_loop_break _ _ _ _ _ _ Hrun Hnin) as [Hall Hdone].
  pose proof (subscribed_elem cfg sid Hall Hsub) as Hin.
  by rewrite (all_done_false cfg s sid st Hin Hst Hd) in Hdone.
Qed.

Lemma last_sequence_never_completes_witness :
  let st := mkStream 1 {[ 4294967295 := [x01] ]} true 4294967295 0
              (Ofstream.mk true false []) true in
  stream_done st = false
  ∧ (run_loop cfg_one any_path [final 42 4294967295 [x01]] ∅).2 = false.
Proof.
  intros st.
  eapply (last_sequence_never_completes cfg_one any_path
            [final 42 4294967295 [x01]] {[ 42 := st ]} _ _ 42 st).
  - vm_compute. reflexivity.
  - vm_compute. reflexivity.
  - reflexivity.
  - rewrite list_elem_of_singleton. discriminate.
Defined.

End WrapProofs.

(** ** A file that has been closed *)

Module ClosedProofs.

Import Receiver ReceiverInv ReceiverProofs.

(** The stream has a file, the file is closed, and [w] was written to
    it. *)
Definition closed_with (w : list byte) (st : StreamState) : Prop :=
  has_file st = true ∧ Ofstream.is_open (fout st) = false
  ∧ Ofstream.written (fout st) = w.

Lemma write_closed w bs f :
  Ofstream.is_open f = false → Ofstream.written f = w →
  Ofstream.is_open (Ofstream.write bs f) = false
  ∧ Ofstream.written (Ofstream.write bs f) = w.
Proof.
  intros Ho Hw. unfold Ofstream.write. destruct (Ofstream.failed f); [done|].
  rewrite Ho. by destruct bs.
Qed.

Lemma emit_nonempty_closed w ts bs st :
  closed_with w st → closed_with w (emit_nonempty ts bs st).1.
Proof.
  intros (H1 & H2 & H3). unfold emit_nonempty, emit. destruct bs as [|b bs]; [done|].
  rewrite H1, andb_false_r. cbn [fst]. split; [done|]. fields.
  by apply write_closed.
Qed.

Lemma drain_closed w fuel ts : ∀ st,
  closed_with w st → closed_with w (drain fuel ts st).1.
Proof.
  induction fuel as [|fuel IH]; intros st Hc; [done|].
  cbn [drain]. destruct (buffer st !! expected st) as [bs|]; [|done].
  pose proof (emit_nonempty_closed w ts bs st Hc) as H1.
  destruct (emit_nonempty ts bs st) as [st1 o1]. cbn [fst] in H1.
  match goal with
  | |- context [drain fuel ts ?s] =>
      specialize (IH s); destruct (drain fuel ts s) as [st3 o3]
  end.
  cbn [fst] in IH |- *. apply IH. exact H1.
Qed.

Lemma ingest_closed_file w ts sid seq fl now bs st :
  closed_with w st → closed_with w (ingest ts sid seq fl now bs st).1.1.
Proof.
  intros Hc. unfold ingest. destruct (seq <? expected st); [done|].
  assert (Hre : closed_with w (reassemble ts seq bs st).1).
  { unfold reassemble. destruct (seq =? expected st).
    - pose proof (emit_nonempty_closed w ts bs st Hc) as H1.
      destruct (emit_nonempty ts bs st) as [st1 o1]. cbn [fst] in H1.
      match goal with
      | |- context [drain ?n ts ?s] =>
          pose proof (drain_closed w n ts s) as Hd; destruct (drain n ts s) as [st3 o3]
      end.
      cbn [fst] in Hd |- *. apply Hd. exact H1.
    - by destruct (buffer st !! seq). }
  destruct (reassemble ts seq bs st) as [st1 o1]. cbn [fst] in Hre.
  assert (Hcl : ∀ st2, closed_with w st2 → closed_with w (close_file st2)).
  { intros st2 (H1 & H2 & H3). unfold close_file. by rewrite H1, H2. }
  unfold mark_final. destruct (has_final fl).
  - destruct (stream_done _); cbn [fst]; [apply Hcl|]; exact Hre.
  - destruct (stream_done _); cbn [fst]; [apply Hcl|]; exact Hre.
Qed.

Lemma step_closed cfg can_open w (s s' : gmap Z StreamState) ev o c sid st :
  step cfg can_open s ev = (s', o, c) →
  s !! sid = Some st → closed_with w st →
  ∃ st', s' !! sid = Some st' ∧ closed_with w st'.
Proof.
  intros Hstep Hst Hc. destruct ev as [now dgram|now|]; cbn [step] in Hstep.
  - unfold on_datagram in Hstep.
    destruct (decode (recv dgram)) as [fr|]; [|injection Hstep as <- _ _; by exists st].
    unfold on_frame in Hstep.
    destruct (negb _); [injection Hstep as <- _ _; by exists st|].
    destruct (open_sink _ _ _ _) as [st1 o1] eqn:Ho.
    destruct (ingest _ _ _ _ _ _ _) as [[st2 o2] fin] eqn:Hi.
    injection Hstep as <- _ _.
    destruct (decide (stream_id fr = sid)) as [E|Hne].
    + rewrite E, lookup_insert_eq. exists st2. split; [done|].
      rewrite E, (stream_at_some _ _ _ Hst) in Ho.
      assert (st1 = st) as ->.
      { unfold open_sink in Ho. destruct Hc as (H1 & _).
        rewrite H1 in Ho. by injection Ho as <- _. }
      match type of Hi with
      | ingest ?ts ?a ?b ?c ?d ?e ?f = _ =>
          pose proof (ingest_closed_file w ts a b c d e f Hc) as H2
      end.
      by rewrite Hi in H2.
    + rewrite lookup_insert_ne by done. by exists st.
  - unfold on_timeout in Hstep. injection Hstep as <- _ _.
    rewrite lookup_fmap, Hst. eexists. split; [done|].
    unfold expire. by destruct (timed_out cfg now st).
  - injection Hstep as <- _ _. by exists st.
Qed.

Lemma flush_rest_closed w fuel : ∀ st,
  closed_with w st → closed_with w (flush_rest fuel st).
Proof.
  induction fuel as [|fuel IH]; intros st Hc; [done|].
  cbn [flush_rest]. destruct (buffer st !! expected st) as [bs|]; [|done].
  apply IH. destruct Hc as (H1 & H2 & H3). rewrite H1.
  destruct (write_closed w bs (fout st) H2 H3) as [G1 G2]. done.
Qed.

Lemma run_loop_closed cfg can_open w evs : ∀ (s s' : gmap Z StreamState) o x sid st,
  run_loop cfg can_open evs s = (s', o, x) →
  s !! sid = Some st → closed_with w st →
  ∃ st', s' !! sid = Some st' ∧ closed_with w st'.
Proof.
  induction evs as [|ev evs IH]; intros s s' o x sid st Hrun Hst Hc.
  - injection Hrun as <- _ _. by exists st.
  - cbn [run_loop] in Hrun.
    destruct (step cfg can_open s ev) as [[s1 o1] c] eqn:Hstep.
    destruct (step_closed _ _ _ _ _ _ _ _ _ _ Hstep Hst Hc) as (st1 & Hst1 & Hc1).
    destruct c.
    + destruct (run_loop cfg can_open evs s1) as [[s2 o2] ex] eqn:Hrec.
      injection Hrun as <- _ _. by eapply IH.
    + injection Hrun as <- _ _. by exists st1.
Qed.

(** X28.  A closed file is final.  Once the file of a stream has been
    closed (the stream was complete), it is never opened again and
    nothing more is written to it: whatever the receiver receives
    afterwards for that stream, frames of a new transfer with the same
    stream id included, the file holds what it held when it was
    closed, also after the flush that follows the loop. *)
Theorem closed_file_is_final cfg can_open evs (s s' : gmap Z StreamState) o x sid st :
  run_loop cfg can_open evs s = (s', o, x) →
  s !! sid = Some st →
  has_file st = true → Ofstream.is_open (fout st) = false →
  ∃ st', s' !! sid = Some st'
         ∧ has_file st' = true ∧ Ofstream.is_open (fout st') = false
         ∧ Ofstream.written (fout st') = Ofstream.written (fout st)
         ∧ Ofstream.written (fout (shutdown_stream st')) = Ofstream.written (fout st).
Proof.
  intros Hrun Hst Hf Ho.
  destruct (run_loop_closed cfg can_open (Ofstream.written (fout st)) evs
              s s' o x sid st Hrun Hst) as (st' & Hst' & Hc'); [done|].
  exists st'. split; [done|].
  pose proof (flush_rest_closed _ (size (buffer st')) st' Hc') as (_ & _ & H3).
  destruct Hc' as (G1 & G2 & G3).
  split; [done|]. split; [done|]. split; [done|].
  unfold shutdown_stream. by rewrite DemuxProofs.close_file_bytes.
Qed.

Lemma closed_file_is_final_witness :
  let st := mkStream 3 ∅ true 2 0 (Ofstream.mk false false [x01; x02]) true in
  ∃ st', (run_loop LoopProofs.cfg_all any_path [data 42 3 [x03]; data 42 4 [x04]]
            {[ 42 := st ]}).1.1 !! 42 = Some st'
         ∧ has_file st' = true ∧ Ofstream.is_open (fout st') = false
         ∧ Ofstream.written (fout st') = Ofstream.written (fout st)
         ∧ Ofstream.written (fout (shutdown_stream st')) = Ofstream.written (fout st).
Proof.
  intros st.
  eapply (closed_file_is_final LoopProofs.cfg_all any_path
            [data 42 3 [x03]; data 42 4 [x04]] {[ 42 := st ]} _ _ false 42 st).
  - vm_compute. reflexivity.
  - vm_compute. reflexivity.
  - reflexivity.
  - reflexivity.
Defined.

End ClosedProofs.
